(** * circuit_sim: a shallow embedding of the MNA engine

    The development follows the Python sources:
    - [circuit_sim/ILinearSystem.py]: the [Ax = b] system;
    - [circuit_sim/IComponent.py]: the component classes and their stamps;
    - [circuit_sim/Circuit.py]: circuit assembly and the analysis drivers.

    Python floats are idealised as exact rationals ([Q]); equalities between
    computed numbers are therefore stated with [==] ([Qeq]).  Functions that
    Python takes from libraries ([math.exp], [numpy.linalg.solve]) are
    parameters of the model.  *)

From Stdlib Require Import String Ascii DecimalString Decimal.
From Stdlib Require Import ZArith QArith Qabs Qround Qminmax Qfield Lqa Lia Bool Arith.
From Stdlib Require Import Sorted List.
Import ListNotations.

Open Scope Q_scope.

(** ** Results of Python calls *)

(** Exceptions that reach the caller of a component method. *)
Inductive cexn : Type :=
| KeyError            (* a dict lookup of a missing key *)
| IndexError          (* numpy / list index out of range *)
| ZeroDivisionError
| TypeError
| AttributeError      (* attribute access on [None] or a missing attribute *)
| NotImplemented      (* Exception("IComponent::...(...) not implemented") *)
| NoCircuitInformation (* Exception("Diode::calculate_dc_bias_error(...) called without ...") *)
| InconsistentConstants. (* Exception("The values in voltage source ... are inconsistent ...") *)

(** Exceptions of the assembly and of the drivers, by origin. The last
    one is no Python exception: it marks a [while] loop of the model that
    was still running when its fuel was spent. *)
Inductive exn : Type :=
| ComponentError (e : cexn)   (* raised inside a component method *)
| DriverError (e : cexn)      (* a lookup or attribute access of the driver itself *)
| LinearSolveError            (* raised by the linear solver *)
| UnknownOption               (* Exception("ILinearSystem::create(...) does not accept option ...") *)
| NonConvergence              (* Exception("Unable to converge to a circuit solution ...") *)
| OutOfFuel.

(** A call returns or raises. *)
Inductive res (E A : Type) : Type :=
| Ok (a : A)
| Raise (e : E).
Arguments Ok {E A} a.
Arguments Raise {E A} e.

(** Python mutates objects in place: what was written before an exception
    stays written.  A computation therefore always returns the state. *)
Definition M (E S A : Type) : Type := S -> res E A * S.

Definition ret {E S A} (a : A) : M E S A := fun s => (Ok a, s).
Definition raise {E S A} (e : E) : M E S A := fun s => (Raise e, s).
Definition out_of_fuel {S A} : M exn S A := fun s => (Raise OutOfFuel, s).
Definition bind {E S A B} (m : M E S A) (k : A -> M E S B) : M E S B :=
  fun s => match m s with
           | (Ok a, s') => k a s'
           | (Raise e, s') => (Raise e, s')
           end.
Definition get {E S} : M E S S := fun s => (Ok s, s).
Definition put {E S} (s : S) : M E S unit := fun _ => (Ok tt, s).
Definition modify {E S} (f : S -> S) : M E S unit := fun s => (Ok tt, f s).

Declare Scope monad_scope.
Delimit Scope monad_scope with monad.
Notation "x <- m ;; k" := (bind m (fun x => k))
  (at level 61, m at next level, right associativity) : monad_scope.
Notation "' pat <- m ;; k" := (bind m (fun x => match x with pat => k end))
  (at level 61, pat pattern, m at next level, right associativity) : monad_scope.
Notation "m ;; k" := (bind m (fun _ => k))
  (at level 61, right associativity) : monad_scope.
Open Scope monad_scope.

(** [for x in l: body x] *)
Fixpoint for_each {E S A} (l : list A) (body : A -> M E S unit) : M E S unit :=
  match l with
  | [] => ret tt
  | a :: l' => body a ;; for_each l' body
  end.

(** [when c m]: [if c: m] *)
Definition when {E S} (c : bool) (m : M E S unit) : M E S unit :=
  if c then m else ret tt.

(** ** Numbers *)

Definition Qltb (a b : Q) : bool := negb (Qle_bool b a).

(** The literal [1e-6]. *)
Definition tol_1e_6 : Q := 1 # 1000000.
(** The literal [1e-3]. *)
Definition tol_1e_3 : Q := 1 # 1000.

(** ** Dictionaries

    A Python [dict] keeps its keys in insertion order; assigning to a key
    that is present keeps its place. *)
Section Dict.
Context {K V : Type}.
Variable eqb : K -> K -> bool.

Fixpoint dict_get (d : list (K * V)) (k : K) : option V :=
  match d with
  | [] => None
  | (k', v) :: d' => if eqb k k' then Some v else dict_get d' k
  end.

Definition dict_mem (d : list (K * V)) (k : K) : bool :=
  match dict_get d k with Some _ => true | None => false end.

Fixpoint dict_set (d : list (K * V)) (k : K) (v : V) : list (K * V) :=
  match d with
  | [] => [(k, v)]
  | (k', v') :: d' =>
      if eqb k k' then (k', v) :: d' else (k', v') :: dict_set d' k v
  end.
End Dict.

(** ** Nodes and names *)

(** A terminal holds a symbolic name or, after constant propagation, a
    number: [type(self.node1) is str] tells them apart. *)
Inductive node : Type :=
| NName (s : string)
| NVal (v : Q).

Definition is_str (n : node) : bool :=
  match n with NName _ => true | NVal _ => false end.

Definition node_eqb (a b : node) : bool :=
  match a, b with
  | NName s, NName s' => String.eqb s s'
  | NVal v, NVal v' => Qeq_bool v v'
  | _, _ => false
  end.

(** A name attribute is [None] until it is generated. *)
Definition pyname : Type := option string.

Definition pyname_eqb (a b : pyname) : bool :=
  match a, b with
  | Some s, Some s' => String.eqb s s'
  | None, None => true
  | _, _ => false
  end.

(** [voltage_constants], such as [{"gnd": 0}]. *)
Definition constants : Type := list (node * Q).
Definition const_get : constants -> node -> option Q := dict_get node_eqb.
Definition const_mem : constants -> node -> bool := dict_mem node_eqb.
Definition const_set : constants -> node -> Q -> constants := dict_set node_eqb.

(** [variable_names_dict]: variable name to index. *)
Definition var_dict : Type := list (pyname * nat).
Definition var_get : var_dict -> pyname -> option nat := dict_get pyname_eqb.
Definition var_mem : var_dict -> pyname -> bool := dict_mem pyname_eqb.
Definition var_set : var_dict -> pyname -> nat -> var_dict := dict_set pyname_eqb.

(** [variable_names[key]] *)
Definition var_index {S} (vars : var_dict) (k : pyname) : M cexn S nat :=
  match var_get vars k with
  | Some i => ret i
  | None => raise KeyError
  end.

(** [variable_names[self.node1]]: the dict has no numeric key. *)
Definition node_index {S} (vars : var_dict) (n : node) : M cexn S nat :=
  match n with
  | NName s => var_index vars (Some s)
  | NVal _ => raise KeyError
  end.

(** ** ILinearSystem.py *)

(** [A] and [b] are arrays of side [dim]; [x] is [None] until the first
    [solve()]. *)
Record LinearSystem (K : Type) : Type := mkLS {
  sparse : bool;      (* [SparseLinearSystem] rather than [NumpyLinearSystem] *)
  dim : nat;
  A : nat -> nat -> K;
  b : nat -> K;
  x : option (list K)
}.
Arguments mkLS {K}.
Arguments sparse {K}.
Arguments dim {K}.
Arguments A {K}.
Arguments b {K}.
Arguments x {K}.

(** [NumpyLinearSystem.__init__]: [numpy.zeros] *)
Definition create_real (num_variables : nat) : LinearSystem Q :=
  mkLS false num_variables (fun _ _ => 0) (fun _ => 0) None.

Definition upd2 (f : nat -> nat -> Q) (r c : nat) (v : Q) : nat -> nat -> Q :=
  fun r' c' => if (r' =? r)%nat && (c' =? c)%nat then v else f r' c'.
Definition upd1 (f : nat -> Q) (r : nat) (v : Q) : nat -> Q :=
  fun r' => if (r' =? r)%nat then v else f r'.

Definition in_range (ls : LinearSystem Q) (r : nat) : bool := (r <? dim ls)%nat.

Definition LSM : Type -> Type := M cexn (LinearSystem Q).

(** [A[r, c] = v] *)
Definition A_set (r c : nat) (v : Q) : LSM unit :=
  fun ls => if in_range ls r && in_range ls c
            then (Ok tt, mkLS (sparse ls) (dim ls) (upd2 (A ls) r c v) (b ls) (x ls))
            else (Raise IndexError, ls).
(** [A[r, c] += v] *)
Definition A_add (r c : nat) (v : Q) : LSM unit :=
  fun ls => if in_range ls r && in_range ls c
            then (Ok tt, mkLS (sparse ls) (dim ls) (upd2 (A ls) r c (A ls r c + v)) (b ls) (x ls))
            else (Raise IndexError, ls).
(** [b[r] = v] *)
Definition b_set (r : nat) (v : Q) : LSM unit :=
  fun ls => if in_range ls r
            then (Ok tt, mkLS (sparse ls) (dim ls) (A ls) (upd1 (b ls) r v) (x ls))
            else (Raise IndexError, ls).
(** [b[r] += v] *)
Definition b_add (r : nat) (v : Q) : LSM unit :=
  fun ls => if in_range ls r
            then (Ok tt, mkLS (sparse ls) (dim ls) (A ls) (upd1 (b ls) r (b ls r + v)) (x ls))
            else (Raise IndexError, ls).
(** [b += v] on the whole array: numpy adds [v] to every entry, in place. *)
Definition b_add_all (v : Q) : LSM unit :=
  fun ls => (Ok tt, mkLS (sparse ls) (dim ls) (A ls) (fun r => b ls r + v) (x ls)).

(** Run a computation on one half of a pair of objects. *)
Definition on_fst {E S1 S2 A} (m : M E S1 A) : M E (S1 * S2) A :=
  fun s => let '(r, s1) := m (fst s) in (r, (s1, snd s)).
Definition on_snd {E S1 S2 A} (m : M E S2 A) : M E (S1 * S2) A :=
  fun s => let '(r, s2) := m (snd s) in (r, (fst s, s2)).

(** ** IComponent.py *)

Inductive AnalysisModes : Type := DC | Transient | AC_Sweep.

Record AnalysisDescription : Type := mkAD {
  mode : AnalysisModes;
  time_step : Q;
  w : Q
}.

(** [AnalysisDescription.__init__] *)
Definition AnalysisDescription_init : AnalysisDescription := mkAD DC tol_1e_6 1.

(** What [read_node1_and_node2_as_indices] returns for one terminal: the
    pair [(v, v_is_variable)]. *)
Inductive terminal : Type :=
| TVar (i : nat)      (* index of the unknown, [v_is_variable = True] *)
| TConst (v : Q).     (* fixed voltage, [v_is_variable = False] *)

(** [x[i]]; [x] is [None] before the first solve. *)
Definition x_at {S} (x : option (list Q)) (i : nat) : M cexn S Q :=
  match x with
  | None => raise TypeError
  | Some l => match nth_error l i with
              | Some v => ret v
              | None => raise IndexError
              end
  end.

Module IComponent.
(** The attributes of the base class. *)
Record t : Type := mk {
  node1 : node;
  node2 : node;
  name : pyname
}.

Definition str_of_nat (n : nat) : string :=
  NilEmpty.string_of_uint (Nat.to_uint n).

Definition generate_name (self : t) (_id : nat) : t * nat :=
  match name self with
  | None => (mk (node1 self) (node2 self) (Some ("$" ++ str_of_nat _id)%string),
             S _id)
  | Some _ => (self, _id)
  end.

Definition get_name (self : t) : pyname := name self.

Definition resolve_constants (self : t) (voltage_constants : constants) : t * bool :=
  let self1 :=
    match const_get voltage_constants (node1 self) with
    | Some v => mk (NVal v) (node2 self) (name self)
    | None => self
    end in
  let self2 :=
    match const_get voltage_constants (node2 self1) with
    | Some v => mk (node1 self1) (NVal v) (name self1)
    | None => self1
    end in
  (self2, false).

Definition get_variable_names (self : t) : list pyname :=
  (match node1 self with NName s => [Some s] | NVal _ => [] end) ++
  (match node2 self with NName s => [Some s] | NVal _ => [] end).

Definition read_node {S} (n : node) (variable_names : var_dict)
  : M cexn S terminal :=
  match n with
  | NName s => i <- var_index variable_names (Some s) ;; ret (TVar i)
  | NVal v => ret (TConst v)
  end.

Definition read_node1_and_node2_as_indices {S} (self : t) (variable_names : var_dict)
  : M cexn S (terminal * terminal) :=
  v1 <- read_node (node1 self) variable_names ;;
  v2 <- read_node (node2 self) variable_names ;;
  ret (v1, v2).

Definition read_value {S} (n : node) (x : option (list Q)) (variable_names : var_dict)
  : M cexn S Q :=
  match n with
  | NName s => i <- var_index variable_names (Some s) ;; x_at x i
  | NVal v => ret v
  end.

Definition read_node1_and_node2_as_values {S} (self : t) (x : option (list Q))
    (variable_names : var_dict) : M cexn S (Q * Q) :=
  v1 <- read_value (node1 self) x variable_names ;;
  v2 <- read_value (node2 self) x variable_names ;;
  ret (v1, v2).

(** [self.get_name() + ".current"] *)
Definition suffixed (self : t) (suffix : string) : pyname :=
  match name self with
  | Some n => Some (n ++ suffix)%string
  | None => None
  end.
End IComponent.

Definition is_variable (v : terminal) : bool :=
  match v with TVar _ => true | TConst _ => false end.

Module R.
Record t : Type := mk {
  base : IComponent.t;
  value : Q;                (* current value *)
  old_value : option Q      (* value in use *)
}.

Definition apply_element_stamps (self : t) (variable_names : var_dict)
    (partial_undo : bool) : LSM unit :=
  '(value, modifier) <-
     (if partial_undo
      then match old_value self with
           | Some v => ret (v, -1)
           | None => raise TypeError        (* 1 / None *)
           end
      else ret (value self, 1)) ;;
  one_over_R <- (if Qeq_bool value 0 then raise ZeroDivisionError
                 else ret (1 / value)) ;;
  '(v1, v2) <- IComponent.read_node1_and_node2_as_indices (base self) variable_names ;;
  (* current contribution for node1 *)
  match v1 with
  | TVar v1 =>
      A_add v1 v1 (one_over_R * modifier) ;;
      match v2 with
      | TVar v2 => A_add v1 v2 (-1 * one_over_R * modifier)
      | TConst v2 => b_add v1 (v2 * one_over_R * modifier)
      end
  | TConst _ => ret tt
  end ;;
  (* current contribution for node2 *)
  match v2 with
  | TVar v2 =>
      A_add v2 v2 (one_over_R * modifier) ;;
      match v1 with
      | TVar v1 => A_add v2 v1 (-1 * one_over_R * modifier)
      | TConst v1 => b_add v2 (v1 * one_over_R * modifier)
      end
  | TConst _ => ret tt
  end.

Definition init_linear_system (variable_names : var_dict)
    (analysis_description : AnalysisDescription) : M cexn (t * LinearSystem Q) unit :=
  (* make a backup *)
  modify (fun s => (mk (base (fst s)) (value (fst s)) (Some (value (fst s))), snd s)) ;;
  s <- get ;;
  on_snd (apply_element_stamps (fst s) variable_names false).

Definition update_linear_system (variable_names : var_dict)
    (analysis_description : AnalysisDescription) : M cexn (t * LinearSystem Q) unit :=
  s <- get ;;
  on_snd (apply_element_stamps (fst s) variable_names true) ;;
  init_linear_system variable_names analysis_description.

(** [r.value = v] by the host *)
Definition set_value (self : t) (v : Q) : t := mk (base self) v (old_value self).
End R.

Module VS.
Record t : Type := mk {
  base : IComponent.t;
  value : Q;
  current_var_name : pyname;
  disabled : bool
}.

Definition generate_name (self : t) (_id : nat) : t * nat :=
  let '(base', _id') := IComponent.generate_name (base self) _id in
  (mk base' (value self) (IComponent.suffixed base' ".current") (disabled self), _id').

(** arithmetic on a terminal that may still be a [str] *)
Definition as_number {S} (n : node) : M cexn S Q :=
  match n with
  | NVal v => ret v
  | NName _ => raise TypeError
  end.

(** Returns [Some true], [Some false], or [None] when the body falls off
    its end. The state is [self] and the caller's [voltage_constants]. *)
Definition resolve_constants : M cexn (t * constants) (option bool) :=
  s <- get ;;
  let self := fst s in
  let voltage_constants := snd s in
  let node1 := IComponent.node1 (base self) in
  let node2 := IComponent.node2 (base self) in
  let name := IComponent.name (base self) in
  (* check for data consistency if both nodes are constants *)
  if negb (is_str node1) && negb (is_str node1) then
    n1 <- as_number node1 ;;
    n2 <- as_number node2 ;;
    if Qltb tol_1e_6 (Qabs (n1 - n2 - value self))
    then match name with
         | Some _ => raise InconsistentConstants
         | None => raise TypeError     (* the message adds [self.get_name()] to a str *)
         end
    else ret (Some false)
  else
  (* if either node is a constant, the other node is also a constant *)
  match const_get voltage_constants node1 with
  | Some c1 =>
      let node2_name := node2 in
      let n2 := c1 - value self in
      put (mk (IComponent.mk (NVal c1) (NVal n2) name)
              (value self) (current_var_name self) true,
           const_set voltage_constants node2_name n2) ;;
      ret (Some true)
  | None =>
  match const_get voltage_constants node2 with
  | Some c2 =>
      let node1_name := node1 in
      let n1 := c2 + value self in
      put (mk (IComponent.mk (NVal n1) (NVal c2) name)
              (value self) (current_var_name self) true,
           const_set voltage_constants node1_name n1) ;;
      ret (Some true)
  | None => ret None
  end
  end.

Definition get_variable_names (self : t) : list pyname :=
  if disabled self then []
  else IComponent.get_variable_names (base self) ++ [current_var_name self].

Definition init_linear_system (self : t) (variable_names : var_dict)
    (analysis_description : AnalysisDescription) : LSM unit :=
  if disabled self then ret tt else
  v1 <- node_index variable_names (IComponent.node1 (base self)) ;;
  v2 <- node_index variable_names (IComponent.node2 (base self)) ;;
  i <- var_index variable_names (current_var_name self) ;;
  (* current contribution for node1 *)
  A_add v1 i (-1) ;;
  (* current contribution for node2 *)
  A_add v2 i 1 ;;
  (* additional equation *)
  A_set i v1 1 ;;
  A_set i v2 (-1) ;;
  b_set i (value self).

Definition update_linear_system (self : t) (variable_names : var_dict)
    (analysis_description : AnalysisDescription) : LSM unit :=
  if disabled self then ret tt else
  i <- var_index variable_names (current_var_name self) ;;
  b_set i (value self).
End VS.

Module Diode.
Record t : Type := mk {
  base : IComponent.t;
  (* model variables *)
  v0 : Q;
  i0 : Q;
  m : Q;
  (* additional Ax=b variables *)
  current_var_name : pyname;
  internal_node_name : pyname;
  (* operating condition *)
  v_bias : Q
}.

Definition generate_name (self : t) (_id : nat) : t * nat :=
  let '(base', _id') := IComponent.generate_name (base self) _id in
  (mk base' (v0 self) (i0 self) (m self)
      (IComponent.suffixed base' ".current")
      (IComponent.suffixed base' ".internal_node")
      (v_bias self), _id').

Definition get_variable_names (self : t) : list pyname :=
  IComponent.get_variable_names (base self)
    ++ [internal_node_name self; current_var_name self].

Section WithExp.
(** [math.exp] *)
Variable math_exp : Q -> Q.

Definition calculate_dc_bias_error {S} (self : t) (x : option (list Q))
    (variable_names : var_dict) : M cexn S Q :=
  match x with
  | None => raise NoCircuitInformation
  | Some _ =>
      '(v1, v2) <- IComponent.read_node1_and_node2_as_values (base self) x variable_names ;;
      let voltage := v1 - v2 in
      i <- var_index variable_names (current_var_name self) ;;
      current <- x_at x i ;;
      (* calculate error *)
      let current2 := i0 self * math_exp (m self * (voltage - v0 self)) in
      ret (current2 - current)
  end.

Definition apply_component_only_stamps (self : t) (variable_names : var_dict)
  : LSM unit :=
  let i_bias := i0 self * math_exp (m self * (v_bias self - v0 self)) in
  let i_derivative := i_bias * m self in
  v <- (if Qeq_bool i_derivative 0 then raise ZeroDivisionError
        else ret (i_bias / i_derivative)) ;;
  let v_offset := v_bias self - v in
  (* extract node values and variable indices *)
  '(v1, v2) <- IComponent.read_node1_and_node2_as_indices (base self) variable_names ;;
  v_int <- var_index variable_names (internal_node_name self) ;;
  i <- var_index variable_names (current_var_name self) ;;
  (* Current balance at internal node *)
  A_set v_int i (-1) ;;
  A_set v_int v_int i_derivative ;;
  match v2 with
  | TVar v2 => A_set v_int v2 (-1 * i_derivative) ;; b_set v_int 0
  | TConst v2 => b_set v_int (v2 * i_derivative)
  end ;;
  (* Additional equation - for v_offset *)
  A_set i v_int (-1) ;;
  match v1 with
  | TVar v1 => A_set i v1 1 ;; b_set i v_offset
  | TConst v1 => b_set i (v_offset - v1)
  end.

Definition init_linear_system (self : t) (variable_names : var_dict)
    (analysis_description : AnalysisDescription) : LSM unit :=
  i <- var_index variable_names (current_var_name self) ;;
  '(v1, v2) <- IComponent.read_node1_and_node2_as_indices (base self) variable_names ;;
  (* Current contribution at node1 *)
  match v1 with TVar v1 => A_add v1 i 1 | TConst _ => ret tt end ;;
  (* Current contribution at node2 *)
  match v2 with TVar v2 => A_add v2 i (-1) | TConst _ => ret tt end ;;
  apply_component_only_stamps self variable_names.

Definition update_linear_system (self : t) (variable_names : var_dict)
    (analysis_description : AnalysisDescription) : LSM unit :=
  apply_component_only_stamps self variable_names.
End WithExp.

(** The literal [0.3]. *)
Definition step_limit : Q := 3 # 10.

Definition update_state (x : option (list Q)) (variable_names : var_dict)
  : M cexn t unit :=
  self <- get ;;
  '(v1, v2) <- IComponent.read_node1_and_node2_as_values (base self) x variable_names ;;
  let voltage := v1 - v2 in
  (* adjust "v_bias"; limit step size *)
  let v_bias0 := v_bias self in
  let v_bias' :=
    if Qltb (v_bias0 + step_limit) voltage then v_bias0 + step_limit
    else if Qltb voltage (v_bias0 - step_limit) then v_bias0 - step_limit
    else voltage in
  put (mk (base self) (v0 self) (i0 self) (m self)
          (current_var_name self) (internal_node_name self) v_bias').
End Diode.

Module C.
Record t : Type := mk {
  base : IComponent.t;
  value : Q;
  current_var_name : pyname;
  (* capacitor state information *)
  vcap : Q;
  icap : Q
}.

Definition generate_name (self : t) (_id : nat) : t * nat :=
  let '(base', _id') := IComponent.generate_name (base self) _id in
  (mk base' (value self) (IComponent.suffixed base' ".current")
      (vcap self) (icap self), _id').

Definition get_variable_names (self : t) : list pyname :=
  IComponent.get_variable_names (base self) ++ [current_var_name self].

Definition update_state (x : option (list Q)) (variable_names : var_dict)
  : M cexn t unit :=
  self <- get ;;
  '(v1, v2) <- IComponent.read_node1_and_node2_as_values (base self) x variable_names ;;
  i <- var_index variable_names (current_var_name self) ;;
  icap' <- x_at x i ;;
  put (mk (base self) (value self) (current_var_name self) (v1 - v2) icap').

(** On a real ([float64]) system; the [AC_Sweep] branch writes complex
    numbers, which a real array refuses. *)
Definition apply_component_only_stamps (self : t) (variable_names : var_dict)
    (analysis_description : AnalysisDescription) : LSM unit :=
  '(v1, v2) <- IComponent.read_node1_and_node2_as_indices (base self) variable_names ;;
  i <- var_index variable_names (current_var_name self) ;;
  (* set all possible matrix entries to zero *)
  match v1 with TVar v1 => A_set i v1 0 | TConst _ => ret tt end ;;
  match v2 with TVar v2 => A_set i v2 0 | TConst _ => ret tt end ;;
  A_set i i 0 ;;
  b_set i 0 ;;
  match mode analysis_description with
  | Transient =>
      dt_over_2c <- (if Qeq_bool (2 * value self) 0 then raise ZeroDivisionError
                     else ret (time_step analysis_description / (2 * value self))) ;;
      match v1 with
      | TVar v1 => A_set i v1 1
      | TConst v1 => b_add i (- v1)
      end ;;
      match v2 with
      | TVar v2 => A_set i v2 (-1)
      | TConst v2 => b_add i v2
      end ;;
      A_set i i (-1 * dt_over_2c) ;;
      b_add i (dt_over_2c * icap self + vcap self)
  | AC_Sweep => raise TypeError
  | DC =>
      (* capacitor is open circuit in DC, with i = 0 *)
      A_set i i 1 ;;
      b_set i 0
  end.

Definition init_linear_system (self : t) (variable_names : var_dict)
    (analysis_description : AnalysisDescription) : LSM unit :=
  '(v1, v2) <- IComponent.read_node1_and_node2_as_indices (base self) variable_names ;;
  i <- var_index variable_names (current_var_name self) ;;
  (* current contribution for node1 *)
  match v1 with TVar v1 => A_add v1 i 1 | TConst _ => ret tt end ;;
  (* current contribution for node2 *)
  match v2 with TVar v2 => A_add v2 i (-1) | TConst _ => ret tt end ;;
  apply_component_only_stamps self variable_names analysis_description.

Definition update_linear_system (self : t) (variable_names : var_dict)
    (analysis_description : AnalysisDescription) : LSM unit :=
  apply_component_only_stamps self variable_names analysis_description.
End C.

Module L.
Record t : Type := mk {
  base : IComponent.t;
  value : Q;
  current_var_name : pyname;
  (* inductor state information *)
  vL : Q;
  iL : Q
}.

Definition generate_name (self : t) (_id : nat) : t * nat :=
  let '(base', _id') := IComponent.generate_name (base self) _id in
  (mk base' (value self) (IComponent.suffixed base' ".current")
      (vL self) (iL self), _id').

Definition get_variable_names (self : t) : list pyname :=
  IComponent.get_variable_names (base self) ++ [current_var_name self].

Definition update_state (x : option (list Q)) (variable_names : var_dict)
  : M cexn t unit :=
  self <- get ;;
  '(v1, v2) <- IComponent.read_node1_and_node2_as_values (base self) x variable_names ;;
  i <- var_index variable_names (current_var_name self) ;;
  iL' <- x_at x i ;;
  put (mk (base self) (value self) (current_var_name self) (v1 - v2) iL').

(** On a real ([float64]) system; the [AC_Sweep] branch writes complex
    numbers, which a real array refuses. *)
Definition apply_component_only_stamps (self : t) (variable_names : var_dict)
    (analysis_description : AnalysisDescription) : LSM unit :=
  '(v1, v2) <- IComponent.read_node1_and_node2_as_indices (base self) variable_names ;;
  i <- var_index variable_names (current_var_name self) ;;
  (* Set all possible matrix entries to zero. *)
  match v1 with TVar v1 => A_set i v1 0 | TConst _ => ret tt end ;;
  match v2 with TVar v2 => A_set i v2 0 | TConst _ => ret tt end ;;
  A_set i i 0 ;;
  b_set i 0 ;;
  (* additional equation - this depends on the analysis mode *)
  match mode analysis_description with
  | Transient =>
      dt_over_2L <- (if Qeq_bool (2 * value self) 0 then raise ZeroDivisionError
                     else ret (time_step analysis_description / (2 * value self))) ;;
      match v1 with
      | TVar v1 => A_set i v1 dt_over_2L
      | TConst v1 => b_add i (- (dt_over_2L * v1))
      end ;;
      match v2 with
      | TVar v2 => A_set i v2 (-1 * dt_over_2L)
      | TConst v2 => b_add i (dt_over_2L * v2)
      end ;;
      A_set i i (-1) ;;
      b_add i (-1 * dt_over_2L * vL self - iL self)
  | AC_Sweep =>
      (if Qeq_bool (value self * w analysis_description) 0
       then raise ZeroDivisionError else ret tt) ;;
      raise TypeError
  | DC =>
      (* inductor is short circuit in DC, with v1 = v2 *)
      match v1 with
      | TVar v1 => A_set i v1 1
      | TConst v1 => b_add_all (v1 * -1)      (* b += v1 * -1 *)
      end ;;
      match v2 with
      | TVar v2 => A_set i v2 (-1)
      | TConst v2 => b_add_all v2             (* b += v2 *)
      end
  end.

Definition init_linear_system (self : t) (variable_names : var_dict)
    (analysis_description : AnalysisDescription) : LSM unit :=
  '(v1, v2) <- IComponent.read_node1_and_node2_as_indices (base self) variable_names ;;
  i <- var_index variable_names (current_var_name self) ;;
  (* current contribution for node1 *)
  match v1 with TVar v1 => A_add v1 i 1 | TConst _ => ret tt end ;;
  (* current contribution for node2 *)
  match v2 with TVar v2 => A_add v2 i (-1) | TConst _ => ret tt end ;;
  apply_component_only_stamps self variable_names analysis_description.

Definition update_linear_system (self : t) (variable_names : var_dict)
    (analysis_description : AnalysisDescription) : LSM unit :=
  apply_component_only_stamps self variable_names analysis_description.
End L.

Module VG.
Record t : Type := mk {
  base : IComponent.t;
  value : Q;
  current_var_name : pyname
}.

Definition generate_name (self : t) (_id : nat) : t * nat :=
  let '(base', _id') := IComponent.generate_name (base self) _id in
  (mk base' (value self) (IComponent.suffixed base' ".current"), _id').

Definition get_variable_names (self : t) : list pyname :=
  IComponent.get_variable_names (base self) ++ [current_var_name self].

Definition apply_component_only_stamps (self : t) (variable_names : var_dict)
  : LSM unit :=
  '(v1, v2) <- IComponent.read_node1_and_node2_as_indices (base self) variable_names ;;
  i <- var_index variable_names (current_var_name self) ;;
  (* initialization *)
  match v1 with TVar v1 => A_set i v1 0 | TConst _ => ret tt end ;;
  match v2 with TVar v2 => A_set i v2 0 | TConst _ => ret tt end ;;
  b_set i 0 ;;
  (* stamping *)
  match v1 with
  | TVar v1 => A_set i v1 1
  | TConst v1 => b_add i (-1 * v1)
  end ;;
  match v2 with
  | TVar v2 => A_set i v2 (-1)
  | TConst v2 => b_add i v2
  end ;;
  b_add i (value self).

Definition init_linear_system (self : t) (variable_names : var_dict)
    (analysis_description : AnalysisDescription) : LSM unit :=
  '(v1, v2) <- IComponent.read_node1_and_node2_as_indices (base self) variable_names ;;
  i <- var_index variable_names (current_var_name self) ;;
  (* current contribution for node1 *)
  match v1 with TVar v1 => A_add v1 i (-1) | TConst _ => ret tt end ;;
  (* current contribution for node2 *)
  match v2 with TVar v2 => A_add v2 i 1 | TConst _ => ret tt end ;;
  apply_component_only_stamps self variable_names.

Definition update_linear_system (self : t) (variable_names : var_dict)
    (analysis_description : AnalysisDescription) : LSM unit :=
  apply_component_only_stamps self variable_names.
End VG.

(** ** The component classes as one type *)

Inductive component : Type :=
| Comp_R (r : R.t)
| Comp_VS (v : VS.t)
| Comp_Diode (d : Diode.t)
| Comp_C (c : C.t)
| Comp_L (l : L.t)
| Comp_VG (g : VG.t).

(** [type(c) is IComponent.VS] and the like *)
Definition is_VS (c : component) : bool :=
  match c with Comp_VS _ => true | _ => false end.
Definition is_Diode (c : component) : bool :=
  match c with Comp_Diode _ => true | _ => false end.
Definition is_C_or_L (c : component) : bool :=
  match c with Comp_C _ | Comp_L _ => true | _ => false end.

Definition base_of (c : component) : IComponent.t :=
  match c with
  | Comp_R r => R.base r
  | Comp_VS v => VS.base v
  | Comp_Diode d => Diode.base d
  | Comp_C c => C.base c
  | Comp_L l => L.base l
  | Comp_VG g => VG.base g
  end.

Definition get_name (c : component) : pyname := IComponent.get_name (base_of c).

Definition generate_name (c : component) (_id : nat) : component * nat :=
  match c with
  | Comp_R r =>
      let '(base', _id') := IComponent.generate_name (R.base r) _id in
      (Comp_R (R.mk base' (R.value r) (R.old_value r)), _id')
  | Comp_VS v => let '(v', _id') := VS.generate_name v _id in (Comp_VS v', _id')
  | Comp_Diode d => let '(d', _id') := Diode.generate_name d _id in (Comp_Diode d', _id')
  | Comp_C c => let '(c', _id') := C.generate_name c _id in (Comp_C c', _id')
  | Comp_L l => let '(l', _id') := L.generate_name l _id in (Comp_L l', _id')
  | Comp_VG g => let '(g', _id') := VG.generate_name g _id in (Comp_VG g', _id')
  end.

(** Replace the base-class attributes of a component. *)
Definition with_base (c : component) (base' : IComponent.t) : component :=
  match c with
  | Comp_R r => Comp_R (R.mk base' (R.value r) (R.old_value r))
  | Comp_VS v => Comp_VS (VS.mk base' (VS.value v) (VS.current_var_name v) (VS.disabled v))
  | Comp_Diode d =>
      Comp_Diode (Diode.mk base' (Diode.v0 d) (Diode.i0 d) (Diode.m d)
                    (Diode.current_var_name d) (Diode.internal_node_name d) (Diode.v_bias d))
  | Comp_C c => Comp_C (C.mk base' (C.value c) (C.current_var_name c) (C.vcap c) (C.icap c))
  | Comp_L l => Comp_L (L.mk base' (L.value l) (L.current_var_name l) (L.vL l) (L.iL l))
  | Comp_VG g => Comp_VG (VG.mk base' (VG.value g) (VG.current_var_name g))
  end.

(** [c.resolve_constants(voltage_constants)], dispatched on the class: only
    [VS] overrides the base method. *)
Definition resolve_constants : M cexn (component * constants) (option bool) :=
  s <- get ;;
  match fst s with
  | Comp_VS v =>
      fun _ => let '(r, (v', vc')) := VS.resolve_constants (v, snd s) in
               (r, (Comp_VS v', vc'))
  | c =>
      let '(base', r) := IComponent.resolve_constants (base_of c) (snd s) in
      put (with_base c base', snd s) ;;
      ret (Some r)
  end.

Definition get_variable_names (c : component) : list pyname :=
  match c with
  | Comp_R r => IComponent.get_variable_names (R.base r)
  | Comp_VS v => VS.get_variable_names v
  | Comp_Diode d => Diode.get_variable_names d
  | Comp_C c => C.get_variable_names c
  | Comp_L l => L.get_variable_names l
  | Comp_VG g => VG.get_variable_names g
  end.

(** ** Circuit.py: assembly *)

(** [l[i] = a]; [None] when [i] is out of range. *)
Fixpoint list_set {A} (l : list A) (i : nat) (a : A) : option (list A) :=
  match l, i with
  | [], _ => None
  | _ :: l', O => Some (a :: l')
  | a' :: l', S i' => option_map (cons a') (list_set l' i' a)
  end.

(** The components live in [all_components]; the other lists and the
    name table hold references to the same objects, here indices into
    [all_components]. *)
Record CircuitComponents : Type := mkCC {
  all_components : list component;
  voltage_constants : constants;
  (* lists for components that require special treatment *)
  constant_voltages : list nat;
  non_linear : list nat;
  lc : list nat;
  modified : list nat;
  (* mapping from variable name to index *)
  variable_names_dict : var_dict;           (* name to index *)
  variable_names_list : list pyname;        (* index to name *)
  (* for looking up components by name *)
  components_dict : list (pyname * nat)
}.

Definition set_all_components (cc : CircuitComponents) v :=
  mkCC v (voltage_constants cc) (constant_voltages cc) (non_linear cc) (lc cc)
       (modified cc) (variable_names_dict cc) (variable_names_list cc) (components_dict cc).
Definition set_voltage_constants (cc : CircuitComponents) v :=
  mkCC (all_components cc) v (constant_voltages cc) (non_linear cc) (lc cc)
       (modified cc) (variable_names_dict cc) (variable_names_list cc) (components_dict cc).
Definition set_special_lists (cc : CircuitComponents) vs nl lc' :=
  mkCC (all_components cc) (voltage_constants cc) vs nl lc'
       (modified cc) (variable_names_dict cc) (variable_names_list cc) (components_dict cc).
Definition set_modified (cc : CircuitComponents) v :=
  mkCC (all_components cc) (voltage_constants cc) (constant_voltages cc) (non_linear cc)
       (lc cc) v (variable_names_dict cc) (variable_names_list cc) (components_dict cc).
Definition set_variable_names_dict (cc : CircuitComponents) v :=
  mkCC (all_components cc) (voltage_constants cc) (constant_voltages cc) (non_linear cc)
       (lc cc) (modified cc) v (variable_names_list cc) (components_dict cc).
Definition set_variable_names_list (cc : CircuitComponents) v :=
  mkCC (all_components cc) (voltage_constants cc) (constant_voltages cc) (non_linear cc)
       (lc cc) (modified cc) (variable_names_dict cc) v (components_dict cc).
Definition set_components_dict (cc : CircuitComponents) v :=
  mkCC (all_components cc) (voltage_constants cc) (constant_voltages cc) (non_linear cc)
       (lc cc) (modified cc) (variable_names_dict cc) (variable_names_list cc) v.

Definition lift_res {A} (r : res cexn A) : res exn A :=
  match r with
  | Ok a => Ok a
  | Raise e => Raise (ComponentError e)
  end.

(** The object behind a reference. A reference built by this file is
    never dangling. *)
Definition deref {S} (all : list component) (c : nat) : M exn S component :=
  match nth_error all c with
  | Some o => ret o
  | None => raise (DriverError IndexError)
  end.

Definition store (all : list component) (c : nat) (o : component) : list component :=
  match list_set all c o with Some all' => all' | None => all end.

Module CircuitComponents_.
(** [for c in list_of_components: _id = c.generate_name(_id)] *)
Fixpoint generate_names (l : list component) (_id : nat) : list component :=
  match l with
  | [] => []
  | c :: l' => let '(c', _id') := generate_name c _id in c' :: generate_names l' _id'
  end.

(** The uniqueness check; [false] when a name is used more than once. *)
Fixpoint names_unique (l : list component) (all_names : list pyname) : bool :=
  match l with
  | [] => true
  | c :: l' =>
      if existsb (pyname_eqb (get_name c)) all_names then false
      else names_unique l' (get_name c :: all_names)
  end.

(** References to the components of [l] that satisfy [p], in order. *)
Fixpoint select (p : component -> bool) (l : list component) (first : nat) : list nat :=
  match l with
  | [] => []
  | c :: l' => if p c then first :: select p l' (S first) else select p l' (S first)
  end.

(** [change = c.resolve_constants(voltage_constants)] on the component
    behind [c]. *)
Definition call_resolve_constants (c : nat) : M exn CircuitComponents (option bool) :=
  cc <- get ;;
  o <- deref (all_components cc) c ;;
  let '(r, (o', vc')) := resolve_constants (o, voltage_constants cc) in
  put (set_voltage_constants (set_all_components cc (store (all_components cc) c o')) vc') ;;
  fun s => (lift_res r, s).

(** [if change:] *)
Definition truthy (change : option bool) : bool :=
  match change with Some true => true | _ => false end.

(** One pass of [for c in self.constant_voltages]. *)
Fixpoint resolve_pass (cs : list nat) (changes_found : bool)
  : M exn CircuitComponents bool :=
  match cs with
  | [] => ret changes_found
  | c :: cs' =>
      change <- call_resolve_constants c ;;
      resolve_pass cs' (if truthy change then true else changes_found)
  end.

(** [while changes_found: ...] *)
Fixpoint resolve_loop (fuel : nat) : M exn CircuitComponents unit :=
  match fuel with
  | O => out_of_fuel
  | S fuel' =>
      cc <- get ;;
      changes_found <- resolve_pass (constant_voltages cc) false ;;
      if changes_found then resolve_loop fuel' else ret tt
  end.

(** [for var_name in var_names: if var_name not in dict: ...] *)
Fixpoint add_var_names (var_names : list pyname) (d : var_dict) (var_name_index : nat)
  : var_dict * nat :=
  match var_names with
  | [] => (d, var_name_index)
  | var_name :: rest =>
      if var_mem d var_name then add_var_names rest d var_name_index
      else add_var_names rest (var_set d var_name var_name_index) (S var_name_index)
  end.

Definition startswith_dollar (s : string) : bool := String.prefix "$" s.

(** The loop that builds [variable_names_dict] and [components_dict];
    [c] counts the position in [list_of_components]. *)
Fixpoint collect (l : list component) (c : nat) (var_name_index : nat)
  : M exn CircuitComponents unit :=
  match l with
  | [] => ret tt
  | o :: l' =>
      match get_name o with
      | None => raise (DriverError AttributeError)     (* None.startswith *)
      | Some name =>
          when (negb (startswith_dollar name))
            (modify (fun cc => set_components_dict cc
                       (dict_set pyname_eqb (components_dict cc) (Some name) c))) ;;
          cc <- get ;;
          let '(d, var_name_index') :=
            add_var_names (get_variable_names o) (variable_names_dict cc) var_name_index in
          put (set_variable_names_dict cc d) ;;
          collect l' (S c) var_name_index'
      end
  end.

(** [for var_name, index in self.variable_names_dict.items():
       self.variable_names_list[index] = var_name] *)
Fixpoint fill_names (items : var_dict) (l : list pyname) : option (list pyname) :=
  match items with
  | [] => Some l
  | (var_name, index) :: items' =>
      match list_set l index var_name with
      | Some l' => fill_names items' l'
      | None => None
      end
  end.

Definition for_all_resolve (n : nat) : M exn CircuitComponents unit :=
  for_each (seq 0 n) (fun c => call_resolve_constants c ;; ret tt).

(** [CircuitComponents.__init__]; [fuel] bounds the passes of the
    constant-propagation loop. *)
Definition init (fuel : nat) (list_of_components : list component)
    (voltage_constants : constants) : res exn unit * CircuitComponents :=
  let named := generate_names list_of_components 0 in
  let cc0 := mkCC named voltage_constants [] [] [] [] [] [] [] in
  (if names_unique named [] then
     (* collect components that require special treatment into lists *)
     modify (fun cc => set_special_lists cc
               (select is_VS named 0) (select is_Diode named 0) (select is_C_or_L named 0)) ;;
     (* resolve voltage_constants for voltage sources *)
     resolve_loop fuel ;;
     (* resolve all voltage_constants for components *)
     for_all_resolve (length named) ;;
     (* Collect variable names *)
     cc <- get ;;
     collect (all_components cc) 0 0 ;;
     (* Now build up "variable_names_list" *)
     cc <- get ;;
     match fill_names (variable_names_dict cc)
             (repeat (Some ""%string) (length (variable_names_dict cc))) with
     | Some l => put (set_variable_names_list cc l)
     | None => raise (DriverError IndexError)
     end
   else
     (* the message reads [c.name], which no component has *)
     raise (DriverError AttributeError)) cc0.
End CircuitComponents_.

(** ** Circuit.py: the analysis drivers *)

(** A stamping method called while [self.__linear_system] is still [None]:
    the first access to [linear_system.A] or [linear_system.b] fails. A
    disabled [VS] returns before it; [R.init_linear_system] has made its
    backup by then. *)
Definition stamp_without_system (is_init : bool) (o : component) : res cexn unit * component :=
  match o with
  | Comp_VS v => if VS.disabled v then (Ok tt, o) else (Raise AttributeError, o)
  | Comp_R r =>
      if is_init
      then (Raise AttributeError, Comp_R (R.mk (R.base r) (R.value r) (Some (R.value r))))
      else (Raise AttributeError, o)
  | _ => (Raise AttributeError, o)
  end.

(** What [linear_system.solve()] does to [x]: the dense solver assigns
    [x] or raises; the sparse one assigns [x] and then raises when gmres
    reports a failure. *)
Inductive solved (K : Type) : Type :=
| Solved (x : list K)
| SolveFailed (x : option (list K)).   (* raises; [Some x] when [x] was assigned first *)
Arguments Solved {K} x.
Arguments SolveFailed {K} x.

(** The drivers work on a real ([float64]) or a complex ([complex128])
    system. What depends on the scalars is the interface below: the
    numbers, the library solver, and the four component methods that read
    or write the system. *)
Class Backend (K : Type) : Type := {
  Kzero : K;
  (** [abs(v)] *)
  Kabs : K -> Q;
  (** [numpy.linalg.solve] / [scipy.sparse.linalg.gmres] *)
  solver : LinearSystem K -> solved K;
  init_linear_system :
    var_dict -> AnalysisDescription -> M cexn (component * LinearSystem K) unit;
  update_linear_system :
    var_dict -> AnalysisDescription -> M cexn (component * LinearSystem K) unit;
  update_state : option (list K) -> var_dict -> M cexn component unit;
  calculate_dc_bias_error : component -> option (list K) -> var_dict -> res cexn K
}.

(** Calls made by the drivers, in order. This is ghost state: it records
    which call was made on which component with which analysis
    description, and is read by no code. *)
Inductive event : Type :=
| EvLinearSolve                                          (* linear_system.solve() *)
| EvErrorTest (converged : bool)                         (* if err < max_err *)
| EvUpdateState (c : nat)                                (* c.update_state(...) *)
| EvUpdateLinearSystem (c : nat) (d : AnalysisDescription)
| EvInitLinearSystem (c : nat) (d : AnalysisDescription).

Record Circuit (K : Type) : Type := mkCircuit {
  circuit_components : CircuitComponents;
  linear_system : option (LinearSystem K);
  (* transient simulation member variables *)
  t : Q;                           (* current transient simulation time *)
  start_record_time : Q;
  var_list_index : list nat;       (* indices of "x" vector to be recorded *)
  time_stamps : list Q;
  results : list (list K);
  (* ghost *)
  trace : list event
}.
Arguments mkCircuit {K}.
Arguments circuit_components {K}.
Arguments linear_system {K}.
Arguments t {K}.
Arguments start_record_time {K}.
Arguments var_list_index {K}.
Arguments time_stamps {K}.
Arguments results {K}.
Arguments trace {K}.

(** The literal value of [math.pi], a double. *)
Definition math_pi : Q := 884279719003555 # 281474976710656.

Section Drivers.
Context {K : Type} `{Backend K}.

Local Abbreviation Circuit := (Circuit K).
Local Abbreviation DM := (M exn Circuit).

Definition set_cc (s : Circuit) v :=
  mkCircuit v (linear_system s) (t s) (start_record_time s) (var_list_index s)
            (time_stamps s) (results s) (trace s).
Definition set_linear_system (s : Circuit) v :=
  mkCircuit (circuit_components s) v (t s) (start_record_time s) (var_list_index s)
            (time_stamps s) (results s) (trace s).
Definition set_t (s : Circuit) v :=
  mkCircuit (circuit_components s) (linear_system s) v (start_record_time s)
            (var_list_index s) (time_stamps s) (results s) (trace s).
Definition set_start_record_time (s : Circuit) v :=
  mkCircuit (circuit_components s) (linear_system s) (t s) v
            (var_list_index s) (time_stamps s) (results s) (trace s).
Definition set_var_list_index (s : Circuit) v :=
  mkCircuit (circuit_components s) (linear_system s) (t s) (start_record_time s)
            v (time_stamps s) (results s) (trace s).
Definition set_time_stamps (s : Circuit) v :=
  mkCircuit (circuit_components s) (linear_system s) (t s) (start_record_time s)
            (var_list_index s) v (results s) (trace s).
Definition set_results (s : Circuit) v :=
  mkCircuit (circuit_components s) (linear_system s) (t s) (start_record_time s)
            (var_list_index s) (time_stamps s) v (trace s).
Definition set_trace (s : Circuit) v :=
  mkCircuit (circuit_components s) (linear_system s) (t s) (start_record_time s)
            (var_list_index s) (time_stamps s) (results s) v.

Definition log (e : event) : DM unit :=
  modify (fun s => set_trace s (trace s ++ [e])).

(** [Circuit.__init__] *)
Definition Circuit_init (fuel : nat) (list_of_components : list component)
    (voltage_constants : constants) : res exn unit * Circuit :=
  let '(r, cc) := CircuitComponents_.init fuel list_of_components voltage_constants in
  (r, mkCircuit cc None 0 0 [] [] [] []).

(** [ILinearSystem.create(num_variables, dtype, options)] *)
Definition ILinearSystem_create (num_variables : nat) (options : string)
  : DM (LinearSystem K) :=
  if String.eqb options "dense"
  then ret (mkLS false num_variables (fun _ _ => Kzero) (fun _ => Kzero) None)
  else if String.eqb options "sparse"
  then ret (mkLS true num_variables (fun _ _ => Kzero) (fun _ => Kzero) None)
  else raise UnknownOption.

(** [self.__linear_system], which is [None] before the first analysis *)
Definition the_linear_system : DM (LinearSystem K) :=
  s <- get ;;
  match linear_system s with
  | Some ls => ret ls
  | None => raise (DriverError AttributeError)
  end.

(** [self.__linear_system.solve()] *)
Definition linear_system_solve : DM unit :=
  ls <- the_linear_system ;;
  log EvLinearSolve ;;
  match solver ls with
  | Solved x' =>
      modify (fun s => set_linear_system s
                (Some (mkLS (sparse ls) (dim ls) (A ls) (b ls) (Some x'))))
  | SolveFailed None => raise LinearSolveError
  | SolveFailed (Some x') =>
      modify (fun s => set_linear_system s
                (Some (mkLS (sparse ls) (dim ls) (A ls) (b ls) (Some x')))) ;;
      raise LinearSolveError
  end.

(** [c.update_state(self.__linear_system.x, variable_names)] *)
Definition call_update_state (c : nat) : DM unit :=
  ls <- the_linear_system ;;
  s <- get ;;
  let cc := circuit_components s in
  o <- deref (all_components cc) c ;;
  log (EvUpdateState c) ;;
  let '(r, o') := update_state (x ls) (variable_names_dict cc) o in
  modify (fun s => set_cc s (set_all_components (circuit_components s)
                               (store (all_components (circuit_components s)) c o'))) ;;
  fun s => (lift_res r, s).

(** A component method that stamps the linear system, called on the
    component behind [c]; [is_init] tells [init_linear_system] from
    [update_linear_system]. *)
Definition call_stamp (is_init : bool) (c : nat)
    (analysis_description : AnalysisDescription) : DM unit :=
  s <- get ;;
  let cc := circuit_components s in
  o <- deref (all_components cc) c ;;
  match linear_system s with
  | None =>
      let '(r, o') := stamp_without_system is_init o in
      modify (fun s => set_cc s (set_all_components (circuit_components s)
                                   (store (all_components (circuit_components s)) c o'))) ;;
      fun s => (lift_res r, s)
  | Some ls =>
      let method := if is_init then init_linear_system else update_linear_system in
      let '(r, (o', ls')) := method (variable_names_dict cc) analysis_description (o, ls) in
      modify (fun s => set_linear_system
                         (set_cc s (set_all_components (circuit_components s)
                                      (store (all_components (circuit_components s)) c o')))
                         (Some ls')) ;;
      fun s => (lift_res r, s)
  end.

(** [c.update_linear_system(self.__linear_system, variable_names, analysis_description)] *)
Definition call_update_linear_system (c : nat) (d : AnalysisDescription) : DM unit :=
  log (EvUpdateLinearSystem c d) ;;
  call_stamp false c d.

(** [c.init_linear_system(self.__linear_system, variable_names, analysis_description)] *)
Definition call_init_linear_system (c : nat) (d : AnalysisDescription) : DM unit :=
  log (EvInitLinearSystem c d) ;;
  call_stamp true c d.

(** [CircuitComponents.sum_non_linear_error], from the running total [err] *)
Fixpoint sum_non_linear_error (cs : list nat) (x : option (list K)) (err : Q) : DM Q :=
  match cs with
  | [] => ret err
  | c :: cs' =>
      s <- get ;;
      let cc := circuit_components s in
      o <- deref (all_components cc) c ;;
      e <- (fun s => (lift_res (calculate_dc_bias_error o x (variable_names_dict cc)), s)) ;;
      sum_non_linear_error cs' x (err + Kabs e)
  end.

(** [sum(abs(x))] *)
Definition norm1 (x : list K) : Q := fold_left Qplus (map Kabs x) 0.

(** The body of [for c in self.__circuit_components.non_linear] *)
Definition restamp_non_linear (analysis_description : AnalysisDescription) : DM unit :=
  s <- get ;;
  for_each (non_linear (circuit_components s))
    (fun c => call_update_state c ;;
              call_update_linear_system c analysis_description).

(** [max_err = norm * 1e-3; if max_err < 1e-6: max_err = 1e-6] *)
Definition max_err_of (norm : Q) : Q :=
  let max_err := norm * tol_1e_3 in
  if Qltb max_err tol_1e_6 then tol_1e_6 else max_err.

(** The convergence test on the current solution. *)
Definition error_test : DM bool :=
  ls <- the_linear_system ;;
  s <- get ;;
  err <- sum_non_linear_error (non_linear (circuit_components s)) (x ls) 0 ;;
  norm <- match x ls with
          | Some xs => ret (norm1 xs)
          | None => raise (DriverError TypeError)      (* abs(None) *)
          end ;;
  let converged := Qltb err (max_err_of norm) in
  log (EvErrorTest converged) ;;
  ret converged.

(** The [while num_iter < max_iter] loop; [remaining] is
    [max_iter - num_iter]. *)
Fixpoint solve_loop (analysis_description : AnalysisDescription) (remaining : nat)
  : DM unit :=
  match remaining with
  | O => raise NonConvergence
  | S remaining' =>
      converged <- error_test ;;
      if converged then ret tt
      else
        restamp_non_linear analysis_description ;;
        (* Recompute a DC solution *)
        linear_system_solve ;;
        solve_loop analysis_description remaining'
  end.

(** [Circuit.solve] *)
Definition solve (analysis_description : AnalysisDescription) (max_iter : nat) : DM unit :=
  (* initial solution attempt *)
  linear_system_solve ;;
  solve_loop analysis_description max_iter.

(** [for c in self.__circuit_components.all_components: c.init_linear_system(...)] *)
Definition init_all (analysis_description : AnalysisDescription) : DM unit :=
  s <- get ;;
  for_each (seq 0 (length (all_components (circuit_components s))))
    (fun c => call_init_linear_system c analysis_description).

(** [Circuit.dc_analysis] *)
Definition dc_analysis (options : string) (max_iter : nat) : DM unit :=
  s <- get ;;
  let num_variables := length (variable_names_list (circuit_components s)) in
  ls <- ILinearSystem_create num_variables options ;;
  modify (fun s => set_linear_system s (Some ls)) ;;
  let analysis_description := mkAD DC (time_step AnalysisDescription_init)
                                   (w AnalysisDescription_init) in
  init_all analysis_description ;;
  solve analysis_description max_iter.
End Drivers.

Section Transient.
Context {K : Type} `{Backend K}.

Local Abbreviation Circuit := (Circuit K).
Local Abbreviation DM := (M exn Circuit).

(** [x[var_index]] for the driver *)
Definition x_entry (x : option (list K)) (i : nat) : DM K :=
  match x with
  | None => raise (DriverError TypeError)
  | Some l => match nth_error l i with
              | Some v => ret v
              | None => raise (DriverError IndexError)
              end
  end.

(** [self.__results[i].append(v)] *)
Definition results_append (i : nat) (v : K) : DM unit :=
  s <- get ;;
  match nth_error (results s) i with
  | None => raise (DriverError IndexError)
  | Some series =>
      match list_set (results s) i (series ++ [v]) with
      | Some rs => put (set_results s rs)
      | None => raise (DriverError IndexError)
      end
  end.

(** "collect data from simulation" *)
Definition record_sample : DM unit :=
  ls <- the_linear_system ;;
  let x := x ls in
  s <- get ;;
  when (Qle_bool (start_record_time s) (t s))
    (modify (fun s => set_time_stamps s (time_stamps s ++ [t s])) ;;
     for_each (seq 0 (length (var_list_index s)))
       (fun i =>
          match nth_error (var_list_index s) i with
          | None => raise (DriverError IndexError)
          | Some var_index =>
              v <- x_entry x var_index ;;
              results_append i v
          end)).

(** "update the LC components" *)
Definition update_lc (analysis_description : AnalysisDescription) : DM unit :=
  s <- get ;;
  for_each (lc (circuit_components s))
    (fun c => call_update_state c ;;
              call_update_linear_system c analysis_description).

(** The end of one pass of the loop: advance [self.__t]. Returns the
    analysis description, whose [time_step] the last two steps change. *)
Definition advance_time (end_time time_step : Q)
    (analysis_description : AnalysisDescription) : DM AnalysisDescription :=
  s <- get ;;
  if Qltb (t s + 2 * time_step) end_time then
    (* standard time stepping *)
    put (set_t s (t s + time_step)) ;;
    ret analysis_description
  else if Qle_bool end_time (t s + time_step) then
    (* final time step *)
    put (set_t s end_time) ;;
    ret (mkAD (mode analysis_description) (end_time - t s) (w analysis_description))
  else
    (* the second last time step: step half of the remaining time *)
    let second_last_step := (end_time - t s) / 2 in
    put (set_t s (t s + second_last_step)) ;;
    ret (mkAD (mode analysis_description) second_last_step (w analysis_description)).

(** [while self.__t < end_time: ...] *)
Fixpoint transient_loop (fuel : nat) (end_time time_step : Q) (max_iter : nat)
    (analysis_description : AnalysisDescription) : DM unit :=
  match fuel with
  | O => s <- get ;; if Qltb (t s) end_time then out_of_fuel else ret tt
  | S fuel' =>
      s <- get ;;
      if Qltb (t s) end_time then
        solve analysis_description max_iter ;;
        record_sample ;;
        update_lc analysis_description ;;
        analysis_description' <- advance_time end_time time_step analysis_description ;;
        transient_loop fuel' end_time time_step max_iter analysis_description'
      else ret tt
  end.

(** [max(a, b)] of Python *)
Definition py_max (a b : Q) : Q := if Qltb a b then b else a.

(** [Circuit.continue_transient_simulation]; [fuel] bounds the passes
    of its loop. *)
Definition continue_transient_simulation (fuel : nat) (run_time : Q)
    (time_step : option Q) (max_iter : nat) : DM (list Q * list (list K)) :=
  s <- get ;;
  let end_time := t s + run_time in
  (* default to collecting 1024 points *)
  let time_step :=
    match time_step with
    | None => (end_time - py_max (t s) (start_record_time s)) / 1024
    | Some dt => dt
    end in
  (* set up analysis description *)
  let analysis_description := mkAD Transient time_step (w AnalysisDescription_init) in
  (* re-stamp any modified components *)
  for_each (modified (circuit_components s))
    (fun c => call_update_linear_system c analysis_description) ;;
  modify (fun s => set_cc s (set_modified (circuit_components s) [])) ;;
  transient_loop fuel end_time time_step max_iter analysis_description ;;
  s <- get ;;
  ret (time_stamps s, results s).

(** [variable_names[var_name]] for the driver *)
Definition lookup_var (vars : var_dict) (var_name : pyname) : DM nat :=
  match var_get vars var_name with
  | Some i => ret i
  | None => raise (DriverError KeyError)
  end.

Fixpoint lookup_vars (vars : var_dict) (var_list : list pyname) : DM (list nat) :=
  match var_list with
  | [] => ret []
  | var_name :: rest =>
      i <- lookup_var vars var_name ;;
      indices <- lookup_vars vars rest ;;
      ret (i :: indices)
  end.

(** [Circuit.transient_simulation] *)
Definition transient_simulation (fuel : nat) (start_record_time end_ : Q)
    (var_list : list pyname) (time_step : option Q) (options : string)
    (max_iter : nat) : DM (list Q * list (list K)) :=
  modify (fun s => set_time_stamps (set_start_record_time (set_t s 0) start_record_time) []) ;;
  (* default to collecting 1024 points *)
  let time_step :=
    match time_step with
    | None => (end_ - start_record_time) / 1024
    | Some dt => dt
    end in
  s <- get ;;
  let variable_names := variable_names_dict (circuit_components s) in
  modify (fun s => set_var_list_index s []) ;;
  for_each var_list
    (fun var_name =>
       i <- lookup_var variable_names var_name ;;
       modify (fun s => set_var_list_index s (var_list_index s ++ [i]))) ;;
  modify (fun s => set_results s (repeat [] (length (var_list_index s)))) ;;
  (* set up analysis description *)
  let analysis_description := mkAD Transient time_step (w AnalysisDescription_init) in
  (* initial setup of Ax=b *)
  let num_variables := length (variable_names_list (circuit_components s)) in
  ls <- ILinearSystem_create num_variables options ;;
  modify (fun s => set_linear_system s (Some ls)) ;;
  init_all analysis_description ;;
  let run_time := end_ - 0 in
  continue_transient_simulation fuel run_time (Some time_step) max_iter.

Definition clear_transient_simulation_data : DM unit :=
  modify (fun s => set_results (set_time_stamps s []) (map (fun _ => []) (results s))).

Definition get_transient_simulation_time : DM Q :=
  s <- get ;; ret (t s).

(** [Circuit.get_component_for_modification]: the reference, or [None]. *)
Definition get_component_for_modification (component_name : string) : DM (option nat) :=
  s <- get ;;
  match dict_get pyname_eqb (components_dict (circuit_components s)) (Some component_name) with
  | Some c =>
      put (set_cc s (set_modified (circuit_components s)
                       (modified (circuit_components s) ++ [c]))) ;;
      ret (Some c)
  | None => ret None
  end.

(** [results[i].append(x[var_list_index[i]])] on the local [results] *)
Fixpoint collect_data (x : option (list K)) (var_list_index : list nat)
    (results : list (list K)) : DM (list (list K)) :=
  match results, var_list_index with
  | [], _ => ret []
  | series :: results', i :: indices =>
      v <- x_entry x i ;;
      rest <- collect_data x indices results' ;;
      ret ((series ++ [v]) :: rest)
  | _ :: _, [] => raise (DriverError IndexError)
  end.

(** [for f in freq: ...] *)
Fixpoint ac_sweep_loop (freq : list Q) (analysis_description : AnalysisDescription)
    (var_list_index : list nat) (max_iter : nat) (results : list (list K))
  : DM (list (list K)) :=
  match freq with
  | [] => ret results
  | f :: freq' =>
      (* Update frequency to the value used in the current loop pass,
         and then reapply the element stamps *)
      let analysis_description :=
        mkAD (mode analysis_description) (time_step analysis_description)
             (f * 2 * math_pi) in
      s <- get ;;
      for_each (lc (circuit_components s))
        (fun c => call_update_linear_system c analysis_description) ;;
      (* solve circuit *)
      solve analysis_description max_iter ;;
      ls <- the_linear_system ;;
      (* collect data *)
      results' <- collect_data (x ls) var_list_index results ;;
      ac_sweep_loop freq' analysis_description var_list_index max_iter results'
  end.

(** [Circuit.ac_sweep], from the frequency grid [freq] that
    [numpy.logspace] or [numpy.linspace] returned. *)
Definition ac_sweep (var_list : list pyname) (freq : list Q) (options : string)
    (max_iter : nat) : DM (list Q * list (list K)) :=
  s <- get ;;
  let variable_names := variable_names_dict (circuit_components s) in
  var_list_index <- lookup_vars variable_names var_list ;;
  let results := repeat [] (length var_list_index) in
  (* set up analysis description *)
  freq_0 <- match freq with
            | f0 :: _ => ret f0
            | [] => raise (DriverError IndexError)
            end ;;
  let analysis_description :=
    mkAD AC_Sweep (time_step AnalysisDescription_init) freq_0 in
  (* initial setup of Ax=b *)
  let num_variables := length (variable_names_list (circuit_components s)) in
  ls <- ILinearSystem_create num_variables options ;;
  modify (fun s => set_linear_system s (Some ls)) ;;
  init_all analysis_description ;;
  results' <- ac_sweep_loop freq analysis_description var_list_index max_iter results ;;
  ret (freq, results').
End Transient.

(** ** The real backend: DC and transient analyses *)

(** Run a method of one class on a [component] of that class. *)
Definition as_component {T A} (wrap : T -> component) (m : M cexn T A) (self : T)
  : M cexn component A :=
  fun _ => let '(r, self') := m self in (r, wrap self').

(** A method that leaves [self] as it is. *)
Definition reading {T A} (m : T -> LSM A) : M cexn (T * LinearSystem Q) A :=
  fun s => let '(r, ls') := m (fst s) (snd s) in (r, (fst s, ls')).

(** Run a method of one class on the pair of a [component] and the system. *)
Definition as_stamp {T A} (wrap : T -> component) (m : M cexn (T * LinearSystem Q) A)
    (self : T) : M cexn (component * LinearSystem Q) A :=
  fun s => let '(r, (self', ls')) := m (self, snd s) in (r, (wrap self', ls')).

Section RealBackend.
(** [math.exp] and the solver behind [linear_system.solve()] *)
Variable math_exp : Q -> Q.
Variable numpy_solve : LinearSystem Q -> solved Q.

Definition real_init_linear_system (variable_names : var_dict)
    (d : AnalysisDescription) : M cexn (component * LinearSystem Q) unit :=
  fun s =>
    match fst s with
    | Comp_R r => as_stamp Comp_R (R.init_linear_system variable_names d) r s
    | Comp_VS v =>
        as_stamp Comp_VS (reading (fun v => VS.init_linear_system v variable_names d)) v s
    | Comp_Diode o =>
        as_stamp Comp_Diode
          (reading (fun o => Diode.init_linear_system math_exp o variable_names d)) o s
    | Comp_C c =>
        as_stamp Comp_C (reading (fun c => C.init_linear_system c variable_names d)) c s
    | Comp_L l =>
        as_stamp Comp_L (reading (fun l => L.init_linear_system l variable_names d)) l s
    | Comp_VG g =>
        as_stamp Comp_VG (reading (fun g => VG.init_linear_system g variable_names d)) g s
    end.

Definition real_update_linear_system (variable_names : var_dict)
    (d : AnalysisDescription) : M cexn (component * LinearSystem Q) unit :=
  fun s =>
    match fst s with
    | Comp_R r => as_stamp Comp_R (R.update_linear_system variable_names d) r s
    | Comp_VS v =>
        as_stamp Comp_VS (reading (fun v => VS.update_linear_system v variable_names d)) v s
    | Comp_Diode o =>
        as_stamp Comp_Diode
          (reading (fun o => Diode.update_linear_system math_exp o variable_names d)) o s
    | Comp_C c =>
        as_stamp Comp_C (reading (fun c => C.update_linear_system c variable_names d)) c s
    | Comp_L l =>
        as_stamp Comp_L (reading (fun l => L.update_linear_system l variable_names d)) l s
    | Comp_VG g =>
        as_stamp Comp_VG (reading (fun g => VG.update_linear_system g variable_names d)) g s
    end.

(** [R], [VS] and [VG] inherit the base method, which raises. *)
Definition real_update_state (x : option (list Q)) (variable_names : var_dict)
  : M cexn component unit :=
  fun o =>
    match o with
    | Comp_Diode d => as_component Comp_Diode (Diode.update_state x variable_names) d o
    | Comp_C c => as_component Comp_C (C.update_state x variable_names) c o
    | Comp_L l => as_component Comp_L (L.update_state x variable_names) l o
    | _ => (Raise NotImplemented, o)
    end.

(** Only [Diode] overrides the base method, which returns 0. *)
Definition real_calculate_dc_bias_error (o : component) (x : option (list Q))
    (variable_names : var_dict) : res cexn Q :=
  match o with
  | Comp_Diode d => fst (Diode.calculate_dc_bias_error math_exp d x variable_names tt)
  | _ => Ok 0
  end.

Definition real_backend : Backend Q := {|
  Kzero := 0;
  Kabs := Qabs;
  solver := numpy_solve;
  init_linear_system := real_init_linear_system;
  update_linear_system := real_update_linear_system;
  update_state := real_update_state;
  calculate_dc_bias_error := real_calculate_dc_bias_error
|}.
End RealBackend.

(** ** An exact solver

    Gauss-Jordan elimination over the rationals: what a direct solver
    returns in exact arithmetic. It stands for [numpy.linalg.solve] when
    the model is run on a concrete circuit. *)
Module ExactSolve.
Definition entry (r : list Q) (c : nat) : Q := nth c r 0.

Definition rows_of (ls : LinearSystem Q) : list (list Q) :=
  map (fun r => map (A ls r) (seq 0 (dim ls)) ++ [b ls r]) (seq 0 (dim ls)).

Definition row_scale (k : Q) (r : list Q) : list Q := map (fun a => Qred (k * a)) r.

(** [r - r[col] * p] *)
Definition eliminate (col : nat) (p r : list Q) : list Q :=
  map (fun ac => Qred (fst ac - entry r col * snd ac)) (combine r p).

Fixpoint take_pivot (col : nat) (todo : list (list Q))
  : option (list Q * list (list Q)) :=
  match todo with
  | [] => None
  | r :: rest =>
      if Qeq_bool (entry r col) 0
      then match take_pivot col rest with
           | Some (p, others) => Some (p, r :: others)
           | None => None
           end
      else Some (r, rest)
  end.

Fixpoint gauss_jordan (cols : list nat) (done todo : list (list Q))
  : option (list (list Q)) :=
  match cols with
  | [] => Some done
  | col :: cols' =>
      match take_pivot col todo with
      | None => None
      | Some (p, others) =>
          let p' := row_scale (1 / entry p col) p in
          gauss_jordan cols' (map (eliminate col p') done ++ [p'])
                       (map (eliminate col p') others)
      end
  end.

Definition solve (ls : LinearSystem Q) : solved Q :=
  match gauss_jordan (seq 0 (dim ls)) [] (rows_of ls) with
  | Some rows => Solved (map (fun r => entry r (dim ls)) rows)
  | None => SolveFailed None
  end.
End ExactSolve.

(** A stand-in for [math.exp] on concrete runs: the Taylor polynomial of
    degree 4. *)
Definition exp_taylor4 (v : Q) : Q :=
  1 + v + v * v / 2 + v * v * v / 6 + v * v * v * v / 24.

Definition demo_backend : Backend Q := real_backend exp_taylor4 ExactSolve.solve.

(** ** Concrete circuits *)

Definition mk_R (node1 node2 : string) (value : Q) (name : pyname) : component :=
  Comp_R (R.mk (IComponent.mk (NName node1) (NName node2) name) value None).
Definition mk_VS (node1 node2 : string) (value : Q) (name : pyname) : component :=
  Comp_VS (VS.mk (IComponent.mk (NName node1) (NName node2) name) value None false).
Definition mk_VG (node1 node2 : string) (value : Q) (name : pyname) : component :=
  Comp_VG (VG.mk (IComponent.mk (NName node1) (NName node2) name) value None).
Definition mk_Diode (node1 node2 : string) (i0 m v0 : Q) (name : pyname) : component :=
  Comp_Diode (Diode.mk (IComponent.mk (NName node1) (NName node2) name) v0 i0 m None None 0).
Definition mk_C (node1 node2 : string) (value : Q) (name : pyname) : component :=
  Comp_C (C.mk (IComponent.mk (NName node1) (NName node2) name) value None 0 0).
Definition mk_L (node1 node2 : string) (value : Q) (name : pyname) : component :=
  Comp_L (L.mk (IComponent.mk (NName node1) (NName node2) name) value None 0 0).

(** [R vcc v_out 1k; R v_out gnd 1k; vcc = 2.5V] *)
Definition divider : list component :=
  [mk_R "vcc" "v_out" 1000 None; mk_R "v_out" "gnd" 1000 None].
Definition divider_constants : constants :=
  [(NName "vcc"%string, 5 # 2); (NName "gnd"%string, 0)].

(** An inductor between the fixed voltage 5 and the node [a]. *)
Definition anchored_inductor : L.t :=
  L.mk (IComponent.mk (NVal 5) (NName "a") (Some "L1"%string)) (1 # 1000)
       (Some "L1.current"%string) 0 0.
Definition anchored_inductor_vars : var_dict :=
  [(Some "a"%string, 0%nat); (Some "L1.current"%string, 1%nat)].
Definition dc_description : AnalysisDescription :=
  mkAD DC (time_step AnalysisDescription_init) (w AnalysisDescription_init).

(** A voltage source of 3 V whose terminals were fixed at 5 V and 0 V. *)
Definition inconsistent_VS : VS.t :=
  VS.mk (IComponent.mk (NVal 5) (NVal 0) (Some "v"%string)) 3 (Some "v.current"%string) false.

(** A voltage source and a voltage generator across the same two nodes. *)
Definition source_base : IComponent.t :=
  IComponent.mk (NName "a") (NName "b") (Some "v"%string).
Definition source_vars : var_dict :=
  [(Some "a"%string, 0%nat); (Some "b"%string, 1%nat); (Some "v.current"%string, 2%nat)].
Definition live_VS : VS.t := VS.mk source_base 1 (Some "v.current"%string) false.
Definition a_VG : VG.t := VG.mk source_base 1 (Some "v.current"%string).

(** ** Editing a resistor *)

(** The host assigns a new resistance and calls [update_linear_system],
    once for each value of the list. *)
Fixpoint restamp_sequence (variable_names : var_dict) (d : AnalysisDescription)
    (values : list Q) : M cexn (R.t * LinearSystem Q) unit :=
  match values with
  | [] => ret tt
  | v :: rest =>
      modify (fun s => (R.set_value (fst s) v, snd s)) ;;
      R.update_linear_system variable_names d ;;
      restamp_sequence variable_names d rest
  end.

Definition terminal_in_range (n : nat) (v : terminal) : Prop :=
  match v with TVar i => (i < n)%nat | TConst _ => True end.

Definition ind (c : bool) : Q := if c then 1 else 0.

(** The coefficient of [1/R] that a resistor between [v1] and [v2]
    contributes to [A[r,c]] and to [b[r]]. *)
Definition R_pattern_A (v1 v2 : terminal) (r c : nat) : Q :=
  match v1, v2 with
  | TVar i1, TVar i2 =>
      ind ((r =? i1)%nat && (c =? i1)%nat) - ind ((r =? i1)%nat && (c =? i2)%nat)
      + ind ((r =? i2)%nat && (c =? i2)%nat) - ind ((r =? i2)%nat && (c =? i1)%nat)
  | TVar i1, TConst _ => ind ((r =? i1)%nat && (c =? i1)%nat)
  | TConst _, TVar i2 => ind ((r =? i2)%nat && (c =? i2)%nat)
  | TConst _, TConst _ => 0
  end.
Definition R_pattern_b (v1 v2 : terminal) (r : nat) : Q :=
  match v1, v2 with
  | TVar i1, TConst c2 => ind (r =? i1)%nat * c2
  | TConst c1, TVar i2 => ind (r =? i2)%nat * c1
  | _, _ => 0
  end.

(** A resistor between the nodes [a] and [c], edited twice. *)
Definition edited_resistor : R.t :=
  R.mk (IComponent.mk (NName "a") (NName "c") (Some "r"%string)) 1000 None.
Definition edited_resistor_vars : var_dict :=
  [(Some "a"%string, 0%nat); (Some "c"%string, 1%nat)].

(** A circuit with one component of each class. *)
Definition mixed_circuit : list component :=
  [ mk_VS "n1" "n2" 2 (Some "vs"%string);
    mk_R "vcc" "n1" 100 None;
    mk_Diode "n2" "n3" (1 # 100000) 3 (1 # 2) (Some "d"%string);
    mk_C "n3" "gnd" (1 # 1000000) None;
    mk_L "n3" "n4" (1 # 1000) (Some "L1"%string);
    mk_VG "n4" "gnd" 1 (Some "vg"%string) ].
Definition mixed_constants : constants :=
  [(NName "vcc"%string, 5); (NName "gnd"%string, 0)].


(** ** Runs of the Newton loop *)

Section NewtonRuns.
Context {K : Type} `{Backend K}.

(** What follows a failed test: every nonlinear component is restamped
    and the system is solved again. *)
Definition newton_round (d : AnalysisDescription) : M exn (Circuit K) unit :=
  restamp_non_linear d ;; linear_system_solve.

(** [newton_run d k s s']: from [s], the convergence test fails [k] times
    in a row, each failure is followed by a round that returns, and the
    circuit is then in state [s']. *)
Inductive newton_run (d : AnalysisDescription) : nat -> Circuit K -> Circuit K -> Prop :=
| newton_run_O s : newton_run d 0 s s
| newton_run_S k s s1 s2 s3 :
    error_test s = (Ok false, s1) ->
    newton_round d s1 = (Ok tt, s2) ->
    newton_run d k s2 s3 ->
    newton_run d (S k) s s3.

(** The calls of one pass of the loop whose test fails. *)
Definition round_events (d : AnalysisDescription) (non_linear : list nat) : list event :=
  [EvErrorTest false]
  ++ flat_map (fun c => [EvUpdateState c; EvUpdateLinearSystem c d]) non_linear
  ++ [EvLinearSolve].

End NewtonRuns.

(** The voltage divider, assembled, and after a DC analysis. *)
Definition divider_circuit : Circuit Q :=
  snd (Circuit_init 5 divider divider_constants).
Definition divider_solved : Circuit Q :=
  snd (@dc_analysis Q demo_backend "dense" 40 divider_circuit).
Definition divider_system : LinearSystem Q :=
  match linear_system divider_solved with
  | Some ls => ls
  | None => create_real 0
  end.


(** ** Invariants and frames *)

(** [m] keeps the property [P] of the state, whatever it returns. *)
Definition preserves {E S A} (P : S -> Prop) (m : M E S A) : Prop :=
  forall s, P s -> P (snd (m s)).

(** [m] does not raise [e0]. *)
Definition never_raises {E S A} (e0 : E) (m : M E S A) : Prop :=
  forall s, fst (m s) <> Raise e0.

(** The table built so far: the keys differ and the values count up from
    0 in insertion order. *)
Definition table_ok (d : var_dict) : Prop :=
  NoDup (map fst d) /\ map snd d = seq 0 (length d).

(** A property of the circuit that does not read the objects in
    [all_components], the linear system or the trace. *)
Definition driver_frame {K} (P : Circuit K -> Prop) : Prop :=
  (forall s v, P s -> P (set_cc s (set_all_components (circuit_components s) v)))
  /\ (forall s v, P s -> P (set_linear_system s v))
  /\ (forall s v, P s -> P (set_trace s v)).

(** Resolving constants touches the components and the constants only. *)
Definition resolve_frame (P : CircuitComponents -> Prop) : Prop :=
  forall cc all vc, P cc -> P (set_voltage_constants (set_all_components cc all) vc).


(** The two exceptions that only the loops of the drivers raise. *)
Definition loop_marker (e0 : exn) : Prop := e0 = NonConvergence \/ e0 = OutOfFuel.

(** A property that reads only the clock and the recorded time stamps. *)
Definition clock_frame {K} (P : Circuit K -> Prop) : Prop :=
  (forall s v, P s -> P (set_cc s v))
  /\ (forall s v, P s -> P (set_linear_system s v))
  /\ (forall s v, P s -> P (set_trace s v))
  /\ (forall s v, P s -> P (set_results s v)).

(** Enough passes for the transient loop to cover [run_time] in steps of
    [dt]. *)
Definition transient_fuel (run_time dt : Q) : nat :=
  Z.to_nat (Qceiling (run_time / dt)) + 1.

(** Since a call began with the time stamps [ts0], only times in
    [[srt, end_time)] were appended, and [start_record_time] is still
    [srt]. *)
Definition recorded_within {K} (srt end_time : Q) (ts0 : list Q) (s : Circuit K) : Prop :=
  start_record_time s = srt
  /\ exists appended,
       time_stamps s = ts0 ++ appended
       /\ Forall (fun ts => srt <= ts /\ ts < end_time) appended.

(** The divider with a capacitor across its lower resistor:
    [R vcc v_out 1k; R v_out gnd 1k; C v_out gnd 30uF; vcc = 1V]. *)
Definition rc_circuit : list component :=
  [ mk_R "vcc" "v_out" 1000 None;
    mk_R "v_out" "gnd" 1000 None;
    mk_C "v_out" "gnd" (30 # 1000000) (Some "c1"%string) ].
Definition rc_constants : constants :=
  [(NName "vcc"%string, 1); (NName "gnd"%string, 0)].
Definition rc_assembled : Circuit Q := snd (Circuit_init 5 rc_circuit rc_constants).

(** The first run of the RC circuit: from 0 to 1 in steps of 0.3. *)
Definition rc_first_run : res exn (list Q * list (list Q)) * Circuit Q :=
  @transient_simulation Q demo_backend 5 0 1 [Some "v_out"%string] (Some (3 # 10))
    "dense" 40 rc_assembled.

(** [m] only appends to the trace, and only events that satisfy [ok]. *)
Definition logs_only {K A} (ok : event -> Prop) (m : M exn (Circuit K) A) : Prop :=
  forall s, exists evs, trace (snd (m s)) = trace s ++ evs /\ Forall ok evs.

(** What an AC sweep over the grid [freq] may log: the first stamping pass
    with [w = freq[0]], every restamp with [w = 2 pi f] for an [f] of
    the grid. *)
Definition ac_event_ok (freq : list Q) (e : event) : Prop :=
  match e with
  | EvInitLinearSystem _ d => mode d = AC_Sweep /\ Some (w d) = hd_error freq
  | EvUpdateLinearSystem _ d =>
      mode d = AC_Sweep /\ exists f, In f freq /\ w d = f * 2 * math_pi
  | _ => True
  end.

(** [R vcc v1 0.1; D d v1 gnd i0=1e-5 m=3 v0=0.5; vcc = 5V], assembled and
    stamped for a DC analysis. *)
Definition diode_circuit : list component :=
  [ mk_R "vcc" "v1" (1 # 10) None;
    mk_Diode "v1" "gnd" (1 # 100000) 3 (1 # 2) (Some "d"%string) ].
Definition diode_constants : constants :=
  [(NName "vcc"%string, 5); (NName "gnd"%string, 0)].
Definition diode_assembled : Circuit Q := snd (Circuit_init 5 diode_circuit diode_constants).
Definition diode_stamped : Circuit Q :=
  snd ((ls <- @ILinearSystem_create Q demo_backend 3 "dense" ;;
        modify (fun s => set_linear_system s (Some ls)) ;;
        @init_all Q demo_backend dc_description) diode_assembled).

(** The description that [ac_sweep] hands to the first stamping pass when
    the grid starts at 10 Hz. *)
Definition first_pass_description : AnalysisDescription :=
  mkAD AC_Sweep (time_step AnalysisDescription_init) 10.

(** [R vcc a 1k; R b c 1k; vcc = 5V]: no diode, and the nodes [b] and [c]
    are tied to nothing else, so the system is singular. Assembled, and
    stamped for a DC analysis. *)
Definition floating_pair : list component :=
  [mk_R "vcc" "a" 1000 None; mk_R "b" "c" 1000 None].
Definition floating_pair_constants : constants :=
  [(NName "vcc"%string, 5); (NName "gnd"%string, 0)].
Definition floating_pair_circuit : Circuit Q :=
  snd (Circuit_init 5 floating_pair floating_pair_constants).
Definition floating_pair_stamped : Circuit Q :=
  snd ((ls <- @ILinearSystem_create Q demo_backend 3 "dense" ;;
        modify (fun s => set_linear_system s (Some ls)) ;;
        @init_all Q demo_backend dc_description) floating_pair_circuit).

From Stdlib Require DecimalNat.

(** ** util.py: interpolate *)

Inductive util_exn : Type :=
| LengthsDiffer       (* Exception("interpolate(...) called using a __value list that differs ...") *)
| ListIndexError      (* IndexError: list index out of range *)
| DivisionByZero.     (* ZeroDivisionError *)

(** [l[i]] on a Python list: a negative index counts from the end. *)
Definition py_getitem {S} (l : list Q) (i : Z) : M util_exn S Q :=
  let n := Z.of_nat (length l) in
  let j := (if i <? 0 then i + n else i)%Z in
  if ((0 <=? j) && (j <? n))%Z then ret (nth (Z.to_nat j) l 0)
  else raise ListIndexError.

(** [a / b] *)
Definition py_div {S} (a b : Q) : M util_exn S Q :=
  if Qeq_bool b 0 then raise DivisionByZero else ret (a / b).

(** The loop of [bisect.bisect_left]:
    [while lo < hi: mid = (lo + hi) // 2;
       if a[mid] < x: lo = mid + 1 else: hi = mid]. *)
Fixpoint bisect_loop (fuel : nat) (a : list Q) (x : Q) (lo hi : nat) : nat :=
  match fuel with
  | O => lo
  | S fuel' =>
      if (lo <? hi)%nat then
        let mid := ((lo + hi) / 2)%nat in
        if Qltb (nth mid a 0) x then bisect_loop fuel' a x (S mid) hi
        else bisect_loop fuel' a x lo mid
      else lo
  end.

(** [bisect.bisect_left(a, x)]; the interval halves on each pass, so
    [len(a) + 1] passes are more than the loop makes. *)
Definition bisect_left (a : list Q) (x : Q) : nat :=
  bisect_loop (S (length a)) a x 0 (length a).

(** [interpolate(value, value_list, data_list)]; [None] stands for falling
    off the end of the [if]/[elif] chain. *)
Definition interpolate {S} (value : Q) (value_list data_list : list Q)
  : M util_exn S (option Q) :=
  if negb (length value_list =? length data_list)%nat then raise LengthsDiffer else
  let index_right := bisect_left value_list value in
  if (0 <? index_right)%nat && (index_right <? length value_list)%nat then
    (* standard case - value is in the middle of the list *)
    let index_right := Z.of_nat index_right in
    let index_left := (index_right - 1)%Z in
    v_l <- py_getitem value_list index_left ;;
    v_r <- py_getitem value_list index_right ;;
    v_l' <- py_getitem value_list index_left ;;
    percent <- py_div (value - v_l) (v_r - v_l') ;;
    d_l <- py_getitem data_list index_left ;;
    d_r <- py_getitem data_list index_right ;;
    d_l' <- py_getitem data_list index_left ;;
    ret (Some (d_l + percent * (d_r - d_l')))
  else if (index_right =? 0)%nat then
    (* value is to the left of the list *)
    v_0 <- py_getitem value_list 0 ;;
    v_1 <- py_getitem value_list 1 ;;
    v_0' <- py_getitem value_list 0 ;;
    percent <- py_div (v_0 - value) (v_1 - v_0') ;;
    d_0 <- py_getitem data_list 0 ;;
    d_1 <- py_getitem data_list 1 ;;
    d_0' <- py_getitem data_list 0 ;;
    ret (Some (d_0 - percent * (d_1 - d_0')))
  else if (index_right =? length value_list)%nat then
    (* value is to the right of the list *)
    let last_index := (Z.of_nat (length value_list) - 1)%Z in
    v_n <- py_getitem value_list last_index ;;
    v_n' <- py_getitem value_list last_index ;;
    v_m <- py_getitem value_list (last_index - 1) ;;
    percent <- py_div (value - v_n) (v_n' - v_m) ;;
    d_n <- py_getitem data_list last_index ;;
    d_n' <- py_getitem data_list last_index ;;
    d_m <- py_getitem data_list (last_index - 1) ;;
    ret (Some (d_n + percent * (d_n' - d_m)))
  else ret None.

(** The sample lists of [test_interpolate]. *)
Definition sample_values : list Q := [1; 2; 3; 4].
Definition sample_data : list Q := [1; 5; 11; 19].

(** ** Invariants of the recorded data *)

(** The recorded time stamps increase and lie before the current time. *)
Definition stamps_increase {K} (s : Circuit K) : Prop :=
  StronglySorted Qlt (time_stamps s) /\ Forall (fun ts => ts < t s) (time_stamps s).

(** What [transient_simulation] uses as time step. *)
Definition effective_time_step (start_record_time end_ : Q) (time_step : option Q) : Q :=
  match time_step with
  | None => (end_ - start_record_time) / 1024
  | Some dt => dt
  end.

(** There is one recorded series per recorded variable, and every series
    has one sample per time stamp. *)
Definition aligned {K} (s : Circuit K) : Prop :=
  length (results s) = length (var_list_index s)
  /\ Forall (fun series => length series = length (time_stamps s)) (results s).

(** While a sample is recorded: the series before position [j] have
    received theirs. *)
Definition recording {K} (vli : list nat) (ts : list Q) (j : nat) (s : Circuit K) : Prop :=
  var_list_index s = vli /\ time_stamps s = ts
  /\ length (results s) = length vli
  /\ forall i series, nth_error (results s) i = Some series ->
       length series = if (i <? j)%nat then length ts else (length ts - 1)%nat.

(** ** Constant propagation *)

(** A voltage source whose first terminal is still a name: the only
    sources that [resolve_constants] can still change. *)
Definition unresolved_VS (c : component) : bool :=
  match c with
  | Comp_VS v => is_str (IComponent.node1 (VS.base v))
  | _ => false
  end.

Definition unresolved_count (l : list component) : nat := length (filter unresolved_VS l).

(** [VS a gnd 5V; VS b a 2V; R b gnd 1k; gnd = 0]: two sources in a chain. *)
Definition chained_sources : list component :=
  [ mk_VS "b" "a" 2 None;
    mk_VS "a" "gnd" 5 None;
    mk_R "b" "gnd" 1000 None ].
Definition chained_constants : constants := [(NName "gnd"%string, 0)].

(** ** Component names *)

Inductive name_exn : Type :=
| StartsWithDollar    (* Exception("The name ... is illegal because it starts with a '$'") *)
| ContainsDot.        (* Exception("The name ... is illegal because it contains a '.'") *)

(** [s.find(c)] for a single character: the first position, or -1. *)
Fixpoint find_char_from (c : ascii) (s : string) (i : Z) : Z :=
  match s with
  | EmptyString => (-1)%Z
  | String a s' => if Ascii.eqb a c then i else find_char_from c s' (i + 1)%Z
  end.
Definition py_find (s : string) (c : ascii) : Z := find_char_from c s 0.

(** [IComponent.check_name] *)
Definition check_name (name : string) : res name_exn unit :=
  if String.prefix "$" name then Raise StartsWithDollar
  else if (0 <=? py_find name ".")%Z then Raise ContainsDot
  else Ok tt.

(** The check made by [IComponent.__init__]: a name that is not [None]
    goes through [check_name]. *)
Definition init_checks_name (name : pyname) : res name_exn unit :=
  match name with
  | None => Ok tt
  | Some n => check_name n
  end.


(** Two resistors that were both named [r1]. *)
Definition twice_r1 : list component :=
  [mk_R "a" "b" 1000 (Some "r1"%string); mk_R "b" "gnd" 1000 (Some "r1"%string)].
(** A named and two unnamed resistors. *)
Definition one_named : list component :=
  [mk_R "a" "b" 1000 None; mk_R "b" "c" 1000 (Some "r1"%string); mk_R "c" "gnd" 1000 None].


(** ** Stamps that keep to one row *)



(** A capacitor between the fixed voltage 5 and the node [a]. *)
Definition anchored_capacitor : C.t :=
  C.mk (IComponent.mk (NVal 5) (NName "a") (Some "C1"%string)) (1 # 1000000)
       (Some "C1.current"%string) 0 0.
Definition anchored_capacitor_vars : var_dict :=
  [(Some "a"%string, 0%nat); (Some "C1.current"%string, 1%nat)].

(** * Properties *)

(** Keep rational arithmetic folded while programs are run symbolically. *)
#[local] Arguments Qplus : simpl never.
#[local] Arguments Qminus : simpl never.
#[local] Arguments Qmult : simpl never.
#[local] Arguments Qdiv : simpl never.
#[local] Arguments Qopp : simpl never.
#[local] Arguments Qinv : simpl never.
#[local] Arguments Qabs : simpl never.
#[local] Arguments Qle_bool : simpl never.
#[local] Arguments Qeq_bool : simpl never.
#[local] Arguments Qltb : simpl never.

(** ** Comparisons *)

Lemma Qltb_lt a b : Qltb a b = true <-> a < b.
Proof.
  unfold Qltb. rewrite negb_true_iff.
  split; intro H.
  - apply Qnot_le_lt. intro Hle. apply Qle_bool_iff in Hle. congruence.
  - destruct (Qle_bool b a) eqn:E; [|reflexivity].
    apply Qle_bool_iff in E. exfalso. apply (Qlt_not_le _ _ H E).
Qed.

Lemma Qltb_ge a b : Qltb a b = false <-> b <= a.
Proof.
  unfold Qltb. rewrite negb_false_iff. apply Qle_bool_iff.
Qed.


(** ** Writes to the linear system *)

Lemma in_range_true (ls : LinearSystem Q) r :
  (r < dim ls)%nat -> in_range ls r = true.
Proof. intro Hr. unfold in_range. now apply Nat.ltb_lt. Qed.

Lemma A_add_run ls r c v :
  (r < dim ls)%nat -> (c < dim ls)%nat ->
  A_add r c v ls
  = (Ok tt, mkLS (sparse ls) (dim ls) (upd2 (A ls) r c (A ls r c + v)) (b ls) (x ls)).
Proof.
  intros Hr Hc. unfold A_add.
  now rewrite (in_range_true _ _ Hr), (in_range_true _ _ Hc).
Qed.

Lemma A_set_run ls r c v :
  (r < dim ls)%nat -> (c < dim ls)%nat ->
  A_set r c v ls
  = (Ok tt, mkLS (sparse ls) (dim ls) (upd2 (A ls) r c v) (b ls) (x ls)).
Proof.
  intros Hr Hc. unfold A_set.
  now rewrite (in_range_true _ _ Hr), (in_range_true _ _ Hc).
Qed.

Lemma b_add_run ls r v :
  (r < dim ls)%nat ->
  b_add r v ls
  = (Ok tt, mkLS (sparse ls) (dim ls) (A ls) (upd1 (b ls) r (b ls r + v)) (x ls)).
Proof. intros Hr. unfold b_add. now rewrite (in_range_true _ _ Hr). Qed.

Lemma b_set_run ls r v :
  (r < dim ls)%nat ->
  b_set r v ls
  = (Ok tt, mkLS (sparse ls) (dim ls) (A ls) (upd1 (b ls) r v) (x ls)).
Proof. intros Hr. unfold b_set. now rewrite (in_range_true _ _ Hr). Qed.

Lemma var_index_run {S} vars k i (s : S) :
  var_get vars k = Some i -> var_index vars k s = (Ok i, s).
Proof. intro Hk. unfold var_index. now rewrite Hk. Qed.

(** Run a stamping method whose lookups and bounds are known. *)
Ltac run_stamps :=
  repeat (first [ erewrite var_index_run by eassumption
                | rewrite A_set_run by (cbn [dim]; assumption)
                | rewrite A_add_run by (cbn [dim]; assumption)
                | rewrite b_add_run by (cbn [dim]; assumption)
                | rewrite b_set_run by (cbn [dim]; assumption) ];
          cbn [dim A b x sparse fst snd]).

(** ** VS.resolve_constants *)

(** C7. On a [VS] that has its name, [VS.resolve_constants] raises the
    inconsistent-constants error exactly when both terminals hold numbers
    and [|node1 - node2 - value| > 1e-6]; when both hold numbers that agree
    with the value it returns [False] and changes nothing; and while a
    terminal is still a name, that error is not raised. *)
Theorem VS_resolve_constants_consistency (self : VS.t) (vc : constants) :
  IComponent.name (VS.base self) <> None ->
  let node1 := IComponent.node1 (VS.base self) in
  let node2 := IComponent.node2 (VS.base self) in
  let r := VS.resolve_constants (self, vc) in
  (fst r = Raise InconsistentConstants <->
   exists n1 n2, node1 = NVal n1 /\ node2 = NVal n2 /\
                 tol_1e_6 < Qabs (n1 - n2 - VS.value self))
  /\ (forall n1 n2, node1 = NVal n1 -> node2 = NVal n2 ->
      Qabs (n1 - n2 - VS.value self) <= tol_1e_6 ->
      r = (Ok (Some false), (self, vc)))
  /\ (is_str node1 = true \/ is_str node2 = true ->
      fst r <> Raise InconsistentConstants).
Proof.
  destruct self as [[n1 n2 [nm|]] val cvn dis]; intro Hname;
    [clear Hname|exfalso; apply Hname; reflexivity].
  cbv zeta. unfold VS.resolve_constants, bind, get. cbn [fst snd VS.base VS.value
    IComponent.node1 IComponent.node2 IComponent.name VS.current_var_name].
  destruct n1 as [s1|q1]; cbn [is_str negb andb].
  - (* node1 is a name: the check is skipped *)
    assert (Hne : fst (match const_get vc (NName s1) with
                       | Some c1 =>
                           put (VS.mk (IComponent.mk (NVal c1) (NVal (c1 - val)) (Some nm))
                                      val cvn true,
                                const_set vc n2 (c1 - val)) ;; ret (Some true)
                       | None =>
                           match const_get vc n2 with
                           | Some c2 =>
                               put (VS.mk (IComponent.mk (NVal (c2 + val)) (NVal c2) (Some nm))
                                          val cvn true,
                                    const_set vc (NName s1) (c2 + val)) ;; ret (Some true)
                           | None => ret None
                           end
                       end (VS.mk (IComponent.mk (NName s1) n2 (Some nm)) val cvn dis, vc))
                  <> Raise InconsistentConstants).
    { destruct (const_get vc (NName s1)); [cbn; discriminate|].
      destruct (const_get vc n2); cbn; discriminate. }
    split; [split|split].
    + intro Hr. contradiction.
    + intros (a & c & Ha & _). discriminate.
    + intros a c Ha. discriminate.
    + intros _. exact Hne.
  - (* node1 is a number *)
    destruct n2 as [s2|q2]; cbn.
    + split; [split|split].
      * discriminate.
      * intros (a & c & _ & Hc & _). discriminate.
      * intros a c _ Hc. discriminate.
      * intros _. discriminate.
    + destruct (Qltb tol_1e_6 (Qabs (q1 - q2 - val))) eqn:Ht; cbn.
      * apply Qltb_lt in Ht.
        split; [split|split].
        -- intros _. now exists q1, q2.
        -- intros _. reflexivity.
        -- intros a c Ha Hc Hle. injection Ha as <-. injection Hc as <-.
           exfalso. apply (Qlt_not_le _ _ Ht Hle).
        -- intros [Hs|Hs]; discriminate.
      * apply Qltb_ge in Ht.
        split; [split|split].
        -- discriminate.
        -- intros (a & c & Ha & Hc & Hlt). injection Ha as <-. injection Hc as <-.
           exfalso. apply (Qlt_not_le _ _ Hlt Ht).
        -- intros a c Ha Hc Hle. reflexivity.
        -- discriminate.
Qed.

Lemma VS_resolve_constants_consistency_witness :
  let self := inconsistent_VS in
  let vc := divider_constants in
  let node1 := IComponent.node1 (VS.base self) in
  let node2 := IComponent.node2 (VS.base self) in
  let r := VS.resolve_constants (self, vc) in
  (fst r = Raise InconsistentConstants <->
   exists n1 n2, node1 = NVal n1 /\ node2 = NVal n2 /\
                 tol_1e_6 < Qabs (n1 - n2 - VS.value self))
  /\ (forall n1 n2, node1 = NVal n1 -> node2 = NVal n2 ->
      Qabs (n1 - n2 - VS.value self) <= tol_1e_6 ->
      r = (Ok (Some false), (self, vc)))
  /\ (is_str node1 = true \/ is_str node2 = true ->
      fst r <> Raise InconsistentConstants).
Proof.
  apply (VS_resolve_constants_consistency inconsistent_VS divider_constants).
  discriminate.
Defined.

(** The inconsistent source above does raise. *)
Example inconsistent_VS_raises :
  fst (VS.resolve_constants (inconsistent_VS, divider_constants))
  = Raise InconsistentConstants.
Proof. reflexivity. Qed.

(** ** The inductor in DC *)

(** C3. The DC stamp of an inductor with a terminal at a fixed voltage
    does not keep to its own row: with node1 fixed at 5, node [a] at
    index 0 and the inductor's current at index 1, [init_linear_system]
    on a fresh system leaves [b[0] = -5], and each later
    [update_linear_system] subtracts 5 from [b[0]] again. *)
Theorem L_dc_stamp_writes_other_rows_of_b :
  let ls0 := create_real 2 in
  let after_init :=
    L.init_linear_system anchored_inductor anchored_inductor_vars dc_description ls0 in
  let after_update :=
    L.update_linear_system anchored_inductor anchored_inductor_vars dc_description
      (snd after_init) in
  var_get anchored_inductor_vars (L.current_var_name anchored_inductor) = Some 1%nat
  /\ fst after_init = Ok tt
  /\ b (snd after_init) 0%nat == -5
  /\ ~ b (snd after_init) 0%nat == b ls0 0%nat
  /\ fst after_update = Ok tt
  /\ b (snd after_update) 0%nat == -10.
Proof.
  vm_compute. repeat split; try reflexivity; intro Hz; discriminate Hz.
Qed.

(** With both terminals unknowns the DC stamp leaves [b] outside row [i]
    alone (and row [i] at 0). *)
Lemma L_dc_stamp_b_both_variable (self : L.t) vars d ls n1 n2 v1 v2 i :
  mode d = DC ->
  IComponent.node1 (L.base self) = NName n1 ->
  IComponent.node2 (L.base self) = NName n2 ->
  var_get vars (Some n1) = Some v1 ->
  var_get vars (Some n2) = Some v2 ->
  var_get vars (L.current_var_name self) = Some i ->
  (v1 < dim ls)%nat -> (v2 < dim ls)%nat -> (i < dim ls)%nat ->
  let r := L.apply_component_only_stamps self vars d ls in
  fst r = Ok tt /\ forall row, b (snd r) row = if (row =? i)%nat then 0 else b ls row.
Proof.
  intros Hm H1 H2 Hv1 Hv2 Hi L1 L2 Li.
  unfold L.apply_component_only_stamps, IComponent.read_node1_and_node2_as_indices,
    IComponent.read_node, bind, ret.
  rewrite H1, H2, Hm. run_stamps.
  split; [reflexivity|]. intro row. unfold upd1. reflexivity.
Qed.

(** ** VS and VG *)

Lemma VS_init_run (self : VS.t) vars d ls n1 n2 v1 v2 i :
  VS.disabled self = false ->
  IComponent.node1 (VS.base self) = NName n1 ->
  IComponent.node2 (VS.base self) = NName n2 ->
  var_get vars (Some n1) = Some v1 ->
  var_get vars (Some n2) = Some v2 ->
  var_get vars (VS.current_var_name self) = Some i ->
  (v1 < dim ls)%nat -> (v2 < dim ls)%nat -> (i < dim ls)%nat ->
  VS.init_linear_system self vars d ls
  = (Ok tt,
     mkLS (sparse ls) (dim ls)
          (upd2 (upd2 (upd2 (upd2 (A ls) v1 i (A ls v1 i + -1))
                        v2 i (upd2 (A ls) v1 i (A ls v1 i + -1) v2 i + 1))
                   i v1 1) i v2 (-1))
          (upd1 (b ls) i (VS.value self)) (x ls)).
Proof.
  intros Hd H1 H2 Hv1 Hv2 Hi L1 L2 Li.
  unfold VS.init_linear_system, node_index, bind, ret.
  rewrite Hd, H1, H2. run_stamps. reflexivity.
Qed.

Lemma VG_init_run (self : VG.t) vars d ls n1 n2 v1 v2 i :
  IComponent.node1 (VG.base self) = NName n1 ->
  IComponent.node2 (VG.base self) = NName n2 ->
  var_get vars (Some n1) = Some v1 ->
  var_get vars (Some n2) = Some v2 ->
  var_get vars (VG.current_var_name self) = Some i ->
  (v1 < dim ls)%nat -> (v2 < dim ls)%nat -> (i < dim ls)%nat ->
  let A1 := upd2 (upd2 (A ls) v1 i (A ls v1 i + -1))
                 v2 i (upd2 (A ls) v1 i (A ls v1 i + -1) v2 i + 1) in
  VG.init_linear_system self vars d ls
  = (Ok tt,
     mkLS (sparse ls) (dim ls)
          (upd2 (upd2 (upd2 (upd2 A1 i v1 0) i v2 0) i v1 1) i v2 (-1))
          (upd1 (upd1 (b ls) i 0) i (upd1 (b ls) i 0 i + VG.value self)) (x ls)).
Proof.
  intros H1 H2 Hv1 Hv2 Hi L1 L2 Li.
  unfold VG.init_linear_system, VG.apply_component_only_stamps,
    IComponent.read_node1_and_node2_as_indices, IComponent.read_node, bind, ret.
  rewrite H1, H2. run_stamps. reflexivity.
Qed.

(** C5, as stated, fails: on a fresh system with [a], [b] and the current at
    indices 0, 1 and 2, both [VS] and [VG] leave [A[0,2] = -1], so the
    [VG] entry is not the negation of the [VS] entry. *)
Lemma VG_current_balance_not_negated_VS :
  let vs := VS.init_linear_system live_VS source_vars dc_description (create_real 3) in
  let vg := VG.init_linear_system a_VG source_vars dc_description (create_real 3) in
  fst vs = Ok tt /\ fst vg = Ok tt /\
  A (snd vs) 0%nat 2%nat == -1 /\ A (snd vg) 0%nat 2%nat == -1 /\
  ~ (A (snd vg) 0%nat 2%nat == - A (snd vs) 0%nat 2%nat).
Proof.
  vm_compute. repeat split; try reflexivity; intro Hz; discriminate Hz.
Qed.

(** C5, amended. A [VG] between two unknowns stamps the matrix as a live
    [VS] on the same nodes does: after [init_linear_system] from the same
    system every entry of [A] is the same, and when [v1], [v2] and [i] are
    distinct both have added [-1] to [A[v1,i]] and [+1] to [A[v2,i]]. *)
Theorem VG_current_balance_same_as_VS (vs : VS.t) (vg : VG.t) vars d ls n1 n2 v1 v2 i :
  VS.disabled vs = false ->
  VS.base vs = VG.base vg ->
  VS.current_var_name vs = VG.current_var_name vg ->
  IComponent.node1 (VG.base vg) = NName n1 ->
  IComponent.node2 (VG.base vg) = NName n2 ->
  var_get vars (Some n1) = Some v1 ->
  var_get vars (Some n2) = Some v2 ->
  var_get vars (VG.current_var_name vg) = Some i ->
  (v1 < dim ls)%nat -> (v2 < dim ls)%nat -> (i < dim ls)%nat ->
  let rs := VS.init_linear_system vs vars d ls in
  let rg := VG.init_linear_system vg vars d ls in
  fst rs = Ok tt /\ fst rg = Ok tt
  /\ (forall r c, A (snd rg) r c = A (snd rs) r c)
  /\ (v1 <> v2 -> i <> v1 -> i <> v2 ->
      A (snd rg) v1 i == A ls v1 i - 1 /\ A (snd rs) v1 i == A ls v1 i - 1 /\
      A (snd rg) v2 i == A ls v2 i + 1 /\ A (snd rs) v2 i == A ls v2 i + 1).
Proof.
  intros Hd Hb Hc H1 H2 Hv1 Hv2 Hi L1 L2 Li rs rg.
  subst rs rg.
  rewrite (VS_init_run vs vars d ls n1 n2 v1 v2 i); try assumption;
    try (rewrite Hb; assumption); try (rewrite Hc; assumption).
  rewrite (VG_init_run vg vars d ls n1 n2 v1 v2 i); try assumption.
  cbn [fst snd A].
  split; [reflexivity|]. split; [reflexivity|]. split.
  - intros r c. unfold upd2.
    destruct ((r =? i)%nat && (c =? v2)%nat); [reflexivity|].
    destruct ((r =? i)%nat && (c =? v1)%nat); reflexivity.
  - intros N12 Ni1 Ni2. unfold upd2.
    rewrite !Nat.eqb_refl.
    apply Nat.eqb_neq in N12, Ni1, Ni2.
    assert (N21 : (v2 =? v1)%nat = false) by (rewrite Nat.eqb_sym; exact N12).
    assert (N1i : (v1 =? i)%nat = false) by (rewrite Nat.eqb_sym; exact Ni1).
    assert (N2i : (v2 =? i)%nat = false) by (rewrite Nat.eqb_sym; exact Ni2).
    rewrite ?N12, ?N21, ?N1i, ?N2i, ?Ni1, ?Ni2. cbn [andb].
    repeat split; ring.
Qed.

Lemma VG_current_balance_same_as_VS_witness :
  let rs := VS.init_linear_system live_VS source_vars dc_description (create_real 3) in
  let rg := VG.init_linear_system a_VG source_vars dc_description (create_real 3) in
  fst rs = Ok tt /\ fst rg = Ok tt
  /\ (forall r c, A (snd rg) r c = A (snd rs) r c)
  /\ (0%nat <> 1%nat -> 2%nat <> 0%nat -> 2%nat <> 1%nat ->
      A (snd rg) 0%nat 2%nat == A (create_real 3) 0%nat 2%nat - 1 /\
      A (snd rs) 0%nat 2%nat == A (create_real 3) 0%nat 2%nat - 1 /\
      A (snd rg) 1%nat 2%nat == A (create_real 3) 1%nat 2%nat + 1 /\
      A (snd rs) 1%nat 2%nat == A (create_real 3) 1%nat 2%nat + 1).
Proof.
  apply (VG_current_balance_same_as_VS live_VS a_VG source_vars dc_description
           (create_real 3) "a" "b" 0 1 2);
    try reflexivity; cbn; lia.
Defined.

(** ** The resistor: partial undo *)

Lemma read_nodes_any_state {S} (base : IComponent.t) vars v1 v2 (s : S) :
  IComponent.read_node1_and_node2_as_indices base vars tt = (Ok (v1, v2), tt) ->
  IComponent.read_node1_and_node2_as_indices base vars s = (Ok (v1, v2), s).
Proof.
  unfold IComponent.read_node1_and_node2_as_indices, IComponent.read_node,
    var_index, bind, ret, raise.
  destruct (IComponent.node1 base) as [s1|q1], (IComponent.node2 base) as [s2|q2];
    repeat match goal with
           | |- context [var_get vars ?k] => destruct (var_get vars k)
           end;
    intro Hr; inversion Hr; reflexivity.
Qed.

Lemma Qeq_bool_false (a c : Q) : ~ a == c -> Qeq_bool a c = false.
Proof.
  intro Hne. destruct (Qeq_bool a c) eqn:E; [|reflexivity].
  apply Qeq_bool_iff in E. contradiction.
Qed.

(** Decide every comparison of indices in the goal. *)
Ltac case_indices :=
  repeat match goal with
         | |- context [(?a =? ?c)%nat] => destruct (Nat.eqb_spec a c); subst
         end;
  cbn [andb].

(** What one call of [apply_element_stamps] adds to the system. *)
Lemma R_apply_element_stamps_adds (self : R.t) vars (partial_undo : bool)
    (ls : LinearSystem Q) v1 v2 (value modifier : Q) :
  (if partial_undo
   then match R.old_value self with Some v => Some (v, -1) | None => None end
   else Some (R.value self, 1)) = Some (value, modifier) ->
  ~ value == 0 ->
  IComponent.read_node1_and_node2_as_indices (R.base self) vars tt = (Ok (v1, v2), tt) ->
  terminal_in_range (dim ls) v1 -> terminal_in_range (dim ls) v2 ->
  let r := R.apply_element_stamps self vars partial_undo ls in
  fst r = Ok tt /\ dim (snd r) = dim ls
  /\ (forall row col,
         A (snd r) row col == A ls row col + modifier * (1 / value) * R_pattern_A v1 v2 row col)
  /\ (forall row,
         b (snd r) row == b ls row + modifier * (1 / value) * R_pattern_b v1 v2 row).
Proof.
  intros Hvm Hnz Hread R1 R2.
  unfold R.apply_element_stamps.
  destruct partial_undo;
    [destruct (R.old_value self) as [ov|]; [|discriminate]|];
    injection Hvm as <- <-;
    unfold bind, ret; cbn beta iota;
    rewrite (Qeq_bool_false _ _ Hnz);
    rewrite (read_nodes_any_state _ _ _ _ ls Hread);
    destruct v1 as [i1|c1], v2 as [i2|c2]; cbn in R1, R2;
    run_stamps;
    (split; [reflexivity|]); (split; [reflexivity|]);
    unfold R_pattern_A, R_pattern_b, upd2, upd1, ind; split;
    intros; cbn [fst snd]; case_indices; first [ring | lia].
Qed.

(** [init_linear_system] saves the value and adds its stamp. *)
Lemma R_init_adds (self : R.t) vars d ls v1 v2 :
  ~ R.value self == 0 ->
  IComponent.read_node1_and_node2_as_indices (R.base self) vars tt = (Ok (v1, v2), tt) ->
  terminal_in_range (dim ls) v1 -> terminal_in_range (dim ls) v2 ->
  let r := R.init_linear_system vars d (self, ls) in
  fst r = Ok tt
  /\ fst (snd r) = R.mk (R.base self) (R.value self) (Some (R.value self))
  /\ dim (snd (snd r)) = dim ls
  /\ (forall row col,
         A (snd (snd r)) row col
         == A ls row col + 1 / R.value self * R_pattern_A v1 v2 row col)
  /\ (forall row,
         b (snd (snd r)) row == b ls row + 1 / R.value self * R_pattern_b v1 v2 row).
Proof.
  intros Hnz Hread R1 R2.
  pose (self' := R.mk (R.base self) (R.value self) (Some (R.value self))).
  destruct (R_apply_element_stamps_adds self' vars false ls v1 v2 (R.value self) 1)
    as (Hok & Hdim & HA & Hb); try assumption; try reflexivity.
  cbv zeta.
  unfold R.init_linear_system, bind, modify, get, on_snd. cbn [fst snd].
  fold self'.
  destruct (R.apply_element_stamps self' vars false ls) as [r ls'] eqn:E.
  cbn [fst snd] in *. subst r. cbn [fst snd].
  split; [reflexivity|]. split; [reflexivity|]. split; [exact Hdim|].
  split.
  - intros row col. rewrite HA. ring.
  - intros row. rewrite Hb. ring.
Qed.

(** [update_linear_system] takes the saved value's stamp away and adds the
    current value's. *)
Lemma R_update_replaces (self : R.t) vars d ls v1 v2 old :
  R.old_value self = Some old ->
  ~ old == 0 -> ~ R.value self == 0 ->
  IComponent.read_node1_and_node2_as_indices (R.base self) vars tt = (Ok (v1, v2), tt) ->
  terminal_in_range (dim ls) v1 -> terminal_in_range (dim ls) v2 ->
  let r := R.update_linear_system vars d (self, ls) in
  fst r = Ok tt
  /\ fst (snd r) = R.mk (R.base self) (R.value self) (Some (R.value self))
  /\ dim (snd (snd r)) = dim ls
  /\ (forall row col,
         A (snd (snd r)) row col
         == A ls row col - 1 / old * R_pattern_A v1 v2 row col
            + 1 / R.value self * R_pattern_A v1 v2 row col)
  /\ (forall row,
         b (snd (snd r)) row
         == b ls row - 1 / old * R_pattern_b v1 v2 row
            + 1 / R.value self * R_pattern_b v1 v2 row).
Proof.
  intros Hold Hnzo Hnz Hread R1 R2.
  destruct (R_apply_element_stamps_adds self vars true ls v1 v2 old (-1))
    as (Hok & Hdim & HA & Hb); try assumption.
  { rewrite Hold. reflexivity. }
  destruct (R.apply_element_stamps self vars true ls) as [r ls1] eqn:E.
  cbn [fst snd] in Hok, Hdim, HA, Hb. subst r.
  assert (Hrun : R.update_linear_system vars d (self, ls)
                 = R.init_linear_system vars d (self, ls1)).
  { unfold R.update_linear_system, bind, get, on_snd. cbn [fst snd].
    rewrite E. reflexivity. }
  cbv zeta. rewrite Hrun.
  destruct (R_init_adds self vars d ls1 v1 v2) as (Hok2 & Hself & Hdim2 & HA2 & Hb2);
    try assumption; try (rewrite Hdim; assumption).
  split; [exact Hok2|]. split; [exact Hself|].
  split; [rewrite Hdim2; exact Hdim|].
  split.
  - intros row col. rewrite HA2, HA. ring.
  - intros row. rewrite Hb2, Hb. ring.
Qed.

Lemma last_cons_default {T} (l : list T) (a d : T) :
  last (a :: l) d = last l a.
Proof.
  revert a d. induction l as [|w l IH]; intros a d; [reflexivity|].
  change (last (a :: w :: l) d) with (last (w :: l) d).
  now rewrite (IH w d), (IH w a).
Qed.

(** A run of edits from a system that carries the stamp of the saved value
    on top of [A0], [b0] ends with the stamp of the last value on top of
    [A0], [b0]. *)
Lemma restamp_sequence_replaces vars d v1 v2 (A0 : nat -> nat -> Q) (b0 : nat -> Q) :
  forall (values : list Q) (self : R.t) (ls : LinearSystem Q) (old : Q),
  R.old_value self = Some old ->
  ~ old == 0 -> Forall (fun v => ~ v == 0) values ->
  IComponent.read_node1_and_node2_as_indices (R.base self) vars tt = (Ok (v1, v2), tt) ->
  terminal_in_range (dim ls) v1 -> terminal_in_range (dim ls) v2 ->
  (forall row col, A ls row col == A0 row col + 1 / old * R_pattern_A v1 v2 row col) ->
  (forall row, b ls row == b0 row + 1 / old * R_pattern_b v1 v2 row) ->
  let r := restamp_sequence vars d values (self, ls) in
  let final := last values old in
  fst r = Ok tt
  /\ R.old_value (fst (snd r)) = Some final
  /\ (values <> [] -> R.value (fst (snd r)) = final)
  /\ (forall row col,
         A (snd (snd r)) row col == A0 row col + 1 / final * R_pattern_A v1 v2 row col)
  /\ (forall row,
         b (snd (snd r)) row == b0 row + 1 / final * R_pattern_b v1 v2 row).
Proof.
  induction values as [|v rest IH]; intros self ls old Hold Hnzo Hall Hread R1 R2 HA Hb.
  - cbn. repeat split; try assumption. intro Hc. contradiction.
  - inversion Hall as [|? ? Hv Hrest]; subst.
    destruct (R_update_replaces (R.set_value self v) vars d ls v1 v2 old)
      as (Hok & Hself & Hdim & HA1 & Hb1); try assumption.
    destruct (R.update_linear_system vars d (R.set_value self v, ls)) as [r [self1 ls1]] eqn:E.
    cbn [fst snd R.set_value R.value R.base] in Hok, Hself, Hdim, HA1, Hb1. subst r.
    assert (Hrun : restamp_sequence vars d (v :: rest) (self, ls)
                   = restamp_sequence vars d rest (self1, ls1)).
    { cbn [restamp_sequence]. unfold bind, modify. cbn [fst snd].
      rewrite E. reflexivity. }
    cbv zeta. rewrite Hrun.
    specialize (IH self1 ls1 v).
    destruct IH as (Hok' & Hold' & Hval' & HA' & Hb'); try assumption.
    + subst self1. reflexivity.
    + subst self1. exact Hread.
    + rewrite Hdim. exact R1.
    + rewrite Hdim. exact R2.
    + intros row col. rewrite HA1, HA. ring.
    + intros row. rewrite Hb1, Hb. ring.
    + rewrite last_cons_default.
      split; [exact Hok'|]. split; [exact Hold'|].
      split.
      * intros _. destruct rest as [|w rest'].
        -- cbn in *. subst self1. reflexivity.
        -- apply Hval'. discriminate.
      * split; assumption.
Qed.

(** C4. A resistor is stamped on a fresh system and then edited any number
    of times, each edit followed by one [update_linear_system]. The system
    that results is, entry by entry, the one a single [init_linear_system]
    with the last resistance makes on a fresh system, and the saved old
    value is that last resistance. *)
Theorem R_restamps_equal_fresh_init (r0 : R.t) vars d n (values : list Q) v1 v2 :
  IComponent.read_node1_and_node2_as_indices (R.base r0) vars tt = (Ok (v1, v2), tt) ->
  terminal_in_range n v1 -> terminal_in_range n v2 ->
  ~ R.value r0 == 0 -> Forall (fun v => ~ v == 0) values ->
  let final := last values (R.value r0) in
  let edited :=
    (R.init_linear_system vars d ;; restamp_sequence vars d values) (r0, create_real n) in
  let fresh := R.init_linear_system vars d (R.set_value r0 final, create_real n) in
  fst edited = Ok tt /\ fst fresh = Ok tt
  /\ (forall row col, A (snd (snd edited)) row col == A (snd (snd fresh)) row col)
  /\ (forall row, b (snd (snd edited)) row == b (snd (snd fresh)) row)
  /\ R.old_value (fst (snd edited)) = Some final
  /\ R.value (fst (snd edited)) = final.
Proof.
  intros Hread R1 R2 Hnz Hall final edited fresh.
  assert (Hfinal : ~ final == 0).
  { subst final. clear - Hnz Hall.
    revert Hnz. generalize (R.value r0).
    induction Hall as [|v rest Hv Hrest IH]; intros q Hq; [exact Hq|].
    rewrite last_cons_default. now apply IH. }
  (* the first stamp *)
  destruct (R_init_adds r0 vars d (create_real n) v1 v2)
    as (Hok0 & Hself0 & Hdim0 & HA0 & Hb0); try assumption.
  destruct (R.init_linear_system vars d (r0, create_real n)) as [r [self1 ls1]] eqn:E0.
  cbn [fst snd] in Hok0, Hself0, Hdim0, HA0, Hb0. subst r.
  (* the edits *)
  destruct (restamp_sequence_replaces vars d v1 v2 (A (create_real n)) (b (create_real n))
              values self1 ls1 (R.value r0))
    as (Hok1 & Hold1 & Hval1 & HA1 & Hb1); try assumption.
  { subst self1. reflexivity. }
  { subst self1. exact Hread. }
  { rewrite Hdim0. exact R1. }
  { rewrite Hdim0. exact R2. }
  assert (Hedited : edited = restamp_sequence vars d values (self1, ls1)).
  { subst edited. unfold bind. rewrite E0. reflexivity. }
  (* the fresh stamp of the last value *)
  destruct (R_init_adds (R.set_value r0 final) vars d (create_real n) v1 v2)
    as (Hok2 & Hself2 & Hdim2 & HA2 & Hb2); try assumption.
  fold fresh in Hok2, Hself2, Hdim2, HA2, Hb2.
  cbn [R.set_value R.value R.base] in HA2, Hb2.
  rewrite Hedited. fold final in Hold1, Hval1, HA1, Hb1.
  split; [exact Hok1|]. split; [exact Hok2|].
  split; [intros row col; rewrite HA1, HA2; reflexivity|].
  split; [intros row; rewrite Hb1, Hb2; reflexivity|].
  split; [exact Hold1|].
  destruct values as [|v rest].
  - cbn. subst self1. reflexivity.
  - apply Hval1. discriminate.
Qed.

Lemma R_restamps_equal_fresh_init_witness :
  let final := last [500; 250] (R.value edited_resistor) in
  let edited :=
    (R.init_linear_system edited_resistor_vars dc_description ;;
     restamp_sequence edited_resistor_vars dc_description [500; 250])
      (edited_resistor, create_real 2) in
  let fresh :=
    R.init_linear_system edited_resistor_vars dc_description
      (R.set_value edited_resistor final, create_real 2) in
  fst edited = Ok tt /\ fst fresh = Ok tt
  /\ (forall row col, A (snd (snd edited)) row col == A (snd (snd fresh)) row col)
  /\ (forall row, b (snd (snd edited)) row == b (snd (snd fresh)) row)
  /\ R.old_value (fst (snd edited)) = Some final
  /\ R.value (fst (snd edited)) = final.
Proof.
  apply (R_restamps_equal_fresh_init edited_resistor edited_resistor_vars dc_description
           2 [500; 250] (TVar 0) (TVar 1)).
  - reflexivity.
  - cbn. lia.
  - cbn. lia.
  - intro Hz. discriminate Hz.
  - repeat constructor; intro Hz; discriminate Hz.
Defined.

(** ** Properties of the state that a computation keeps *)


Lemma preserves_ret {E S A} (P : S -> Prop) (a : A) : preserves P (@ret E S A a).
Proof. intros s Hs. exact Hs. Qed.

Lemma preserves_raise {E S A} (P : S -> Prop) (e : E) : preserves P (@raise E S A e).
Proof. intros s Hs. exact Hs. Qed.

Lemma preserves_out_of_fuel {S A} (P : S -> Prop) : preserves P (@out_of_fuel S A).
Proof. intros s Hs. exact Hs. Qed.

Lemma preserves_get {E S} (P : S -> Prop) : preserves P (@get E S).
Proof. intros s Hs. exact Hs. Qed.

Lemma preserves_modify {E S} (P : S -> Prop) (f : S -> S) :
  (forall s, P s -> P (f s)) -> preserves P (@modify E S f).
Proof. intros Hf s Hs. apply Hf, Hs. Qed.

Lemma preserves_put {E S} (P : S -> Prop) (s' : S) : P s' -> preserves P (@put E S s').
Proof. intros Hs' s _. exact Hs'. Qed.

Lemma preserves_result {E S A} (P : S -> Prop) (r : res E A) :
  preserves P (fun s : S => (r, s)).
Proof. intros s Hs. exact Hs. Qed.

Lemma preserves_bind {E S A B} (P : S -> Prop) (m : M E S A) (k : A -> M E S B) :
  preserves P m -> (forall a, preserves P (k a)) -> preserves P (bind m k).
Proof.
  intros Hm Hk s Hs. unfold bind.
  specialize (Hm s Hs). destruct (m s) as [[a|e] s1]; cbn in *; try exact Hm.
  apply Hk, Hm.
Qed.

(** The continuation may use what [get] returned: the state satisfies [P]. *)
Lemma preserves_bind_get {E S B} (P : S -> Prop) (k : S -> M E S B) :
  (forall s0, P s0 -> preserves P (k s0)) -> preserves P (bind get k).
Proof. intros Hk s Hs. unfold bind, get. apply (Hk s Hs s Hs). Qed.

Lemma preserves_for_each {E S A} (P : S -> Prop) (l : list A) (body : A -> M E S unit) :
  (forall a, preserves P (body a)) -> preserves P (for_each l body).
Proof.
  intro Hb. induction l as [|a l IH]; cbn [for_each].
  - apply preserves_ret.
  - apply preserves_bind; [apply Hb|]. intros _. exact IH.
Qed.

Lemma preserves_when {E S} (P : S -> Prop) (c : bool) (m : M E S unit) :
  preserves P m -> preserves P (when c m).
Proof. intro Hm. destruct c; [exact Hm|apply preserves_ret]. Qed.

(** ** The variable table *)

Lemma pyname_eqb_eq (a c : pyname) : pyname_eqb a c = true <-> a = c.
Proof.
  destruct a as [s|], c as [s'|]; cbn; split; intro Heq;
    try discriminate; try reflexivity.
  - apply String.eqb_eq in Heq. now subst.
  - injection Heq as ->. apply String.eqb_refl.
Qed.

Lemma pyname_eqb_refl (a : pyname) : pyname_eqb a a = true.
Proof. now apply pyname_eqb_eq. Qed.

Lemma pyname_eqb_neq (a c : pyname) : pyname_eqb a c = false <-> a <> c.
Proof.
  split.
  - intros Hf Heq. apply pyname_eqb_eq in Heq. congruence.
  - intro Hne. destruct (pyname_eqb a c) eqn:E; [|reflexivity].
    apply pyname_eqb_eq in E. contradiction.
Qed.

Lemma var_get_None (d : var_dict) (k : pyname) :
  var_get d k = None <-> ~ In k (map fst d).
Proof.
  unfold var_get. induction d as [|[k' v] d IH]; cbn.
  - split; [intros _ []|reflexivity].
  - destruct (pyname_eqb k k') eqn:E.
    + apply pyname_eqb_eq in E. subst. split; [discriminate|].
      intro Hn. exfalso. apply Hn. now left.
    + apply pyname_eqb_neq in E. rewrite IH. split.
      * intros Hn [Hk|Hin]; [congruence|contradiction].
      * intros Hn Hin. apply Hn. now right.
Qed.

Lemma var_set_absent (d : var_dict) (k : pyname) (v : nat) :
  var_get d k = None -> var_set d k v = d ++ [(k, v)].
Proof.
  unfold var_get, var_set. induction d as [|[k' v'] d IH]; cbn; [reflexivity|].
  destruct (pyname_eqb k k'); [discriminate|].
  intro Hn. now rewrite IH.
Qed.


Lemma table_ok_add (d : var_dict) (k : pyname) :
  table_ok d -> var_get d k = None -> table_ok (var_set d k (length d)).
Proof.
  intros [Hnd Hseq] Hn. rewrite (var_set_absent _ _ _ Hn).
  split.
  - rewrite map_app. cbn. apply NoDup_app_remove_l with (l := []). cbn.
    apply (proj1 (var_get_None d k)) in Hn.
    clear Hseq. induction d as [|[k' v'] d IH]; cbn in *.
    + constructor; [intros []|constructor].
    + inversion Hnd as [|? ? Hk' Hnd']; subst. constructor.
      * rewrite in_app_iff. intros [Hin|[Hk|[]]]; [contradiction|].
        apply Hn. now left.
      * apply IH; [exact Hnd'|]. intro Hin. apply Hn. now right.
  - rewrite map_app, length_app. cbn. rewrite seq_app, Hseq. cbn. reflexivity.
Qed.

Lemma add_var_names_ok (var_names : list pyname) :
  forall d, table_ok d ->
  let r := CircuitComponents_.add_var_names var_names d (length d) in
  table_ok (fst r) /\ snd r = length (fst r).
Proof.
  induction var_names as [|k rest IH]; intros d Hd; cbn.
  - split; [exact Hd|reflexivity].
  - unfold var_mem, dict_mem. fold (var_get d k).
    destruct (var_get d k) eqn:E.
    + apply IH, Hd.
    + pose proof (table_ok_add d k Hd E) as Hd'.
      assert (Hlen : S (length d) = length (var_set d k (length d))).
      { rewrite (var_set_absent _ _ _ E), length_app. cbn. lia. }
      rewrite Hlen. apply IH, Hd'.
Qed.

Lemma bind_Ok_inv {E S A B} (m : M E S A) (k : A -> M E S B) s b s' :
  bind m k s = (Ok b, s') ->
  exists a s1, m s = (Ok a, s1) /\ k a s1 = (Ok b, s').
Proof.
  unfold bind. destruct (m s) as [[a|e] s1]; intro Hr; try discriminate.
  now exists a, s1.
Qed.

Lemma collect_ok (l : list component) :
  forall c cc,
  table_ok (variable_names_dict cc) ->
  table_ok (variable_names_dict
              (snd (CircuitComponents_.collect l c (length (variable_names_dict cc)) cc))).
Proof.
  induction l as [|o l IH]; intros c cc Hok; cbn [CircuitComponents_.collect].
  - exact Hok.
  - destruct (get_name o) as [name|]; [|exact Hok].
    destruct (add_var_names_ok (get_variable_names o) (variable_names_dict cc) Hok)
      as [Hok' Hlen].
    unfold when, bind, modify, ret, get, put.
    destruct (negb (CircuitComponents_.startswith_dollar name));
      cbn [variable_names_dict set_components_dict];
      destruct (CircuitComponents_.add_var_names (get_variable_names o)
                  (variable_names_dict cc) (length (variable_names_dict cc)))
        as [d idx] eqn:Eadd;
      cbn [fst snd] in Hok', Hlen; subst idx.
    + apply (IH (S c) (set_variable_names_dict
                         (set_components_dict cc
                            (dict_set pyname_eqb (components_dict cc) (Some name) c)) d)).
      exact Hok'.
    + apply (IH (S c) (set_variable_names_dict cc d)). exact Hok'.
Qed.

Lemma list_set_middle {T} (pre : list T) (a a' : T) (l : list T) :
  list_set (pre ++ a :: l) (length pre) a' = Some (pre ++ a' :: l).
Proof.
  induction pre as [|p pre IH]; cbn; [reflexivity|].
  now rewrite IH.
Qed.

Lemma fill_names_counts (items : var_dict) :
  forall (pre l : list pyname),
  map snd items = seq (length pre) (length items) ->
  length l = length items ->
  CircuitComponents_.fill_names items (pre ++ l) = Some (pre ++ map fst items).
Proof.
  induction items as [|[k i] items IH]; intros pre l Hseq Hlen; cbn in *.
  - destruct l; [reflexivity|discriminate].
  - destruct l as [|a l]; [discriminate|].
    injection Hseq as Hi Hseq. subst i.
    rewrite list_set_middle.
    replace (pre ++ k :: l) with ((pre ++ [k]) ++ l) by (rewrite <- app_assoc; reflexivity).
    rewrite IH.
    + rewrite <- app_assoc. reflexivity.
    + rewrite length_app. cbn. rewrite Nat.add_1_r. exact Hseq.
    + now injection Hlen.
Qed.

Lemma var_get_Some_nth (d : var_dict) (k : pyname) (i first : nat) :
  map snd d = seq first (length d) ->
  var_get d k = Some i ->
  (first <= i < first + length d)%nat /\ nth_error (map fst d) (i - first) = Some k.
Proof.
  unfold var_get. revert first.
  induction d as [|[k' v] d IH]; intros first Hseq Hget; cbn in *; [discriminate|].
  injection Hseq as Hv Hseq. subst v.
  destruct (pyname_eqb k k') eqn:E.
  - apply pyname_eqb_eq in E. subst k'. injection Hget as <-.
    rewrite Nat.sub_diag. split; [lia|reflexivity].
  - destruct (IH (S first) Hseq Hget) as [Hr Hn].
    split; [lia|].
    replace (i - first)%nat with (S (i - S first)) by lia. exact Hn.
Qed.

Lemma nth_var_get (d : var_dict) (i first : nat) :
  NoDup (map fst d) ->
  map snd d = seq first (length d) ->
  (i < length d)%nat ->
  exists k, nth_error (map fst d) i = Some k /\ var_get d k = Some (first + i)%nat.
Proof.
  unfold var_get. revert i first.
  induction d as [|[k' v] d IH]; intros i first Hnd Hseq Hi; cbn in *; [lia|].
  injection Hseq as Hv Hseq. subst v.
  inversion Hnd as [|? ? Hk' Hnd']; subst.
  destruct i as [|i].
  - exists k'. rewrite pyname_eqb_refl, Nat.add_0_r. split; reflexivity.
  - destruct (IH i (S first) Hnd' Hseq) as (k & Hn & Hg); [lia|].
    exists k. split; [exact Hn|].
    assert (Hne : pyname_eqb k k' = false).
    { apply pyname_eqb_neq. intros ->. apply Hk'.
      apply nth_error_In in Hn. exact Hn. }
    rewrite Hne, Hg. f_equal. lia.
Qed.

Lemma call_resolve_constants_keeps (P : CircuitComponents -> Prop) c :
  resolve_frame P -> preserves P (CircuitComponents_.call_resolve_constants c).
Proof.
  intro HP. unfold CircuitComponents_.call_resolve_constants.
  apply preserves_bind_get. intros cc0 Hcc0.
  apply preserves_bind.
  { unfold deref. destruct (nth_error (all_components cc0) c);
      [apply preserves_ret|apply preserves_raise]. }
  intros o.
  destruct (resolve_constants (o, voltage_constants cc0)) as [r [o' vc']].
  apply preserves_bind.
  - apply preserves_put. apply HP, Hcc0.
  - intros _. apply preserves_result.
Qed.

Lemma resolve_pass_keeps (P : CircuitComponents -> Prop) cs :
  resolve_frame P -> forall found, preserves P (CircuitComponents_.resolve_pass cs found).
Proof.
  intro HP. induction cs as [|c cs IH]; intro found; cbn [CircuitComponents_.resolve_pass].
  - apply preserves_ret.
  - apply preserves_bind; [apply call_resolve_constants_keeps, HP|].
    intros change. apply IH.
Qed.

Lemma resolve_loop_keeps (P : CircuitComponents -> Prop) fuel :
  resolve_frame P -> preserves P (CircuitComponents_.resolve_loop fuel).
Proof.
  intro HP. induction fuel as [|fuel IH]; cbn [CircuitComponents_.resolve_loop].
  - apply preserves_out_of_fuel.
  - apply preserves_bind_get. intros cc0 _.
    apply preserves_bind; [apply resolve_pass_keeps, HP|].
    intros [|]; [exact IH|apply preserves_ret].
Qed.

Lemma for_all_resolve_keeps (P : CircuitComponents -> Prop) n :
  resolve_frame P -> preserves P (CircuitComponents_.for_all_resolve n).
Proof.
  intro HP. unfold CircuitComponents_.for_all_resolve.
  apply preserves_for_each. intro c.
  apply preserves_bind; [apply call_resolve_constants_keeps, HP|].
  intros _. apply preserves_ret.
Qed.

Lemma table_resolve_frame (P : var_dict -> Prop) :
  resolve_frame (fun cc => P (variable_names_dict cc)).
Proof. intros cc all vc Hcc. exact Hcc. Qed.

(** C8. After a successful [CircuitComponents.__init__] the variable table
    is a bijection between the names of [variable_names_dict] and the
    indices [0..n-1], [n = len(variable_names_list)]: the dict sends a
    name to an index below [n] at which the list holds that name, every
    index below [n] holds a name that the dict sends back to it, and no
    two names share an index. *)
Theorem variable_table_bijection fuel comps consts cc :
  CircuitComponents_.init fuel comps consts = (Ok tt, cc) ->
  let d := variable_names_dict cc in
  let l := variable_names_list cc in
  let n := length l in
  length d = n
  /\ (forall name i, var_get d name = Some i -> (i < n)%nat /\ nth_error l i = Some name)
  /\ (forall i, (i < n)%nat ->
        exists name, nth_error l i = Some name /\ var_get d name = Some i)
  /\ (forall name1 name2 i,
        var_get d name1 = Some i -> var_get d name2 = Some i -> name1 = name2).
Proof.
  unfold CircuitComponents_.init.
  set (named := CircuitComponents_.generate_names comps 0).
  destruct (CircuitComponents_.names_unique named []); [|discriminate].
  intro Hrun.
  apply bind_Ok_inv in Hrun. destruct Hrun as ([] & cc1 & H1 & Hrun).
  apply bind_Ok_inv in Hrun. destruct Hrun as ([] & cc2 & H2 & Hrun).
  apply bind_Ok_inv in Hrun. destruct Hrun as ([] & cc3 & H3 & Hrun).
  apply bind_Ok_inv in Hrun. destruct Hrun as (cc3' & cc3'' & Hg & Hrun).
  injection Hg as <- <-.
  apply bind_Ok_inv in Hrun. destruct Hrun as ([] & cc4 & H4 & Hrun).
  apply bind_Ok_inv in Hrun. destruct Hrun as (cc4' & cc4'' & Hg & Hrun).
  injection Hg as <- <-.
  (* the table is empty until the names are collected *)
  assert (E1 : variable_names_dict cc1 = []).
  { unfold modify in H1. injection H1 as <-. reflexivity. }
  assert (E2 : variable_names_dict cc2 = []).
  { pose proof (resolve_loop_keeps _ fuel (table_resolve_frame (fun d => d = [])) cc1 E1)
      as Hp.
    rewrite H2 in Hp. exact Hp. }
  assert (E3 : variable_names_dict cc3 = []).
  { pose proof (for_all_resolve_keeps _ (length named)
                  (table_resolve_frame (fun d => d = [])) cc2 E2) as Hp.
    rewrite H3 in Hp. exact Hp. }
  (* the collected table *)
  assert (Hok : table_ok (variable_names_dict cc4)).
  { pose proof (collect_ok (all_components cc3) 0 cc3) as Hc.
    rewrite E3 in Hc. cbn [length] in Hc. rewrite H4 in Hc.
    apply Hc. split; [constructor|reflexivity]. }
  destruct Hok as [Hnd Hseq].
  (* the list of names *)
  pose proof (fill_names_counts (variable_names_dict cc4) []
                (repeat (Some ""%string) (length (variable_names_dict cc4)))
                Hseq (repeat_length _ _)) as Hfill.
  cbn [app] in Hfill. rewrite Hfill in Hrun.
  unfold put in Hrun. injection Hrun as <-.
  cbn [variable_names_dict variable_names_list set_variable_names_list].
  cbv zeta. rewrite length_map.
  split; [reflexivity|]. split; [|split].
  - intros name i Hget.
    destruct (var_get_Some_nth _ _ _ 0 Hseq Hget) as [Hr Hn].
    rewrite Nat.sub_0_r in Hn. split; [lia|exact Hn].
  - intros i Hi.
    destruct (nth_var_get _ i 0 Hnd Hseq Hi) as (k & Hn & Hg).
    exists k. split; [exact Hn|exact Hg].
  - intros name1 name2 i Hg1 Hg2.
    destruct (var_get_Some_nth _ _ _ 0 Hseq Hg1) as [_ Hn1].
    destruct (var_get_Some_nth _ _ _ 0 Hseq Hg2) as [_ Hn2].
    congruence.
Qed.

Lemma variable_table_bijection_witness :
  let cc := snd (CircuitComponents_.init 5 mixed_circuit mixed_constants) in
  CircuitComponents_.init 5 mixed_circuit mixed_constants = (Ok tt, cc)
  /\ (let d := variable_names_dict cc in
      let l := variable_names_list cc in
      let n := length l in
      length d = n
      /\ (forall name i, var_get d name = Some i -> (i < n)%nat /\ nth_error l i = Some name)
      /\ (forall i, (i < n)%nat ->
            exists name, nth_error l i = Some name /\ var_get d name = Some i)
      /\ (forall name1 name2 i,
            var_get d name1 = Some i -> var_get d name2 = Some i -> name1 = name2)).
Proof.
  split; [vm_compute; reflexivity|].
  apply (variable_table_bijection 5 mixed_circuit mixed_constants).
  vm_compute; reflexivity.
Defined.

(** *** The special lists are in declared order *)

Lemma generate_name_class (c : component) (_id : nat) :
  is_VS (fst (generate_name c _id)) = is_VS c
  /\ is_Diode (fst (generate_name c _id)) = is_Diode c
  /\ is_C_or_L (fst (generate_name c _id)) = is_C_or_L c.
Proof.
  destruct c as [r|v|d|c|l|g]; cbn;
    unfold VS.generate_name, Diode.generate_name, C.generate_name, L.generate_name,
      VG.generate_name;
    match goal with
    | |- context [IComponent.generate_name ?b ?i] =>
        destruct (IComponent.generate_name b i)
    end; cbn; repeat split; reflexivity.
Qed.

Lemma select_generate_names (p : component -> bool) :
  (forall c _id, p (fst (generate_name c _id)) = p c) ->
  forall l _id first,
  CircuitComponents_.select p (CircuitComponents_.generate_names l _id) first
  = CircuitComponents_.select p l first.
Proof.
  intros Hp. induction l as [|c l IH]; intros _id first; cbn; [reflexivity|].
  specialize (Hp c _id). destruct (generate_name c _id) as [c' _id'].
  cbn [fst] in Hp. cbn. rewrite Hp, !IH. reflexivity.
Qed.

(** [select] lists, in increasing order, the positions of the components
    that satisfy [p]. *)
Lemma select_spec (p : component -> bool) (l : list component) : forall first,
  StronglySorted lt (CircuitComponents_.select p l first)
  /\ forall i, In i (CircuitComponents_.select p l first) <->
               (first <= i)%nat
               /\ exists o, nth_error l (i - first) = Some o /\ p o = true.
Proof.
  induction l as [|c l IH]; intros first; cbn [CircuitComponents_.select].
  - split; [constructor|]. intros i. split; [intros []|].
    intros (_ & o & Hn & _). destruct (i - first)%nat; discriminate.
  - destruct (IH (S first)) as [Hsorted Hin].
    assert (Htail : forall i, In i (CircuitComponents_.select p l (S first)) <->
                              (first < i)%nat
                              /\ exists o, nth_error (c :: l) (i - first) = Some o
                                           /\ p o = true).
    { intros i. rewrite Hin. split.
      - intros (Hle & o & Hn & Hp). split; [lia|]. exists o. split; [|exact Hp].
        replace (i - first)%nat with (S (i - S first)) by lia. exact Hn.
      - intros (Hlt & o & Hn & Hp). split; [lia|]. exists o. split; [|exact Hp].
        replace (i - first)%nat with (S (i - S first)) in Hn by lia. exact Hn. }
    destruct (p c) eqn:Epc.
    + split.
      * constructor; [exact Hsorted|].
        apply Forall_forall. intros i Hi. apply Htail in Hi. lia.
      * intros i. cbn [In]. rewrite Htail. split.
        -- intros [<-|(Hlt & Ho)].
           ++ split; [lia|]. exists c. rewrite Nat.sub_diag. now split.
           ++ split; [lia|exact Ho].
        -- intros (Hle & o & Hn & Hp).
           destruct (Nat.eq_dec first i) as [Heq|Hne]; [now left|].
           right. split; [lia|]. now exists o.
    + split; [exact Hsorted|].
      intros i. rewrite Htail. split.
      * intros (Hlt & Ho). split; [lia|exact Ho].
      * intros (Hle & o & Hn & Hp).
        destruct (Nat.eq_dec first i) as [Heq|Hne].
        -- subst i. rewrite Nat.sub_diag in Hn. cbn in Hn. injection Hn as <-. congruence.
        -- split; [lia|]. now exists o.
Qed.

Lemma lists_resolve_frame (P : list nat * list nat * list nat -> Prop) :
  resolve_frame (fun cc => P (constant_voltages cc, non_linear cc, lc cc)).
Proof. intros cc all vc Hcc. exact Hcc. Qed.

Lemma collect_keeps_lists (P : list nat * list nat * list nat -> Prop) (l : list component) :
  forall c idx,
  preserves (fun cc => P (constant_voltages cc, non_linear cc, lc cc))
            (CircuitComponents_.collect l c idx).
Proof.
  induction l as [|o l IH]; intros c idx; cbn [CircuitComponents_.collect].
  - apply preserves_ret.
  - destruct (get_name o) as [name|]; [|apply preserves_raise].
    apply preserves_bind.
    { apply preserves_when, preserves_modify. intros cc Hcc. exact Hcc. }
    intros _. apply preserves_bind_get. intros cc Hcc.
    destruct (CircuitComponents_.add_var_names (get_variable_names o)
                (variable_names_dict cc) idx) as [d idx'].
    apply preserves_bind; [apply preserves_put; exact Hcc|]. intros _. apply IH.
Qed.

(** After a successful assembly the lists of voltage sources, of nonlinear
    components and of LC components hold the positions of those components
    in [list_of_components], in declared order. *)
Lemma assembly_lists_in_declared_order fuel comps consts cc :
  CircuitComponents_.init fuel comps consts = (Ok tt, cc) ->
  constant_voltages cc = CircuitComponents_.select is_VS comps 0
  /\ non_linear cc = CircuitComponents_.select is_Diode comps 0
  /\ lc cc = CircuitComponents_.select is_C_or_L comps 0.
Proof.
  unfold CircuitComponents_.init.
  set (named := CircuitComponents_.generate_names comps 0).
  destruct (CircuitComponents_.names_unique named []); [|discriminate].
  intro Hrun.
  set (lists := (CircuitComponents_.select is_VS comps 0,
                 CircuitComponents_.select is_Diode comps 0,
                 CircuitComponents_.select is_C_or_L comps 0)).
  set (P := fun cc0 => (constant_voltages cc0, non_linear cc0, lc cc0) = lists).
  enough (HP : P cc) by (unfold P, lists in HP; injection HP as -> -> ->; now repeat split).
  apply bind_Ok_inv in Hrun. destruct Hrun as ([] & cc1 & H1 & Hrun).
  apply bind_Ok_inv in Hrun. destruct Hrun as ([] & cc2 & H2 & Hrun).
  apply bind_Ok_inv in Hrun. destruct Hrun as ([] & cc3 & H3 & Hrun).
  apply bind_Ok_inv in Hrun. destruct Hrun as (cc3' & cc3'' & Hg & Hrun).
  injection Hg as <- <-.
  apply bind_Ok_inv in Hrun. destruct Hrun as ([] & cc4 & H4 & Hrun).
  apply bind_Ok_inv in Hrun. destruct Hrun as (cc4' & cc4'' & Hg & Hrun).
  injection Hg as <- <-.
  assert (E1 : P cc1).
  { unfold modify in H1. injection H1 as <-. unfold P, lists, named. cbn.
    rewrite !select_generate_names; try reflexivity; intros c _id;
      apply (generate_name_class c _id). }
  assert (E2 : P cc2).
  { pose proof (resolve_loop_keeps _ fuel (lists_resolve_frame (fun x => x = lists)) cc1 E1)
      as Hp. rewrite H2 in Hp. exact Hp. }
  assert (E3 : P cc3).
  { pose proof (for_all_resolve_keeps _ (length named)
                  (lists_resolve_frame (fun x => x = lists)) cc2 E2) as Hp.
    rewrite H3 in Hp. exact Hp. }
  assert (E4 : P cc4).
  { pose proof (collect_keeps_lists (fun x => x = lists) (all_components cc3) 0 0 cc3 E3)
      as Hp. rewrite H4 in Hp. exact Hp. }
  destruct (CircuitComponents_.fill_names (variable_names_dict cc4)
              (repeat (Some ""%string) (length (variable_names_dict cc4)))) as [l|];
    [|discriminate].
  unfold put in Hrun. injection Hrun as <-. exact E4.
Qed.

(** ** The drivers: what a call leaves alone *)

Section DriverFrames.
Context {K : Type} `{Backend K}.


Variable P : Circuit K -> Prop.
Hypothesis HP : driver_frame P.

Lemma frame_log e : preserves P (log e).
Proof. apply preserves_modify. intros s Hs. now apply HP. Qed.

Lemma frame_the_linear_system : preserves P the_linear_system.
Proof.
  unfold the_linear_system. apply preserves_bind_get. intros s _.
  destruct (linear_system s); [apply preserves_ret|apply preserves_raise].
Qed.

Lemma frame_linear_system_solve : preserves P linear_system_solve.
Proof.
  unfold linear_system_solve.
  apply preserves_bind; [apply frame_the_linear_system|]. intros ls.
  apply preserves_bind; [apply frame_log|]. intros _.
  destruct (solver ls) as [x'|[x'|]].
  - apply preserves_modify. intros s Hs. now apply HP.
  - apply preserves_bind; [|intros; apply preserves_raise].
    apply preserves_modify. intros s Hs. now apply HP.
  - apply preserves_raise.
Qed.

Lemma frame_deref {S} (Q0 : S -> Prop) all c : preserves Q0 (@deref S all c).
Proof.
  unfold deref. destruct (nth_error all c); [apply preserves_ret|apply preserves_raise].
Qed.

Lemma frame_call_update_state c : preserves P (call_update_state c).
Proof.
  unfold call_update_state.
  apply preserves_bind; [apply frame_the_linear_system|]. intros ls.
  apply preserves_bind_get. intros s _.
  apply preserves_bind; [apply frame_deref|]. intros o.
  apply preserves_bind; [apply frame_log|]. intros _.
  destruct (update_state (x ls) (variable_names_dict (circuit_components s)) o) as [r o'].
  apply preserves_bind; [|intros; apply preserves_result].
  apply preserves_modify. intros s1 Hs1. now apply HP.
Qed.

Lemma frame_call_stamp is_init c d : preserves P (call_stamp is_init c d).
Proof.
  unfold call_stamp.
  apply preserves_bind_get. intros s _.
  apply preserves_bind; [apply frame_deref|]. intros o.
  destruct (linear_system s) as [ls|].
  - destruct ((if is_init then init_linear_system else update_linear_system)
                (variable_names_dict (circuit_components s)) d (o, ls)) as [r [o' ls']].
    apply preserves_bind; [|intros; apply preserves_result].
    apply preserves_modify. intros s1 Hs1. apply HP. now apply HP.
  - destruct (stamp_without_system is_init o) as [r o'].
    apply preserves_bind; [|intros; apply preserves_result].
    apply preserves_modify. intros s1 Hs1. now apply HP.
Qed.

Lemma frame_call_update_linear_system c d : preserves P (call_update_linear_system c d).
Proof.
  unfold call_update_linear_system.
  apply preserves_bind; [apply frame_log|]. intros _. apply frame_call_stamp.
Qed.

Lemma frame_call_init_linear_system c d : preserves P (call_init_linear_system c d).
Proof.
  unfold call_init_linear_system.
  apply preserves_bind; [apply frame_log|]. intros _. apply frame_call_stamp.
Qed.

Lemma frame_sum_non_linear_error cs x : forall err,
  preserves P (sum_non_linear_error cs x err).
Proof.
  induction cs as [|c cs IH]; intro err; cbn [sum_non_linear_error].
  - apply preserves_ret.
  - apply preserves_bind_get. intros s _.
    apply preserves_bind; [apply frame_deref|]. intros o.
    apply preserves_bind; [apply preserves_result|]. intros e. apply IH.
Qed.

Lemma frame_error_test : preserves P error_test.
Proof.
  unfold error_test.
  apply preserves_bind; [apply frame_the_linear_system|]. intros ls.
  apply preserves_bind_get. intros s _.
  apply preserves_bind; [apply frame_sum_non_linear_error|]. intros err.
  apply preserves_bind.
  { destruct (x ls); [apply preserves_ret|apply preserves_raise]. }
  intros norm.
  apply preserves_bind; [apply frame_log|]. intros _. apply preserves_ret.
Qed.

Lemma frame_restamp_non_linear d : preserves P (restamp_non_linear d).
Proof.
  unfold restamp_non_linear. apply preserves_bind_get. intros s _.
  apply preserves_for_each. intros c.
  apply preserves_bind; [apply frame_call_update_state|]. intros _.
  apply frame_call_update_linear_system.
Qed.

Lemma frame_solve_loop d remaining : preserves P (solve_loop d remaining).
Proof.
  induction remaining as [|remaining IH]; cbn [solve_loop].
  - apply preserves_raise.
  - apply preserves_bind; [apply frame_error_test|]. intros [|].
    + apply preserves_ret.
    + apply preserves_bind; [apply frame_restamp_non_linear|]. intros _.
      apply preserves_bind; [apply frame_linear_system_solve|]. intros _. exact IH.
Qed.

Lemma frame_solve d max_iter : preserves P (solve d max_iter).
Proof.
  unfold solve.
  apply preserves_bind; [apply frame_linear_system_solve|]. intros _.
  apply frame_solve_loop.
Qed.

Lemma frame_update_lc d : preserves P (update_lc d).
Proof.
  unfold update_lc. apply preserves_bind_get. intros s _.
  apply preserves_for_each. intros c.
  apply preserves_bind; [apply frame_call_update_state|]. intros _.
  apply frame_call_update_linear_system.
Qed.

Lemma frame_init_all d : preserves P (init_all d).
Proof.
  unfold init_all. apply preserves_bind_get. intros s _.
  apply preserves_for_each. intros c. apply frame_call_init_linear_system.
Qed.

End DriverFrames.

(** ** The drivers: which exceptions a call can raise *)


Lemma never_ret {E S A} (e0 : E) (a : A) : never_raises e0 (@ret E S A a).
Proof. intros s. discriminate. Qed.

Lemma never_get {E S} (e0 : E) : never_raises e0 (@get E S).
Proof. intros s. discriminate. Qed.

Lemma never_modify {E S} (e0 : E) (f : S -> S) : never_raises e0 (@modify E S f).
Proof. intros s. discriminate. Qed.

Lemma never_raise_other {E S A} (e0 e : E) : e <> e0 -> never_raises e0 (@raise E S A e).
Proof. intros Hne s. cbn. congruence. Qed.

Lemma never_bind {E S A B} (e0 : E) (m : M E S A) (k : A -> M E S B) :
  never_raises e0 m -> (forall a, never_raises e0 (k a)) -> never_raises e0 (bind m k).
Proof.
  intros Hm Hk s. unfold bind. specialize (Hm s).
  destruct (m s) as [[a|e] s1]; cbn in *; [apply Hk|].
  intro Heq. apply Hm. injection Heq as ->. reflexivity.
Qed.

Lemma never_for_each {E S A} (e0 : E) (l : list A) (body : A -> M E S unit) :
  (forall a, never_raises e0 (body a)) -> never_raises e0 (for_each l body).
Proof.
  intro Hb. induction l as [|a l IH]; cbn [for_each].
  - apply never_ret.
  - apply never_bind; [apply Hb|]. intros _. exact IH.
Qed.

Lemma never_lift_res {S A} (e0 : exn) (r : res cexn A) :
  loop_marker e0 -> never_raises e0 (fun s : S => (lift_res r, s)).
Proof. intros [->| ->] s; destruct r; cbn; discriminate. Qed.

Ltac marker_other He0 := destruct He0; subst; discriminate.

Section DriverExceptions.
Context {K : Type} `{Backend K}.

Variable e0 : exn.
Hypothesis He0 : loop_marker e0.

Local Abbreviation no_nc := (never_raises e0).

Lemma no_nc_the_linear_system : no_nc (@the_linear_system K).
Proof.
  unfold the_linear_system. apply never_bind; [apply never_get|]. intros s.
  destruct (linear_system s); [apply never_ret|apply never_raise_other; marker_other He0].
Qed.

Lemma no_nc_linear_system_solve : no_nc linear_system_solve.
Proof.
  unfold linear_system_solve.
  apply never_bind; [apply no_nc_the_linear_system|]. intros ls.
  apply never_bind; [apply never_modify|]. intros _.
  destruct (solver ls) as [x'|[x'|]].
  - apply never_modify.
  - apply never_bind; [apply never_modify|]. intros _.
    apply never_raise_other; marker_other He0.
  - apply never_raise_other; marker_other He0.
Qed.

Lemma no_nc_deref all c : no_nc (@deref (Circuit K) all c).
Proof.
  unfold deref. destruct (nth_error all c);
    [apply never_ret|apply never_raise_other; marker_other He0].
Qed.

Lemma no_nc_call_update_state c : no_nc (call_update_state c).
Proof.
  unfold call_update_state.
  apply never_bind; [apply no_nc_the_linear_system|]. intros ls.
  apply never_bind; [apply never_get|]. intros s.
  apply never_bind; [apply no_nc_deref|]. intros o.
  apply never_bind; [apply never_modify|]. intros _.
  destruct (update_state (x ls) (variable_names_dict (circuit_components s)) o) as [r o'].
  apply never_bind; [apply never_modify|]. intros _. apply never_lift_res, He0.
Qed.

Lemma no_nc_call_stamp is_init c d : no_nc (call_stamp is_init c d).
Proof.
  unfold call_stamp.
  apply never_bind; [apply never_get|]. intros s.
  apply never_bind; [apply no_nc_deref|]. intros o.
  destruct (linear_system s) as [ls|].
  - destruct ((if is_init then init_linear_system else update_linear_system)
                (variable_names_dict (circuit_components s)) d (o, ls)) as [r [o' ls']].
    apply never_bind; [apply never_modify|]. intros _. apply never_lift_res, He0.
  - destruct (stamp_without_system is_init o) as [r o'].
    apply never_bind; [apply never_modify|]. intros _. apply never_lift_res, He0.
Qed.

Lemma no_nc_call_update_linear_system c d : no_nc (call_update_linear_system c d).
Proof.
  unfold call_update_linear_system.
  apply never_bind; [apply never_modify|]. intros _. apply no_nc_call_stamp.
Qed.

Lemma no_nc_restamp_non_linear d : no_nc (restamp_non_linear d).
Proof.
  unfold restamp_non_linear. apply never_bind; [apply never_get|]. intros s.
  apply never_for_each. intros c.
  apply never_bind; [apply no_nc_call_update_state|]. intros _.
  apply no_nc_call_update_linear_system.
Qed.

Lemma no_nc_newton_round d : no_nc (newton_round d).
Proof.
  unfold newton_round.
  apply never_bind; [apply no_nc_restamp_non_linear|]. intros _.
  apply no_nc_linear_system_solve.
Qed.

Lemma no_nc_sum_non_linear_error cs x : forall err, no_nc (sum_non_linear_error cs x err).
Proof.
  induction cs as [|c cs IH]; intro err; cbn [sum_non_linear_error].
  - apply never_ret.
  - apply never_bind; [apply never_get|]. intros s.
    apply never_bind; [apply no_nc_deref|]. intros o.
    apply never_bind; [apply never_lift_res, He0|]. intros e. apply IH.
Qed.

Lemma no_nc_error_test : no_nc error_test.
Proof.
  unfold error_test.
  apply never_bind; [apply no_nc_the_linear_system|]. intros ls.
  apply never_bind; [apply never_get|]. intros s.
  apply never_bind; [apply no_nc_sum_non_linear_error|]. intros err.
  apply never_bind.
  { destruct (x ls); [apply never_ret|apply never_raise_other; marker_other He0]. }
  intros norm.
  apply never_bind; [apply never_modify|]. intros _. apply never_ret.
Qed.

End DriverExceptions.

(** ** Circuit.solve *)

Lemma max_err_of_max (err norm : Q) :
  Qltb err (max_err_of norm) = true <-> err < Qmax tol_1e_6 (tol_1e_3 * norm).
Proof.
  rewrite Qltb_lt, Q.max_lt_iff. unfold max_err_of.
  destruct (Qltb (norm * tol_1e_3) tol_1e_6) eqn:E.
  - apply Qltb_lt in E. split; [intro Hl; now left|].
    intros [Hl|Hl]; [exact Hl|]. lra.
  - apply Qltb_ge in E. split; [intro Hl; right; lra|].
    intros [Hl|Hl]; lra.
Qed.

Lemma max_err_of_positive (norm : Q) : 0 < max_err_of norm.
Proof.
  unfold max_err_of. destruct (Qltb (norm * tol_1e_3) tol_1e_6) eqn:E.
  - reflexivity.
  - apply Qltb_ge in E. unfold tol_1e_6 in E. lra.
Qed.

Section SolveProperties.
Context {K : Type} `{Backend K}.

Lemma sum_non_linear_error_state cs x : forall err (s : Circuit K),
  snd (sum_non_linear_error cs x err s) = s.
Proof.
  induction cs as [|c cs IH]; intros err s; cbn [sum_non_linear_error]; [reflexivity|].
  unfold bind, get, deref.
  destruct (nth_error (all_components (circuit_components s)) c) as [o|]; [|reflexivity].
  cbn.
  destruct (calculate_dc_bias_error o x (variable_names_dict (circuit_components s)));
    cbn; try reflexivity.
  apply IH.
Qed.

(** What a test that returns has computed. *)
Lemma error_test_inv (s : Circuit K) b s' :
  error_test s = (Ok b, s') ->
  exists ls xs err,
    linear_system s = Some ls /\ x ls = Some xs
    /\ sum_non_linear_error (non_linear (circuit_components s)) (Some xs) 0 s = (Ok err, s)
    /\ b = Qltb err (max_err_of (norm1 xs))
    /\ s' = set_trace s (trace s ++ [EvErrorTest b]).
Proof.
  unfold error_test, the_linear_system, bind, get, ret, raise, log, modify.
  destruct (linear_system s) as [ls|] eqn:Els; [|discriminate].
  pose proof (sum_non_linear_error_state (non_linear (circuit_components s)) (x ls) 0 s) as Hst.
  destruct (x ls) as [xs|] eqn:Ex.
  - destruct (sum_non_linear_error (non_linear (circuit_components s)) (Some xs) 0 s)
      as [[err|e] s1] eqn:Esum; cbn in Hst; subst s1; try discriminate.
    intro Hr. injection Hr as <- <-.
    exists ls, xs, err. repeat split; try reflexivity; assumption.
  - destruct (sum_non_linear_error (non_linear (circuit_components s)) None 0 s)
      as [[err|e] s1]; discriminate.
Qed.

Lemma linear_system_solve_inv (s : Circuit K) s' :
  linear_system_solve s = (Ok tt, s') ->
  exists ls xs,
    linear_system s = Some ls /\ solver ls = Solved xs
    /\ s' = set_linear_system (set_trace s (trace s ++ [EvLinearSolve]))
              (Some (mkLS (sparse ls) (dim ls) (A ls) (b ls) (Some xs))).
Proof.
  unfold linear_system_solve, the_linear_system, bind, get, ret, raise, log, modify.
  destruct (linear_system s) as [ls|] eqn:Els; [|discriminate].
  destruct (solver ls) as [xs|[xs|]] eqn:Es; try discriminate.
  intro Hr. injection Hr as <-.
  exists ls, xs. repeat split; try reflexivity; assumption.
Qed.

Lemma linear_system_solve_run (s : Circuit K) ls xs :
  linear_system s = Some ls -> solver ls = Solved xs ->
  linear_system_solve s
  = (Ok tt, set_linear_system (set_trace s (trace s ++ [EvLinearSolve]))
              (Some (mkLS (sparse ls) (dim ls) (A ls) (b ls) (Some xs)))).
Proof.
  intros Els Es.
  unfold linear_system_solve, the_linear_system, bind, get, ret, log, modify.
  rewrite Els, Es. reflexivity.
Qed.

Lemma call_stamp_trace is_init c d (s : Circuit K) :
  trace (snd (call_stamp is_init c d s)) = trace s.
Proof.
  unfold call_stamp, bind, get, deref, modify.
  destruct (nth_error (all_components (circuit_components s)) c) as [o|]; [|reflexivity].
  cbn. destruct (linear_system s) as [ls|].
  - destruct ((if is_init then init_linear_system else update_linear_system)
                (variable_names_dict (circuit_components s)) d (o, ls)) as [r [o' ls']].
    destruct r; reflexivity.
  - destruct (stamp_without_system is_init o) as [r o']. destruct r; reflexivity.
Qed.

Lemma call_update_linear_system_trace c d (s : Circuit K) :
  trace (snd (call_update_linear_system c d s)) = trace s ++ [EvUpdateLinearSystem c d].
Proof.
  unfold call_update_linear_system, bind, log, modify.
  pose proof (call_stamp_trace false c d
                (set_trace s (trace s ++ [EvUpdateLinearSystem c d]))) as Ht.
  destruct (call_stamp false c d (set_trace s (trace s ++ [EvUpdateLinearSystem c d])))
    as [r s1].
  exact Ht.
Qed.

Lemma call_init_linear_system_trace c d (s : Circuit K) :
  trace (snd (call_init_linear_system c d s)) = trace s ++ [EvInitLinearSystem c d].
Proof.
  unfold call_init_linear_system, bind, log, modify.
  pose proof (call_stamp_trace true c d
                (set_trace s (trace s ++ [EvInitLinearSystem c d]))) as Ht.
  destruct (call_stamp true c d (set_trace s (trace s ++ [EvInitLinearSystem c d])))
    as [r s1].
  exact Ht.
Qed.

Lemma call_update_state_trace c (s : Circuit K) s' :
  call_update_state c s = (Ok tt, s') -> trace s' = trace s ++ [EvUpdateState c].
Proof.
  unfold call_update_state, the_linear_system, bind, get, deref, ret, raise, log, modify.
  destruct (linear_system s) as [ls|]; [|discriminate].
  destruct (nth_error (all_components (circuit_components s)) c) as [o|]; [|discriminate].
  cbn.
  destruct (update_state (x ls) (variable_names_dict (circuit_components s)) o) as [r o'].
  destruct r as [[]|]; cbn; intro Hr; try discriminate.
  injection Hr as <-. reflexivity.
Qed.

(** A restamping pass that returns has called [update_state] and then
    [update_linear_system] on every component of the list, in order. *)
Lemma restamp_trace d (l : list nat) : forall (s s' : Circuit K),
  for_each l (fun c => call_update_state c ;; call_update_linear_system c d) s = (Ok tt, s') ->
  trace s' = trace s
             ++ flat_map (fun c => [EvUpdateState c; EvUpdateLinearSystem c d]) l.
Proof.
  induction l as [|c l IH]; intros s s' Hr; cbn [for_each flat_map] in *.
  - injection Hr as <-. now rewrite app_nil_r.
  - apply bind_Ok_inv in Hr. destruct Hr as ([] & s2 & Hbody & Hrest).
    apply bind_Ok_inv in Hbody. destruct Hbody as ([] & s1 & Hus & Hul).
    apply call_update_state_trace in Hus.
    pose proof (call_update_linear_system_trace c d s1) as Ht. rewrite Hul in Ht.
    cbn [snd] in Ht.
    rewrite (IH _ _ Hrest), Ht, Hus, <- !app_assoc. reflexivity.
Qed.

Lemma non_linear_frame nl :
  driver_frame (fun s : Circuit K => non_linear (circuit_components s) = nl).
Proof. split; [|split]; intros s v Hs; exact Hs. Qed.

Lemma newton_round_trace d (s s' : Circuit K) :
  newton_round d s = (Ok tt, s') ->
  non_linear (circuit_components s') = non_linear (circuit_components s)
  /\ trace s' = trace s
                ++ flat_map (fun c => [EvUpdateState c; EvUpdateLinearSystem c d])
                     (non_linear (circuit_components s))
                ++ [EvLinearSolve].
Proof.
  intro Hr. split.
  - pose proof (frame_solve_loop _ (non_linear_frame (non_linear (circuit_components s)))) as _.
    assert (Hp : preserves (fun s0 : Circuit K =>
                              non_linear (circuit_components s0)
                              = non_linear (circuit_components s)) (newton_round d)).
    { unfold newton_round. apply preserves_bind.
      - apply frame_restamp_non_linear, non_linear_frame.
      - intros _. apply frame_linear_system_solve, non_linear_frame. }
    specialize (Hp s eq_refl). rewrite Hr in Hp. exact Hp.
  - unfold newton_round in Hr.
    apply bind_Ok_inv in Hr. destruct Hr as ([] & s1 & Hre & Hso).
    unfold restamp_non_linear in Hre. unfold bind at 1 in Hre. unfold get at 1 in Hre.
    apply restamp_trace in Hre.
    apply linear_system_solve_inv in Hso. destruct Hso as (ls & xs & _ & _ & ->).
    cbn [trace set_linear_system set_trace]. rewrite Hre, <- app_assoc. reflexivity.
Qed.

(** The trace of [k] failed tests, each followed by its round. *)
Lemma newton_run_trace d k (s s' : Circuit K) :
  newton_run d k s s' ->
  non_linear (circuit_components s') = non_linear (circuit_components s)
  /\ trace s' = trace s
                ++ concat (repeat (round_events d (non_linear (circuit_components s))) k).
Proof.
  induction 1 as [s|k s s1 s2 s3 Htest Hround Hrun [IHnl IHtr]].
  - split; [reflexivity|]. cbn. now rewrite app_nil_r.
  - apply error_test_inv in Htest. destruct Htest as (ls & xs & err & _ & _ & _ & _ & ->).
    apply newton_round_trace in Hround. destruct Hround as [Hnl Htr].
    cbn [trace set_trace circuit_components] in Hnl, Htr.
    split; [congruence|].
    rewrite IHtr, Htr, Hnl. cbn [repeat concat]. unfold round_events.
    rewrite <- !app_assoc. reflexivity.
Qed.

Lemma solve_loop_returns d : forall max_iter (s s' : Circuit K),
  solve_loop d max_iter s = (Ok tt, s') <->
  exists k s1, (k < max_iter)%nat /\ newton_run d k s s1 /\ error_test s1 = (Ok true, s').
Proof.
  induction max_iter as [|n IH]; intros s s'; cbn [solve_loop].
  - split; [discriminate|]. intros (k & s1 & Hk & _). lia.
  - unfold bind at 1.
    destruct (error_test s) as [[[|]|e] s1] eqn:Et.
    + (* the test passes *)
      split.
      * intro Hr. injection Hr as <-. exists 0%nat, s. repeat split;
          [lia|constructor|exact Et].
      * intros (k & s2 & Hk & Hrun & Ht). inversion Hrun; subst.
        -- rewrite Et in Ht. injection Ht as <-. reflexivity.
        -- congruence.
    + (* the test fails: one round, then the loop again *)
      fold (newton_round d).
      assert (Hstep : (restamp_non_linear d ;; linear_system_solve ;; solve_loop d n) s1
                      = match newton_round d s1 with
                        | (Ok _, s2) => solve_loop d n s2
                        | (Raise e, s2) => (Raise e, s2)
                        end).
      { unfold newton_round, bind.
        destruct (restamp_non_linear d s1) as [[[]|e] s2]; try reflexivity. }
      rewrite Hstep. clear Hstep.
      destruct (newton_round d s1) as [[[]|e] s2] eqn:Er.
      * rewrite IH. split.
        -- intros (k & s3 & Hk & Hrun & Ht).
           exists (S k), s3. repeat split; [lia| |exact Ht].
           econstructor; eassumption.
        -- intros (k & s3 & Hk & Hrun & Ht).
           inversion Hrun as [|k0 sa sb sc sd Ht1 Hr1 Hrun1]; subst.
           ++ congruence.
           ++ rewrite Et in Ht1. injection Ht1 as <-.
              rewrite Er in Hr1. injection Hr1 as <-.
              exists k0, s3. repeat split; [lia|assumption|exact Ht].
      * split; [discriminate|].
        intros (k & s3 & Hk & Hrun & Ht). inversion Hrun; subst; congruence.
    + split; [discriminate|].
      intros (k & s3 & Hk & Hrun & Ht). inversion Hrun; subst; congruence.
Qed.

Lemma solve_loop_gives_up d : forall max_iter (s s' : Circuit K),
  solve_loop d max_iter s = (Raise NonConvergence, s') <-> newton_run d max_iter s s'.
Proof.
  induction max_iter as [|n IH]; intros s s'; cbn [solve_loop].
  - split.
    + intro Hr. injection Hr as <-. constructor.
    + intro Hrun. inversion Hrun; subst. reflexivity.
  - unfold bind at 1.
    pose proof (no_nc_error_test NonConvergence (or_introl eq_refl) s) as Hnt.
    destruct (error_test s) as [[[|]|e] s1] eqn:Et; cbn [fst] in Hnt.
    + split; [discriminate|]. intro Hrun. inversion Hrun; subst; congruence.
    + assert (Hstep : (restamp_non_linear d ;; linear_system_solve ;; solve_loop d n) s1
                      = match newton_round d s1 with
                        | (Ok _, s2) => solve_loop d n s2
                        | (Raise e, s2) => (Raise e, s2)
                        end).
      { unfold newton_round, bind.
        destruct (restamp_non_linear d s1) as [[[]|e] s2]; try reflexivity. }
      rewrite Hstep. clear Hstep.
      pose proof (no_nc_newton_round NonConvergence (or_introl eq_refl) d s1) as Hnr.
      destruct (newton_round d s1) as [[[]|e] s2] eqn:Er; cbn [fst] in Hnr.
      * rewrite IH. split.
        -- intro Hrun. econstructor; eassumption.
        -- intro Hrun. inversion Hrun as [|k0 sa sb sc sd Ht1 Hr1 Hrun1]; subst.
           rewrite Et in Ht1. injection Ht1 as <-.
           rewrite Er in Hr1. injection Hr1 as <-. assumption.
      * split.
        -- intro Hr. injection Hr as -> _. contradiction.
        -- intro Hrun. inversion Hrun; subst; congruence.
    + split.
      * intro Hr. injection Hr as -> _. contradiction.
      * intro Hrun. inversion Hrun; subst; congruence.
Qed.

End SolveProperties.

Section SolveTheorems.
Context {K : Type} `{Backend K}.

(** The running total is the sum of the absolute errors of the listed
    components, in order. *)
Lemma sum_non_linear_error_sum cs x : forall err (s : Circuit K) total s',
  sum_non_linear_error cs x err s = (Ok total, s') ->
  exists es,
    Forall2 (fun c e =>
               exists o, nth_error (all_components (circuit_components s)) c = Some o
                         /\ calculate_dc_bias_error o x
                              (variable_names_dict (circuit_components s)) = Ok e) cs es
    /\ total = fold_left Qplus (map Kabs es) err.
Proof.
  induction cs as [|c cs IH]; intros err s total s'; cbn [sum_non_linear_error].
  - intro Hr. injection Hr as <- <-. exists []. split; [constructor|reflexivity].
  - unfold bind at 1. unfold get at 1. unfold bind at 1. unfold deref.
    destruct (nth_error (all_components (circuit_components s)) c) as [o|] eqn:Eo;
      [|discriminate].
    unfold ret at 1. unfold bind at 1.
    destruct (calculate_dc_bias_error o x (variable_names_dict (circuit_components s)))
      as [e|] eqn:Ee; cbn [lift_res]; try discriminate.
    intro Hr. apply IH in Hr. destruct Hr as (es & Hall & ->).
    exists (e :: es). split; [|reflexivity].
    constructor; [|exact Hall]. now exists o.
Qed.

(** C1. [Circuit.solve] solves once and then tests the current solution:
    a test passes exactly when [err < max(1e-6, 1e-3 * Σ|x_i|)], [err]
    being the sum of [|calculate_dc_bias_error|] over the nonlinear
    components. The call returns at the first test that passes, after
    [k < max_iter] failed ones; it raises the non-convergence error exactly
    when the test fails [max_iter] times; and each failed test is followed
    by [update_state] then [update_linear_system] on every nonlinear
    component in order, and by one linear solve. *)
Theorem solve_converges_or_gives_up (d : AnalysisDescription) (max_iter : nat)
    (s : Circuit K) :
  (forall s1 passed s2, error_test s1 = (Ok passed, s2) ->
     exists ls xs es,
       linear_system s1 = Some ls /\ x ls = Some xs
       /\ Forall2 (fun c e =>
                     exists o, nth_error (all_components (circuit_components s1)) c = Some o
                               /\ calculate_dc_bias_error o (Some xs)
                                    (variable_names_dict (circuit_components s1)) = Ok e)
                  (non_linear (circuit_components s1)) es
       /\ (passed = true <->
           fold_left Qplus (map Kabs es) 0 < Qmax tol_1e_6 (tol_1e_3 * norm1 xs)))
  /\ (forall s', solve d max_iter s = (Ok tt, s') <->
        exists s0 k s1,
          linear_system_solve s = (Ok tt, s0) /\ (k < max_iter)%nat
          /\ newton_run d k s0 s1 /\ error_test s1 = (Ok true, s'))
  /\ (forall s', solve d max_iter s = (Raise NonConvergence, s') <->
        exists s0, linear_system_solve s = (Ok tt, s0) /\ newton_run d max_iter s0 s')
  /\ (forall k s0 s1, newton_run d k s0 s1 ->
        trace s1
        = trace s0 ++ concat (repeat (round_events d (non_linear (circuit_components s0))) k)).
Proof.
  split; [|split; [|split]].
  - intros s1 passed s2 Ht.
    apply error_test_inv in Ht. destruct Ht as (ls & xs & err & Hls & Hx & Hsum & Hb & _).
    apply sum_non_linear_error_sum in Hsum. destruct Hsum as (es & Hall & ->).
    exists ls, xs, es. repeat split; try assumption.
    + intros ->. apply max_err_of_max. now symmetry.
    + intro Hlt. apply max_err_of_max in Hlt. congruence.
  - intros s'. unfold solve. split.
    + intro Hr. apply bind_Ok_inv in Hr. destruct Hr as ([] & s0 & Hs0 & Hloop).
      apply solve_loop_returns in Hloop. destruct Hloop as (k & s1 & Hk & Hrun & Ht).
      now exists s0, k, s1.
    + intros (s0 & k & s1 & Hs0 & Hk & Hrun & Ht).
      unfold bind. rewrite Hs0. apply solve_loop_returns. now exists k, s1.
  - intros s'. unfold solve, bind.
    pose proof (no_nc_linear_system_solve NonConvergence (or_introl eq_refl) s) as Hn.
    destruct (linear_system_solve s) as [[[]|e] s0] eqn:Es0; cbn [fst] in Hn.
    + rewrite solve_loop_gives_up. split.
      * intro Hrun. now exists s0.
      * intros (s0' & Heq & Hrun). injection Heq as <-. exact Hrun.
    + split.
      * intro Hr. injection Hr as -> _. contradiction.
      * intros (s0' & Heq & _). discriminate.
  - intros k s0 s1 Hrun. apply (newton_run_trace d k s0 s1 Hrun).
Qed.

(** C10, amended. In a circuit with no nonlinear component whose linear
    system exists and whose linear solve succeeds, [solve] with
    [max_iter >= 1] returns after that one solve and one test, with no
    restamping: the summed error is 0, below the tolerance, which is at
    least [1e-6]. With [max_iter = 0] the same call raises the
    non-convergence error. *)
Theorem solve_linear_circuit (d : AnalysisDescription) (s : Circuit K) ls xs :
  non_linear (circuit_components s) = [] ->
  linear_system s = Some ls ->
  solver ls = Solved xs ->
  let solved_once :=
    set_linear_system (set_trace s (trace s ++ [EvLinearSolve]))
      (Some (mkLS (sparse ls) (dim ls) (A ls) (b ls) (Some xs))) in
  (forall max_iter, (1 <= max_iter)%nat ->
     solve d max_iter s
     = (Ok tt, set_trace solved_once (trace s ++ [EvLinearSolve] ++ [EvErrorTest true])))
  /\ solve d 0 s = (Raise NonConvergence, solved_once)
  /\ sum_non_linear_error (non_linear (circuit_components s)) (Some xs) 0 solved_once
     = (Ok 0, solved_once)
  /\ 0 < tol_1e_6 <= Qmax tol_1e_6 (tol_1e_3 * norm1 xs).
Proof.
  intros Hnl Hls Hsolve solved_once.
  assert (Hfirst : linear_system_solve s = (Ok tt, solved_once)).
  { apply linear_system_solve_run; assumption. }
  assert (Htest : error_test solved_once
                  = (Ok true,
                     set_trace solved_once (trace s ++ [EvLinearSolve] ++ [EvErrorTest true]))).
  { unfold error_test, the_linear_system, bind, get, ret, log, modify.
    subst solved_once.
    cbn [linear_system set_linear_system set_trace circuit_components x trace].
    rewrite Hnl. cbn [sum_non_linear_error]. unfold ret.
    assert (Hlt : Qltb 0 (max_err_of (norm1 xs)) = true).
    { apply Qltb_lt, max_err_of_positive. }
    rewrite Hlt. unfold set_trace, set_linear_system.
    cbn [trace linear_system circuit_components t start_record_time var_list_index
         time_stamps results].
    rewrite <- app_assoc. reflexivity. }
  split; [|split; [|split]].
  - intros max_iter Hm. destruct max_iter as [|n]; [lia|].
    unfold solve, bind. rewrite Hfirst. cbn [solve_loop]. unfold bind.
    rewrite Htest. reflexivity.
  - unfold solve, bind. rewrite Hfirst. reflexivity.
  - rewrite Hnl. reflexivity.
  - split; [reflexivity|]. apply Q.le_max_l.
Qed.

End SolveTheorems.

Lemma solve_linear_circuit_witness :
  let s := divider_solved in
  let ls := divider_system in
  let xs := [5 # 4] in
  let d := dc_description in
  let solved_once :=
    set_linear_system (set_trace s (trace s ++ [EvLinearSolve]))
      (Some (mkLS (sparse ls) (dim ls) (A ls) (b ls) (Some xs))) in
  (forall max_iter, (1 <= max_iter)%nat ->
     @solve Q demo_backend d max_iter s
     = (Ok tt, set_trace solved_once (trace s ++ [EvLinearSolve] ++ [EvErrorTest true])))
  /\ @solve Q demo_backend d 0 s = (Raise NonConvergence, solved_once)
  /\ @sum_non_linear_error Q demo_backend (non_linear (circuit_components s)) (Some xs) 0
       solved_once
     = (Ok 0, solved_once)
  /\ 0 < tol_1e_6 <= Qmax tol_1e_6 (tol_1e_3 * @norm1 Q demo_backend xs).
Proof.
  apply (@solve_linear_circuit Q demo_backend dc_description divider_solved divider_system
           [5 # 4]).
  - vm_compute. reflexivity.
  - vm_compute. reflexivity.
  - vm_compute. reflexivity.
Defined.

(** C10, as stated, fails: a circuit without diodes need not have a
    solution. In [R vcc a 1k; R b c 1k; vcc = 5V] no component is
    nonlinear, the assembly and the stamping succeed, and the system has
    three unknowns; its matrix is singular, so the first linear solve of
    [solve] raises, for every [max_iter], and so does [dc_analysis]. *)
Lemma diode_free_solve_raises_on_singular_system :
  fst (Circuit_init (K:=Q) 5 floating_pair floating_pair_constants) = Ok tt
  /\ non_linear (circuit_components floating_pair_stamped) = []
  /\ option_map dim (linear_system floating_pair_stamped) = Some 3%nat
  /\ (forall max_iter,
        fst (@solve Q demo_backend dc_description max_iter floating_pair_stamped)
        = Raise LinearSolveError)
  /\ fst (@dc_analysis Q demo_backend "dense" 40 floating_pair_circuit)
     = Raise LinearSolveError.
Proof.
  split; [vm_compute; reflexivity|]. split; [vm_compute; reflexivity|].
  split; [vm_compute; reflexivity|]. split; [|vm_compute; reflexivity].
  intros max_iter. unfold solve, bind.
  assert (Hfirst : fst (@linear_system_solve Q demo_backend floating_pair_stamped)
                   = Raise LinearSolveError) by (vm_compute; reflexivity).
  destruct (@linear_system_solve Q demo_backend floating_pair_stamped) as [[[]|e] s1];
    cbn [fst] in *; [discriminate Hfirst|].
  injection Hfirst as ->. reflexivity.
Qed.

(** ** The transient loop *)

Section TransientProperties.
Context {K : Type} `{Backend K}.

Lemma clock_frame_driver_frame (P : Circuit K -> Prop) : clock_frame P -> driver_frame P.
Proof.
  intros (Hcc & Hls & Htr & _). repeat split; intros s v Hs;
    [apply Hcc|apply Hls|apply Htr]; exact Hs.
Qed.

Lemma frame_x_entry (P : Circuit K -> Prop) x i : preserves P (x_entry x i).
Proof.
  unfold x_entry. destruct x as [l|]; [|apply preserves_raise].
  destruct (nth_error l i); [apply preserves_ret|apply preserves_raise].
Qed.

Lemma frame_results_append (P : Circuit K -> Prop) i v :
  clock_frame P -> preserves P (results_append i v).
Proof.
  intros (_ & _ & _ & Hres). unfold results_append.
  apply preserves_bind_get. intros s Hs.
  destruct (nth_error (results s) i) as [series|]; [|apply preserves_raise].
  destruct (list_set (results s) i (series ++ [v])) as [rs|]; [|apply preserves_raise].
  apply preserves_put. apply Hres, Hs.
Qed.

(** Recording keeps a clock property that survives the appending of the
    current time when that time is at or after [start_record_time]. *)
Lemma frame_record_sample (P : Circuit K -> Prop) :
  clock_frame P ->
  (forall s, P s -> Qle_bool (start_record_time s) (t s) = true ->
             P (set_time_stamps s (time_stamps s ++ [t s]))) ->
  preserves P record_sample.
Proof.
  intros HP Happ s0 Hs0.
  unfold record_sample, the_linear_system. unfold bind at 1. unfold bind at 1.
  unfold get at 1.
  destruct (linear_system s0) as [ls|]; [|exact Hs0].
  unfold ret at 1. unfold bind at 1. unfold get at 1.
  destruct (Qle_bool (start_record_time s0) (t s0)) eqn:Eg; cbn [when]; [|exact Hs0].
  unfold bind at 1. unfold modify at 1.
  apply preserves_for_each; [|apply Happ; assumption].
  intros i.
  destruct (nth_error (var_list_index s0) i) as [var_index|]; [|apply preserves_raise].
  apply preserves_bind; [apply frame_x_entry|]. intros v.
  apply frame_results_append, HP.
Qed.

(** From [P], [m] keeps [P] and whatever follows establishes [R]. *)
Lemma bind_establishes {E S A B} (P R : S -> Prop) (m : M E S A) (k : A -> M E S B) :
  preserves P m -> (forall s, P s -> R s) -> (forall a s, P s -> R (snd (k a s))) ->
  forall s, P s -> R (snd (bind m k s)).
Proof.
  intros Hm HPR Hk s Hs. unfold bind. specialize (Hm s Hs).
  destruct (m s) as [[a|e] s1]; cbn in *; [apply Hk, Hm|apply HPR, Hm].
Qed.

Lemma recorded_clock_frame srt end_time ts0 :
  clock_frame (fun s : Circuit K => recorded_within srt end_time ts0 s /\ t s < end_time).
Proof. split; [|split; [|split]]; intros s v Hs; exact Hs. Qed.

Lemma recorded_only_clock_frame srt end_time ts0 :
  clock_frame (fun s : Circuit K => recorded_within srt end_time ts0 s).
Proof. split; [|split; [|split]]; intros s v Hs; exact Hs. Qed.

Lemma advance_time_state end_time time_step d (s : Circuit K) :
  exists t', snd (advance_time end_time time_step d s) = set_t s t'.
Proof.
  unfold advance_time, bind, get, put, ret.
  destruct (Qltb (t s + 2 * time_step) end_time); [eexists; reflexivity|].
  destruct (Qle_bool end_time (t s + time_step)); eexists; reflexivity.
Qed.

Lemma transient_loop_records srt end_time ts0 time_step max_iter :
  forall fuel d (s : Circuit K),
  recorded_within srt end_time ts0 s ->
  recorded_within srt end_time ts0 (snd (transient_loop fuel end_time time_step max_iter d s)).
Proof.
  induction fuel as [|fuel IH]; intros d s Hs; cbn [transient_loop];
    unfold bind at 1; unfold get at 1.
  - destruct (Qltb (t s) end_time); exact Hs.
  - destruct (Qltb (t s) end_time) eqn:Et; [|exact Hs].
    apply Qltb_lt in Et.
    pose proof (recorded_clock_frame srt end_time ts0) as Hcf.
    set (P := fun s0 : Circuit K => recorded_within srt end_time ts0 s0 /\ t s0 < end_time)
      in *.
    assert (HPR : forall s0, P s0 -> recorded_within srt end_time ts0 s0)
      by (intros s0 [Hr _]; exact Hr).
    apply (bind_establishes P); [|exact HPR| |split; assumption].
    { apply frame_solve, clock_frame_driver_frame, Hcf. }
    intros _. apply (bind_establishes P); [|exact HPR|].
    { apply frame_record_sample; [exact Hcf|].
      intros s0 [[Hsrt (app & Hts & Hall)] Hlt] Hg.
      split; [|exact Hlt]. split; [exact Hsrt|].
      exists (app ++ [t s0]). cbn [time_stamps set_time_stamps].
      split; [rewrite Hts, app_assoc; reflexivity|].
      apply Forall_app. split; [exact Hall|]. constructor; [|constructor].
      split; [|exact Hlt].
      apply Qle_bool_iff in Hg. cbn [start_record_time set_time_stamps] in *.
      rewrite <- Hsrt. exact Hg. }
    intros _. apply (bind_establishes P); [|exact HPR|].
    { apply frame_update_lc, clock_frame_driver_frame, Hcf. }
    intros _ s1 [Hs1 _].
    unfold bind.
    destruct (advance_time_state end_time time_step d s1) as [t' Hadv].
    destruct (advance_time end_time time_step d s1) as [[d'|e] s2]; cbn [snd] in Hadv;
      subst s2; cbn [snd]; try exact Hs1.
    apply IH. exact Hs1.
Qed.

(** C9. Every time stamp that one call of [continue_transient_simulation]
    appends lies in [[start_record_time, end_time)], where
    [end_time = t + run_time] at the start of the call: nothing is recorded
    before [start_record_time], and nothing at [end_time] itself. *)
Theorem transient_records_within_window (fuel : nat) (run_time : Q) (time_step : option Q)
    (max_iter : nat) (s : Circuit K) :
  let end_time := t s + run_time in
  let r := continue_transient_simulation fuel run_time time_step max_iter s in
  start_record_time (snd r) = start_record_time s
  /\ exists appended,
       time_stamps (snd r) = time_stamps s ++ appended
       /\ Forall (fun ts => start_record_time s <= ts /\ ts < end_time) appended.
Proof.
  cbv zeta.
  set (P := fun s0 : Circuit K =>
              recorded_within (start_record_time s) (t s + run_time) (time_stamps s) s0).
  change (P (snd (continue_transient_simulation fuel run_time time_step max_iter s))).
  pose proof (recorded_only_clock_frame (start_record_time s) (t s + run_time)
                (time_stamps s)) as Hcf.
  assert (Hs : P s).
  { split; [reflexivity|]. exists []. split; [now rewrite app_nil_r|constructor]. }
  unfold continue_transient_simulation. unfold bind at 1. unfold get at 1.
  apply (bind_establishes P P); [| | |exact Hs].
  - apply preserves_for_each. intros c.
    apply frame_call_update_linear_system, clock_frame_driver_frame, Hcf.
  - intros s1 Hs1. exact Hs1.
  - intros _ s1 Hs1.
    apply (bind_establishes P P); [| | |exact Hs1].
    + apply preserves_modify. intros s2 Hs2. apply Hcf, Hs2.
    + intros s2 Hs2. exact Hs2.
    + intros _ s2 Hs2.
      apply (bind_establishes P P); [| | |exact Hs2].
      * intros s3 Hs3. apply transient_loop_records. exact Hs3.
      * intros s3 Hs3. exact Hs3.
      * intros _ s3 Hs3. exact Hs3.
Qed.

(** [m] raises neither [e0] nor leaves [P]; what follows satisfies [R]. *)
Lemma bind_post {E S A B} (e0 : E) (P : S -> Prop) (R : res E B * S -> Prop)
    (m : M E S A) (k : A -> M E S B) (s : S) :
  never_raises e0 m -> preserves P m -> P s ->
  (forall e s1, e <> e0 -> P s1 -> R (Raise e, s1)) ->
  (forall a s1, P s1 -> R (k a s1)) ->
  R (bind m k s).
Proof.
  intros Hn Hp Hs Hraise Hk. unfold bind.
  specialize (Hn s). specialize (Hp s Hs).
  destruct (m s) as [[a|e] s1]; cbn [fst snd] in *.
  - apply Hk, Hp.
  - apply Hraise; [|exact Hp]. intros ->. now apply Hn.
Qed.

Lemma no_fuel_solve d max_iter : never_raises OutOfFuel (solve (K:=K) d max_iter).
Proof.
  assert (Hm : loop_marker OutOfFuel) by (right; reflexivity).
  unfold solve. apply never_bind; [apply no_nc_linear_system_solve, Hm|]. intros _.
  induction max_iter as [|n IH]; cbn [solve_loop].
  - apply never_raise_other. discriminate.
  - apply never_bind; [apply no_nc_error_test, Hm|]. intros [|]; [apply never_ret|].
    apply never_bind; [apply no_nc_restamp_non_linear, Hm|]. intros _.
    apply never_bind; [apply no_nc_linear_system_solve, Hm|]. intros _. exact IH.
Qed.

Lemma no_fuel_x_entry x i : never_raises OutOfFuel (x_entry (K:=K) x i).
Proof.
  unfold x_entry. destruct x as [l|]; [|apply never_raise_other; discriminate].
  destruct (nth_error l i); [apply never_ret|apply never_raise_other; discriminate].
Qed.

Lemma no_fuel_record_sample : never_raises OutOfFuel (record_sample (K:=K)).
Proof.
  assert (Hm : loop_marker OutOfFuel) by (right; reflexivity).
  unfold record_sample.
  apply never_bind; [apply no_nc_the_linear_system, Hm|]. intros ls.
  apply never_bind; [apply never_get|]. intros s.
  destruct (Qle_bool (start_record_time s) (t s)); cbn [when]; [|apply never_ret].
  apply never_bind; [apply never_modify|]. intros _.
  apply never_for_each. intros i.
  destruct (nth_error (var_list_index s) i); [|apply never_raise_other; discriminate].
  apply never_bind; [apply no_fuel_x_entry|]. intros v.
  unfold results_append. apply never_bind; [apply never_get|]. intros s1.
  destruct (nth_error (results s1) i) as [series|]; [|apply never_raise_other; discriminate].
  destruct (list_set (results s1) i (series ++ [v]));
    [intros s2; discriminate|apply never_raise_other; discriminate].
Qed.

Lemma no_fuel_update_lc d : never_raises OutOfFuel (update_lc (K:=K) d).
Proof.
  assert (Hm : loop_marker OutOfFuel) by (right; reflexivity).
  unfold update_lc. apply never_bind; [apply never_get|]. intros s.
  apply never_for_each. intros c.
  apply never_bind; [apply no_nc_call_update_state, Hm|]. intros _.
  apply no_nc_call_update_linear_system, Hm.
Qed.

Lemma clock_only_frame (t0 : Q) : clock_frame (fun s : Circuit K => t s = t0).
Proof. split; [|split; [|split]]; intros s v Hs; exact Hs. Qed.

(** The three ways a pass of the loop advances the time. *)
Lemma advance_time_cases (end_time dt : Q) (d : AnalysisDescription) (s1 : Circuit K) :
  (t s1 + 2 * dt < end_time ->
   advance_time end_time dt d s1 = (Ok d, set_t s1 (t s1 + dt)))
  /\ (~ t s1 + 2 * dt < end_time -> end_time <= t s1 + dt ->
      advance_time end_time dt d s1
      = (Ok (mkAD (mode d) (end_time - t s1) (w d)), set_t s1 end_time))
  /\ (~ t s1 + 2 * dt < end_time -> ~ end_time <= t s1 + dt ->
      advance_time end_time dt d s1
      = (Ok (mkAD (mode d) ((end_time - t s1) / 2) (w d)),
         set_t s1 (t s1 + (end_time - t s1) / 2))).
Proof.
  unfold advance_time, bind, get, put, ret.
  destruct (Qltb (t s1 + 2 * dt) end_time) eqn:E1.
  - apply Qltb_lt in E1. split; [reflexivity|]. split; intros Hn; contradiction.
  - apply Qltb_ge in E1.
    destruct (Qle_bool end_time (t s1 + dt)) eqn:E2.
    + apply Qle_bool_iff in E2. split; [intro Hl; lra|].
      split; [reflexivity|]. intros _ Hn. contradiction.
    + assert (Hn2 : ~ end_time <= t s1 + dt).
      { intro Hle. apply Qle_bool_iff in Hle. congruence. }
      split; [intro Hl; lra|]. split; [intros _ Hle; contradiction|reflexivity].
Qed.

Lemma inject_nat_succ (n : nat) :
  inject_Z (Z.of_nat (S n)) == inject_Z (Z.of_nat n) + 1.
Proof. rewrite Nat2Z.inj_succ, <- Z.add_1_r, inject_Z_plus. reflexivity. Qed.

(** With [n + 1] passes of fuel for a remaining time of at most [n] steps,
    the loop ends, and when it returns the time is [end_time]. *)
Lemma transient_loop_lands (end_time dt : Q) (max_iter : nat) :
  0 < dt ->
  forall fuel n d (s : Circuit K),
  (n + 1 <= fuel)%nat ->
  end_time - t s <= inject_Z (Z.of_nat n) * dt ->
  let r := transient_loop fuel end_time dt max_iter d s in
  fst r <> Raise OutOfFuel
  /\ (fst r = Ok tt ->
      (t s < end_time -> t (snd r) = end_time) /\ (end_time <= t s -> t (snd r) = t s)).
Proof.
  intros Hdt. induction fuel as [|fuel IH]; intros n d s Hfuel Hrem; [lia|].
  cbv zeta.
  assert (Hstep : transient_loop (S fuel) end_time dt max_iter d s
                  = if Qltb (t s) end_time
                    then (solve d max_iter ;; record_sample ;; update_lc d ;;
                          analysis_description' <- advance_time end_time dt d ;;
                          transient_loop fuel end_time dt max_iter analysis_description') s
                    else (Ok tt, s)).
  { cbn [transient_loop]. unfold bind at 1. unfold get at 1. cbv beta iota.
    destruct (Qltb (t s) end_time); reflexivity. }
  rewrite Hstep. clear Hstep.
  destruct (Qltb (t s) end_time) eqn:Et.
  2:{ apply Qltb_ge in Et. cbn. split; [discriminate|]. intros _.
      split; [intro Hl; lra|reflexivity]. }
  apply Qltb_lt in Et.
  pose proof (clock_only_frame (t s)) as Hcf.
  set (R := fun r : res exn unit * Circuit K =>
              fst r <> Raise OutOfFuel
              /\ (fst r = Ok tt ->
                  (t s < end_time -> t (snd r) = end_time)
                  /\ (end_time <= t s -> t (snd r) = t s))).
  assert (Hraise : forall e (s1 : Circuit K), e <> OutOfFuel -> t s1 = t s -> R (Raise e, s1)).
  { intros e s1 He _. split; cbn; [congruence|discriminate]. }
  change (R ((solve d max_iter ;; record_sample ;; update_lc d ;;
              analysis_description' <- advance_time end_time dt d ;;
              transient_loop fuel end_time dt max_iter analysis_description') s)).
  apply (bind_post OutOfFuel (fun s0 => t s0 = t s)); try exact Hraise; try reflexivity.
  { apply no_fuel_solve. }
  { apply frame_solve, clock_frame_driver_frame, Hcf. }
  intros _ s1 Hs1.
  apply (bind_post OutOfFuel (fun s0 => t s0 = t s)); try exact Hraise; try exact Hs1.
  { apply no_fuel_record_sample. }
  { apply frame_record_sample; [exact Hcf|]. intros s0 Hs0 _. exact Hs0. }
  intros _ s2 Hs2.
  apply (bind_post OutOfFuel (fun s0 => t s0 = t s)); try exact Hraise; try exact Hs2.
  { apply no_fuel_update_lc. }
  { apply frame_update_lc, clock_frame_driver_frame, Hcf. }
  intros _ s3 Hs3.
  (* the time advances *)
  destruct (advance_time_cases end_time dt d s3) as (Hnormal & Hfinal & Hhalf).
  rewrite Hs3 in Hnormal, Hfinal, Hhalf.
  unfold bind.
  destruct (Qlt_le_dec (t s + 2 * dt) end_time) as [Hl|Hge].
  - (* a standard step *)
    rewrite (Hnormal Hl).
    destruct n as [|n'].
    { exfalso. change (inject_Z (Z.of_nat 0)) with 0 in Hrem. lra. }
    rewrite inject_nat_succ in Hrem.
    destruct (IH n' d (set_t s3 (t s + dt))) as [Hnf Hok]; [lia|cbn [t set_t]; nra|].
    split; [exact Hnf|]. intro Hr. destruct (Hok Hr) as [Hlt _].
    split; [intros _; apply Hlt; cbn [t set_t]; lra|intro Hle; lra].
  - assert (Hnl : ~ t s + 2 * dt < end_time) by (intro Hl; lra).
    destruct (Qlt_le_dec (t s + dt) end_time) as [Hl1|Hge1].
    + (* the second last step *)
      assert (Hnle : ~ end_time <= t s + dt) by (intro Hle; lra).
      rewrite (Hhalf Hnl Hnle).
      assert (Hmid : (end_time - t s) / 2 == (end_time - t s) * (1 # 2)).
      { unfold Qdiv. change (/ 2) with (1 # 2). reflexivity. }
      destruct n as [|[|n']].
      { exfalso. change (inject_Z (Z.of_nat 0)) with 0 in Hrem. lra. }
      { exfalso. change (inject_Z (Z.of_nat 1)) with 1 in Hrem. lra. }
      destruct (IH 1%nat (mkAD (mode d) ((end_time - t s) / 2) (w d))
                  (set_t s3 (t s + (end_time - t s) / 2))) as [Hnf Hok];
        [lia|cbn [t set_t]; change (inject_Z (Z.of_nat 1)) with 1; rewrite Hmid; lra|].
      split; [exact Hnf|]. intro Hr. destruct (Hok Hr) as [Hlt _].
      split; [intros _; apply Hlt; cbn [t set_t]; rewrite Hmid; lra|intro Hle; lra].
    + (* the final step *)
      rewrite (Hfinal Hnl Hge1).
      destruct n as [|n'].
      { exfalso. change (inject_Z (Z.of_nat 0)) with 0 in Hrem. lra. }
      destruct (IH 0%nat (mkAD (mode d) (end_time - t s) (w d)) (set_t s3 end_time))
        as [Hnf Hok]; [lia|cbn [t set_t]; change (inject_Z (Z.of_nat 0)) with 0; lra|].
      split; [exact Hnf|]. intro Hr. destruct (Hok Hr) as [_ Hge2].
      split; [intros _; apply Hge2; cbn [t set_t]; lra|intro Hle; lra].
Qed.

Lemma transient_fuel_covers (run_time dt : Q) :
  0 < run_time -> 0 < dt ->
  run_time <= inject_Z (Z.of_nat (Z.to_nat (Qceiling (run_time / dt)))) * dt.
Proof.
  intros Hr Hdt.
  assert (Hx : 0 < run_time / dt).
  { apply Qlt_shift_div_l; [exact Hdt|]. lra. }
  pose proof (Qle_ceiling (run_time / dt)) as Hc.
  assert (Hpos : (0 <= Qceiling (run_time / dt))%Z).
  { destruct (Z.le_gt_cases 0 (Qceiling (run_time / dt))) as [Hle|Hgt]; [exact Hle|].
    exfalso.
    assert (Hneg : inject_Z (Qceiling (run_time / dt)) <= 0).
    { change 0 with (inject_Z 0). rewrite <- Zle_Qle. lia. }
    lra. }
  rewrite Z2Nat.id by exact Hpos.
  assert (Heq : run_time == run_time / dt * dt).
  { field. intro Hz. rewrite Hz in Hdt. apply (Qlt_irrefl 0 Hdt). }
  rewrite Heq at 1.
  apply Qmult_le_compat_r; [exact Hc|]. lra.
Qed.

(** C2. In [continue_transient_simulation] with [run_time > 0] and a time
    step [dt > 0], every pass of the loop that reaches its end advances the
    time in one of three ways: by [dt] (time step of the analysis
    unchanged) when [t + 2 dt < end_time]; else to [end_time] itself, with
    the time step set to [end_time - t], when [t + dt >= end_time]; else by
    half of the remaining time, which becomes the time step. The loop ends
    within [transient_fuel run_time dt] passes, and when the call returns
    the simulation time is [end_time]. *)
Theorem transient_time_stepping (fuel : nat) (run_time dt : Q) (max_iter : nat)
    (s : Circuit K) :
  0 < run_time -> 0 < dt -> (transient_fuel run_time dt <= fuel)%nat ->
  let end_time := t s + run_time in
  (forall fuel' d (s1 : Circuit K),
     t s1 < end_time ->
     transient_loop (S fuel') end_time dt max_iter d s1
     = (solve d max_iter ;; record_sample ;; update_lc d ;;
        d' <- advance_time end_time dt d ;;
        transient_loop fuel' end_time dt max_iter d') s1)
  /\ (forall d (s1 : Circuit K),
        (t s1 + 2 * dt < end_time ->
         advance_time end_time dt d s1 = (Ok d, set_t s1 (t s1 + dt)))
        /\ (~ t s1 + 2 * dt < end_time -> end_time <= t s1 + dt ->
            advance_time end_time dt d s1
            = (Ok (mkAD (mode d) (end_time - t s1) (w d)), set_t s1 end_time))
        /\ (~ t s1 + 2 * dt < end_time -> ~ end_time <= t s1 + dt ->
            advance_time end_time dt d s1
            = (Ok (mkAD (mode d) ((end_time - t s1) / 2) (w d)),
               set_t s1 (t s1 + (end_time - t s1) / 2))))
  /\ (let r := continue_transient_simulation fuel run_time (Some dt) max_iter s in
      fst r <> Raise OutOfFuel
      /\ (forall out, fst r = Ok out -> t (snd r) = end_time)).
Proof.
  intros Hrun Hdt Hfuel end_time.
  split; [|split].
  - intros fuel' d s1 Hlt. cbn [transient_loop]. unfold bind at 1. unfold get at 1.
    cbv beta iota. apply Qltb_lt in Hlt. rewrite Hlt. reflexivity.
  - intros d s1. apply advance_time_cases.
  - cbv zeta. pose proof (clock_only_frame (t s)) as Hcf.
    assert (Hm : loop_marker OutOfFuel) by (right; reflexivity).
    set (R := fun r : res exn (list Q * list (list K)) * Circuit K =>
                fst r <> Raise OutOfFuel
                /\ (forall out, fst r = Ok out -> t (snd r) = end_time)).
    assert (Hraise : forall e (s1 : Circuit K),
               e <> OutOfFuel -> t s1 = t s -> R (Raise e, s1)).
    { intros e s1 He _. split; cbn; [congruence|intros out Ho; discriminate Ho]. }
    change (R (continue_transient_simulation fuel run_time (Some dt) max_iter s)).
    unfold continue_transient_simulation. unfold bind at 1. unfold get at 1.
    cbv beta iota. fold end_time.
    apply (bind_post OutOfFuel (fun s0 => t s0 = t s) R); try exact Hraise; try reflexivity.
    { apply never_for_each. intros c. apply no_nc_call_update_linear_system, Hm. }
    { apply preserves_for_each. intros c.
      apply frame_call_update_linear_system, clock_frame_driver_frame, Hcf. }
    intros _ s1 Hs1.
    apply (bind_post OutOfFuel (fun s0 => t s0 = t s) R); try exact Hraise; try exact Hs1.
    { apply never_modify. }
    { apply preserves_modify. intros s0 Hs0. exact Hs0. }
    intros _ s2 Hs2.
    destruct (transient_loop_lands end_time dt max_iter Hdt fuel
                (Z.to_nat (Qceiling (run_time / dt)))
                (mkAD Transient dt (w AnalysisDescription_init)) s2) as [Hnf Hok].
    { exact Hfuel. }
    { rewrite Hs2. subst end_time.
      pose proof (transient_fuel_covers run_time dt Hrun Hdt) as Hc. lra. }
    unfold bind.
    destruct (transient_loop fuel end_time dt max_iter
                (mkAD Transient dt (w AnalysisDescription_init)) s2) as [[[]|e] s3];
      cbn [fst snd] in *.
    + split; [cbn; discriminate|]. intros out _. cbn [snd].
      destruct (Hok eq_refl) as [Hlt _]. apply Hlt. rewrite Hs2. subst end_time. lra.
    + split; [|intros out Ho; discriminate Ho].
      cbn. intro Hx. apply Hnf. injection Hx as ->. reflexivity.
Qed.

End TransientProperties.

Lemma transient_time_stepping_witness :
  let s := snd rc_first_run in
  let end_time := t s + 1 in
  let r := @continue_transient_simulation Q demo_backend 5 1 (Some (3 # 10)) 40 s in
  fst r <> Raise OutOfFuel /\ (forall out, fst r = Ok out -> t (snd r) = end_time).
Proof.
  apply (@transient_time_stepping Q demo_backend 5 1 (3 # 10) 40 (snd rc_first_run)).
  - reflexivity.
  - reflexivity.
  - vm_compute. lia.
Defined.

(** The RC circuit from 0 to 1 in steps of 0.3: three standard steps, then
    half of the remaining 0.4, then the final step onto 1. The time 1 is
    recorded by the next call. *)
Example rc_time_stamps :
  option_map (fun out => map Qred (fst out))
    (match fst rc_first_run with Ok out => Some out | Raise _ => None end)
  = Some [0; 3 # 10; 3 # 5; 4 # 5]
  /\ t (snd rc_first_run) = 1
  /\ option_map (fun out => map Qred (fst out))
       (match fst (@continue_transient_simulation Q demo_backend 5 1 (Some (3 # 10)) 40
                     (snd rc_first_run))
        with Ok out => Some out | Raise _ => None end)
     = Some [0; 3 # 10; 3 # 5; 4 # 5; 1; 13 # 10; 8 # 5; 9 # 5].
Proof. vm_compute. repeat split; reflexivity. Qed.

(** ** The AC sweep *)

Section TraceProperties.
Context {K : Type} `{Backend K}.
Variable ok : event -> Prop.

Lemma logs_ret {A} (a : A) : logs_only (K:=K) ok (ret a).
Proof. intros s. exists []. split; [now rewrite app_nil_r|constructor]. Qed.

Lemma logs_raise {A} (e : exn) : logs_only (K:=K) (A:=A) ok (raise e).
Proof. intros s. exists []. split; [now rewrite app_nil_r|constructor]. Qed.

Lemma logs_result {A} (r : res exn A) : logs_only (K:=K) ok (fun s => (r, s)).
Proof. intros s. exists []. split; [now rewrite app_nil_r|constructor]. Qed.

Lemma logs_get : logs_only (K:=K) ok get.
Proof. intros s. exists []. split; [now rewrite app_nil_r|constructor]. Qed.

Lemma logs_modify (f : Circuit K -> Circuit K) :
  (forall s, trace (f s) = trace s) -> logs_only ok (modify f).
Proof.
  intros Hf s. exists []. cbn. split; [now rewrite Hf, app_nil_r|constructor].
Qed.

Lemma logs_log (e : event) : ok e -> logs_only (K:=K) ok (log e).
Proof. intros He s. exists [e]. split; [reflexivity|]. constructor; [exact He|constructor]. Qed.

Lemma logs_bind {A B} (m : M exn (Circuit K) A) (k : A -> M exn (Circuit K) B) :
  logs_only ok m -> (forall a, logs_only ok (k a)) -> logs_only ok (bind m k).
Proof.
  intros Hm Hk s. unfold bind. destruct (Hm s) as (evs & Ht & Hall).
  destruct (m s) as [[a|e] s1]; cbn [snd] in *.
  - destruct (Hk a s1) as (evs' & Ht' & Hall').
    exists (evs ++ evs'). split; [rewrite Ht', Ht, app_assoc; reflexivity|].
    apply Forall_app. now split.
  - now exists evs.
Qed.

Lemma logs_bind_ret {A B} (a : A) (k : A -> M exn (Circuit K) B) :
  logs_only ok (k a) -> logs_only ok (bind (ret a) k).
Proof. intros Hk s. exact (Hk s). Qed.

Lemma logs_for_each {A} (l : list A) (body : A -> M exn (Circuit K) unit) :
  (forall a, In a l -> logs_only ok (body a)) -> logs_only ok (for_each l body).
Proof.
  induction l as [|a l IH]; intro Hb; cbn [for_each].
  - apply logs_ret.
  - apply logs_bind; [apply Hb; now left|]. intros _.
    apply IH. intros a' Hin. apply Hb. now right.
Qed.

Lemma logs_the_linear_system : logs_only (K:=K) ok the_linear_system.
Proof.
  unfold the_linear_system. apply logs_bind; [apply logs_get|]. intros s.
  destruct (linear_system s); [apply logs_ret|apply logs_raise].
Qed.

Lemma logs_deref all c : logs_only (K:=K) ok (deref all c).
Proof. unfold deref. destruct (nth_error all c); [apply logs_ret|apply logs_raise]. Qed.

Lemma logs_call_stamp is_init c d : logs_only ok (call_stamp is_init c d).
Proof.
  intros s. exists []. rewrite call_stamp_trace. split; [now rewrite app_nil_r|constructor].
Qed.

(** What a computation logs after a first call [e]. *)
Lemma logs_after_log {A} (e : event) (m : M exn (Circuit K) A) :
  logs_only ok m ->
  forall s, exists evs,
    trace (snd ((log e ;; m) s)) = trace s ++ e :: evs /\ Forall ok evs.
Proof.
  intros Hm s. unfold bind, log, modify.
  destruct (Hm (set_trace s (trace s ++ [e]))) as (evs & Ht & Hall).
  exists evs. rewrite Ht. cbn [trace set_trace]. rewrite <- app_assoc.
  split; [reflexivity|exact Hall].
Qed.

Hypothesis ok_solve : ok EvLinearSolve.
Hypothesis ok_test : forall passed, ok (EvErrorTest passed).
Hypothesis ok_state : forall c, ok (EvUpdateState c).

Lemma logs_linear_system_solve : logs_only ok linear_system_solve.
Proof.
  unfold linear_system_solve.
  apply logs_bind; [apply logs_the_linear_system|]. intros ls.
  apply logs_bind; [apply logs_log, ok_solve|]. intros _.
  destruct (solver ls) as [x'|[x'|]].
  - apply logs_modify. reflexivity.
  - apply logs_bind; [apply logs_modify; reflexivity|]. intros _. apply logs_raise.
  - apply logs_raise.
Qed.

Lemma logs_call_update_state c : logs_only ok (call_update_state c).
Proof.
  unfold call_update_state.
  apply logs_bind; [apply logs_the_linear_system|]. intros ls.
  apply logs_bind; [apply logs_get|]. intros s.
  apply logs_bind; [apply logs_deref|]. intros o.
  apply logs_bind; [apply logs_log, ok_state|]. intros _.
  destruct (update_state (x ls) (variable_names_dict (circuit_components s)) o) as [r o'].
  apply logs_bind; [apply logs_modify; reflexivity|]. intros _. apply logs_result.
Qed.

Lemma logs_call_update_linear_system c d :
  ok (EvUpdateLinearSystem c d) -> logs_only ok (call_update_linear_system c d).
Proof.
  intro Hd. unfold call_update_linear_system.
  apply logs_bind; [apply logs_log, Hd|]. intros _. apply logs_call_stamp.
Qed.

Lemma logs_call_init_linear_system c d :
  ok (EvInitLinearSystem c d) -> logs_only ok (call_init_linear_system c d).
Proof.
  intro Hd. unfold call_init_linear_system.
  apply logs_bind; [apply logs_log, Hd|]. intros _. apply logs_call_stamp.
Qed.

Lemma logs_error_test : logs_only ok error_test.
Proof.
  unfold error_test.
  apply logs_bind; [apply logs_the_linear_system|]. intros ls.
  apply logs_bind; [apply logs_get|]. intros s.
  apply logs_bind.
  { intros s1. exists []. rewrite sum_non_linear_error_state.
    split; [now rewrite app_nil_r|constructor]. }
  intros err. apply logs_bind.
  { destruct (x ls); [apply logs_ret|apply logs_raise]. }
  intros norm. apply logs_bind; [apply logs_log, ok_test|]. intros _. apply logs_ret.
Qed.

Lemma logs_solve d max_iter :
  (forall c, ok (EvUpdateLinearSystem c d)) -> logs_only ok (solve d max_iter).
Proof.
  intro Hd. unfold solve.
  apply logs_bind; [apply logs_linear_system_solve|]. intros _.
  induction max_iter as [|n IH]; cbn [solve_loop]; [apply logs_raise|].
  apply logs_bind; [apply logs_error_test|]. intros [|]; [apply logs_ret|].
  apply logs_bind.
  { unfold restamp_non_linear. apply logs_bind; [apply logs_get|]. intros s.
    apply logs_for_each. intros c _.
    apply logs_bind; [apply logs_call_update_state|]. intros _.
    apply logs_call_update_linear_system, Hd. }
  intros _. apply logs_bind; [apply logs_linear_system_solve|]. intros _. exact IH.
Qed.

Lemma logs_init_all d :
  (forall c, ok (EvInitLinearSystem c d)) -> logs_only ok (init_all d).
Proof.
  intro Hd. unfold init_all. apply logs_bind; [apply logs_get|]. intros s.
  apply logs_for_each. intros c _. apply logs_call_init_linear_system, Hd.
Qed.

Lemma logs_x_entry x i : logs_only (K:=K) ok (x_entry x i).
Proof.
  unfold x_entry. destruct x as [l|]; [|apply logs_raise].
  destruct (nth_error l i); [apply logs_ret|apply logs_raise].
Qed.

Lemma logs_collect_data x : forall indices results,
  logs_only (K:=K) ok (collect_data x indices results).
Proof.
  intros indices results. revert indices.
  induction results as [|series results IH]; intros indices; cbn [collect_data].
  - destruct indices; apply (logs_ret (@nil (list K))).
  - destruct indices as [|i indices]; [apply logs_raise|].
    apply logs_bind; [apply logs_x_entry|]. intros v.
    apply logs_bind; [apply IH|]. intros rest. apply logs_ret.
Qed.

Lemma logs_lookup_vars vars : forall var_list,
  logs_only (K:=K) ok (lookup_vars vars var_list).
Proof.
  induction var_list as [|v rest IH]; cbn [lookup_vars].
  - apply logs_ret.
  - apply logs_bind.
    { unfold lookup_var. destruct (var_get vars v); [apply logs_ret|apply logs_raise]. }
    intros i. apply logs_bind; [apply IH|]. intros indices. apply logs_ret.
Qed.

Lemma logs_create n options : logs_only (K:=K) ok (ILinearSystem_create n options).
Proof.
  unfold ILinearSystem_create.
  destruct (String.eqb options "dense"); [apply logs_ret|].
  destruct (String.eqb options "sparse"); [apply logs_ret|apply logs_raise].
Qed.

End TraceProperties.

Section AcSweep.
Context {K : Type} `{Backend K}.

Lemma logs_ac_sweep_loop (grid : list Q) var_list_index max_iter :
  forall (freq : list Q) d results,
  mode d = AC_Sweep ->
  (forall f, In f freq -> In f grid) ->
  logs_only (K:=K) (ac_event_ok grid)
    (ac_sweep_loop freq d var_list_index max_iter results).
Proof.
  induction freq as [|f freq IH]; intros d results Hmode Hsub; cbn [ac_sweep_loop].
  - apply logs_ret.
  - set (d' := mkAD (mode d) (time_step d) (f * 2 * math_pi)).
    assert (Hd' : forall c, ac_event_ok grid (EvUpdateLinearSystem c d')).
    { intros c. split; [exact Hmode|]. exists f. split; [apply Hsub; now left|reflexivity]. }
    apply logs_bind; [apply logs_get|]. intros s.
    apply logs_bind.
    { apply logs_for_each. intros c _. apply logs_call_update_linear_system, Hd'. }
    intros _. apply logs_bind.
    { apply logs_solve; try exact Hd'; intros; exact I. }
    intros _. apply logs_bind; [apply logs_the_linear_system|]. intros ls.
    apply logs_bind; [apply logs_collect_data|]. intros results'.
    apply IH; [exact Hmode|]. intros f' Hin. apply Hsub. now right.
Qed.

(** Whatever the grid, the first pass is stamped with [w = freq[0]] and
    the restamps with [w = 2 pi f]. *)
Lemma ac_sweep_logs (var_list : list pyname) (freq : list Q) (options : string)
    (max_iter : nat) :
  logs_only (K:=K) (ac_event_ok freq) (ac_sweep var_list freq options max_iter).
Proof.
  unfold ac_sweep.
  apply logs_bind; [apply logs_get|]. intros s.
  apply logs_bind; [apply logs_lookup_vars|]. intros var_list_index.
  destruct freq as [|f0 rest].
  - (* the grid is empty: [freq[0]] raises *)
    intros s0. exists []. split; [now rewrite app_nil_r|constructor].
  - set (d0 := mkAD AC_Sweep (time_step AnalysisDescription_init) f0).
    apply logs_bind_ret.
    apply logs_bind; [apply logs_create|]. intros ls.
    apply logs_bind; [apply logs_modify; reflexivity|]. intros _.
    apply logs_bind.
    { apply logs_init_all. intros c. split; reflexivity. }
    intros _. apply logs_bind; [|intros results'; apply logs_ret].
    apply logs_ac_sweep_loop; [reflexivity|]. intros f Hin. exact Hin.
Qed.

(** The lookups of the recorded variables return when every name is in
    the table. *)
Lemma lookup_vars_returns vars : forall var_list (s : Circuit K),
  (forall v, In v var_list -> var_get vars v <> None) ->
  exists indices, lookup_vars vars var_list s = (Ok indices, s).
Proof.
  induction var_list as [|v rest IH]; intros s Hin; cbn [lookup_vars].
  - now exists [].
  - unfold bind, lookup_var.
    destruct (var_get vars v) as [i|] eqn:Ev;
      [|exfalso; apply (Hin v); [now left|exact Ev]].
    unfold ret at 1. cbv beta iota.
    destruct (IH s) as (indices & Hl). { intros v' Hv'. apply Hin. now right. }
    rewrite Hl. now exists (i :: indices).
Qed.

Lemma bind_assoc {E S A B C} (m : M E S A) (f : A -> M E S B) (g : B -> M E S C) s :
  bind (bind m f) g s = bind m (fun a => bind (f a) g) s.
Proof. unfold bind. destruct (m s) as [[a|e] s']; reflexivity. Qed.

(** C6. The first stamping pass of [ac_sweep] does not get [w = 2 pi f[0]]:
    on a circuit with at least one component, a grid that starts at
    [f0 > 0] and recorded variables that exist, the first call of the sweep
    is [init_linear_system] on component 0 with [w = f0], the frequency
    itself, which is not [2 pi f0]. Every later [init_linear_system] gets
    the same [w = f0], and every [update_linear_system] of the loop gets
    [w = 2 pi f] for a frequency [f] of the grid. *)
Theorem ac_sweep_first_pass_frequency (var_list : list pyname) (f0 : Q) (rest : list Q)
    (options : string) (max_iter : nat) (s : Circuit K) :
  (forall v, In v var_list ->
     var_get (variable_names_dict (circuit_components s)) v <> None) ->
  options = "dense"%string \/ options = "sparse"%string ->
  all_components (circuit_components s) <> [] ->
  0 < f0 ->
  let freq := f0 :: rest in
  let first_pass := mkAD AC_Sweep (time_step AnalysisDescription_init) f0 in
  let r := ac_sweep var_list freq options max_iter s in
  (exists evs,
     trace (snd r) = trace s ++ EvInitLinearSystem 0 first_pass :: evs
     /\ Forall (ac_event_ok freq) evs)
  /\ w first_pass == f0
  /\ ~ w first_pass == 2 * math_pi * f0.
Proof.
  intros Hvars Hopt Hne Hf0 freq first_pass r.
  split; [|split].
  - destruct (lookup_vars_returns _ var_list s Hvars) as (indices & Hl).
    assert (Hc : exists ls,
               ILinearSystem_create
                 (length (variable_names_list (circuit_components s))) options s
               = (Ok ls, s)).
    { unfold ILinearSystem_create. destruct Hopt as [-> | ->]; cbn; eexists; reflexivity. }
    destruct Hc as (ls & Hc).
    set (s1 := set_linear_system s (Some ls)).
    set (k := fun _ : unit =>
                results' <- ac_sweep_loop freq first_pass indices max_iter
                              (repeat [] (length indices)) ;;
                ret (freq, results')).
    assert (Hrun : r = (init_all first_pass ;; k tt) s1).
    { subst r k s1 freq. unfold ac_sweep.
      unfold bind at 1. unfold get at 1. cbv beta iota.
      unfold bind at 1. rewrite Hl. cbv beta iota.
      unfold bind at 1. unfold ret at 1. cbv beta iota.
      unfold bind at 1. rewrite Hc. cbv beta iota.
      unfold bind at 1. unfold modify at 1. cbv beta iota. reflexivity. }
    rewrite Hrun.
    destruct (all_components (circuit_components s)) as [|o l] eqn:Eall; [contradiction|].
    assert (Hok : forall c, ac_event_ok freq (EvInitLinearSystem c first_pass)).
    { intros c. split; reflexivity. }
    assert (Hrest : logs_only (K:=K) (ac_event_ok freq)
                      (call_stamp true 0 first_pass ;;
                       for_each (seq 1 (length l))
                         (fun c => call_init_linear_system c first_pass) ;;
                       k tt)).
    { apply logs_bind; [apply logs_call_stamp|]. intros _.
      apply logs_bind.
      { apply logs_for_each. intros c _. apply logs_call_init_linear_system, Hok. }
      intros _. subst k. cbv beta.
      apply logs_bind; [|intros results'; apply logs_ret].
      apply logs_ac_sweep_loop; [reflexivity|]. intros f Hin. exact Hin. }
    destruct (logs_after_log (ac_event_ok freq) (EvInitLinearSystem 0 first_pass) _
                Hrest s1) as (evs & Ht & Hall).
    exists evs. split; [|exact Hall].
    change (trace s) with (trace s1). rewrite <- Ht. f_equal. f_equal.
    unfold init_all. rewrite bind_assoc. unfold bind at 1. unfold get at 1. cbv beta iota.
    subst s1. cbn [circuit_components set_linear_system]. rewrite Eall.
    cbn [length seq for_each]. unfold call_init_linear_system at 1.
    rewrite !bind_assoc. reflexivity.
  - reflexivity.
  - cbn [w first_pass]. unfold math_pi. intro Heq. lra.
Qed.

End AcSweep.

Lemma ac_sweep_first_pass_frequency_witness :
  let r := @ac_sweep Q demo_backend [Some "v_out"%string] [10; 100] "dense" 40
             divider_circuit in
  (exists evs,
     trace (snd r)
     = trace divider_circuit ++ EvInitLinearSystem 0 first_pass_description :: evs
     /\ Forall (ac_event_ok [10; 100]) evs)
  /\ w first_pass_description == 10
  /\ ~ w first_pass_description == 2 * math_pi * 10.
Proof.
  apply (@ac_sweep_first_pass_frequency Q demo_backend [Some "v_out"%string] 10 [100]
           "dense" 40 divider_circuit).
  - intros v [<-|[]]. vm_compute. discriminate.
  - left. reflexivity.
  - vm_compute. discriminate.
  - reflexivity.
Defined.

(** The calls of a sweep over [10 Hz, 100 Hz] on the resistor divider, where
    every number stamped is real: both resistors are stamped with [w = 10],
    and each frequency takes one solve and one test. *)
Example divider_ac_sweep_calls :
  let r := @ac_sweep Q demo_backend [Some "v_out"%string] [10; 100] "dense" 40
             divider_circuit in
  (exists out, fst r = Ok out)
  /\ trace (snd r)
     = [EvInitLinearSystem 0 first_pass_description;
        EvInitLinearSystem 1 first_pass_description;
        EvLinearSolve; EvErrorTest true; EvLinearSolve; EvErrorTest true].
Proof.
  vm_compute. split; [eexists; reflexivity|reflexivity].
Qed.

(** The diode circuit under the stand-in exponential: the first solve is
    followed by nine failed tests, each with its restamp of the diode
    (component 1) and a new solve, and the tenth test passes. With
    [max_iter = 3] the same call gives up. *)
Example solve_diode_rounds :
  (let r := @solve Q demo_backend dc_description 40 diode_stamped in
   fst r = Ok tt
   /\ trace (snd r)
      = trace diode_stamped ++ [EvLinearSolve]
        ++ concat (repeat (@round_events dc_description [1%nat]) 9)
        ++ [EvErrorTest true])
  /\ fst (@solve Q demo_backend dc_description 3 diode_stamped) = Raise NonConvergence.
Proof. vm_compute. repeat split; reflexivity. Qed.

(** The resistor divider of the test suite: [v_out = 1.25]. *)
Example divider_dc_solution :
  option_map x (linear_system divider_solved) = Some (Some [5 # 4]).
Proof. vm_compute. reflexivity. Qed.

(** * Further properties *)

(** ** util.interpolate *)

(** Entries of a strictly increasing list increase with the index. *)
Lemma sorted_nth_lt (l : list Q) :
  StronglySorted Qlt l ->
  forall i j, (i < j)%nat -> (j < length l)%nat -> nth i l 0 < nth j l 0.
Proof.
  induction 1 as [|a l Hs IH Hall]; intros i j Hij Hj; cbn [length] in Hj; [lia|].
  destruct j as [|j]; [lia|]. cbn [nth].
  destruct i as [|i].
  - rewrite Forall_forall in Hall. apply Hall, nth_In. lia.
  - apply IH; lia.
Qed.

Lemma sorted_nth_le (l : list Q) :
  StronglySorted Qlt l ->
  forall i j, (i <= j)%nat -> (j < length l)%nat -> nth i l 0 <= nth j l 0.
Proof.
  intros Hs i j Hij Hj. destruct (Nat.eq_dec i j) as [->|Hne]; [apply Qle_refl|].
  apply Qlt_le_weak, sorted_nth_lt; [assumption|lia|assumption].
Qed.

(** The binary search keeps the entries below [lo] smaller than [x] and the
    entries from [hi] on at least [x]. *)
Lemma bisect_loop_spec (a : list Q) (x : Q) :
  (forall i j, (i <= j)%nat -> (j < length a)%nat -> nth i a 0 <= nth j a 0) ->
  forall fuel lo hi,
  (lo <= hi)%nat -> (hi <= length a)%nat -> (hi - lo < fuel)%nat ->
  (forall i, (i < lo)%nat -> nth i a 0 < x) ->
  (forall i, (hi <= i)%nat -> (i < length a)%nat -> x <= nth i a 0) ->
  let r := bisect_loop fuel a x lo hi in
  (r <= length a)%nat
  /\ (forall i, (i < r)%nat -> nth i a 0 < x)
  /\ (forall i, (r <= i)%nat -> (i < length a)%nat -> x <= nth i a 0).
Proof.
  intros Hmono. induction fuel as [|fuel IH]; intros lo hi Hlh Hhi Hfuel Hlo Hge; [lia|].
  cbn [bisect_loop].
  destruct (Nat.ltb_spec lo hi) as [Hlt|Hnlt].
  - assert (Hmid : (lo <= (lo + hi) / 2 /\ (lo + hi) / 2 < hi)%nat).
    { split.
      - apply Nat.div_le_lower_bound; lia.
      - apply Nat.Div0.div_lt_upper_bound; lia. }
    destruct (Qltb (nth ((lo + hi) / 2) a 0) x) eqn:Ecmp.
    + apply Qltb_lt in Ecmp. apply IH; try lia; [|exact Hge].
      intros i Hi. apply Qle_lt_trans with (nth ((lo + hi) / 2) a 0); [|exact Ecmp].
      apply Hmono; lia.
    + apply Qltb_ge in Ecmp. apply IH; try lia; [exact Hlo|].
      intros i Hi Hlen. apply Qle_trans with (nth ((lo + hi) / 2) a 0); [exact Ecmp|].
      apply Hmono; lia.
  - assert (lo = hi) by lia. subst hi. cbv zeta. repeat split; [lia|exact Hlo|exact Hge].
Qed.

(** On a sorted list [bisect_left] returns the insertion point of [x]:
    the entries before it are smaller than [x], the others are not. *)
Lemma bisect_left_spec (a : list Q) (x : Q) :
  StronglySorted Qlt a ->
  let r := bisect_left a x in
  (r <= length a)%nat
  /\ (forall i, (i < r)%nat -> nth i a 0 < x)
  /\ (forall i, (r <= i)%nat -> (i < length a)%nat -> x <= nth i a 0).
Proof.
  intros Hs. unfold bisect_left.
  apply bisect_loop_spec; try lia.
  apply sorted_nth_le, Hs.
Qed.

Lemma bisect_left_between (a : list Q) (x : Q) (k : nat) :
  StronglySorted Qlt a -> (S k < length a)%nat ->
  nth k a 0 < x -> x <= nth (S k) a 0 ->
  bisect_left a x = S k.
Proof.
  intros Hs Hk Hlo Hhi.
  destruct (bisect_left_spec a x Hs) as (Hlen & Hbelow & Habove).
  destruct (Nat.lt_trichotomy (bisect_left a x) (S k)) as [Hlt|[Heq|Hgt]]; [|exact Heq|].
  - exfalso. apply (Qlt_irrefl x).
    apply Qle_lt_trans with (nth k a 0); [|exact Hlo]. apply Habove; lia.
  - exfalso. apply (Qlt_irrefl x).
    apply Qle_lt_trans with (nth (S k) a 0); [exact Hhi|]. apply Hbelow; lia.
Qed.

Lemma bisect_left_first (a : list Q) (x : Q) :
  StronglySorted Qlt a -> (0 < length a)%nat -> x <= nth 0 a 0 ->
  bisect_left a x = 0%nat.
Proof.
  intros Hs Hlen Hx.
  destruct (bisect_left_spec a x Hs) as (_ & Hbelow & _).
  destruct (bisect_left a x) as [|r] eqn:Er; [reflexivity|].
  exfalso. apply (Qlt_irrefl x).
  apply Qle_lt_trans with (nth 0 a 0); [exact Hx|]. apply Hbelow. lia.
Qed.

Lemma bisect_left_last (a : list Q) (x : Q) :
  StronglySorted Qlt a -> (0 < length a)%nat -> nth (length a - 1) a 0 < x ->
  bisect_left a x = length a.
Proof.
  intros Hs Hlen Hx.
  destruct (bisect_left_spec a x Hs) as (Hle & _ & Habove).
  destruct (Nat.eq_dec (bisect_left a x) (length a)) as [Heq|Hne]; [exact Heq|].
  exfalso. apply (Qlt_irrefl x).
  apply Qle_lt_trans with (nth (length a - 1) a 0); [|exact Hx]. apply Habove; lia.
Qed.

Lemma py_getitem_nat {S} (l : list Q) (i : nat) (s : S) :
  (i < length l)%nat -> py_getitem l (Z.of_nat i) s = (Ok (nth i l 0), s).
Proof.
  intro Hi. unfold py_getitem.
  destruct (Z.ltb_spec (Z.of_nat i) 0) as [Hneg|_]; [lia|].
  destruct (Z.leb_spec 0 (Z.of_nat i)) as [_|Hneg]; [|lia].
  destruct (Z.ltb_spec (Z.of_nat i) (Z.of_nat (length l))) as [_|Hge]; [|lia].
  cbn [andb]. rewrite Nat2Z.id. reflexivity.
Qed.

Lemma py_div_run {S} (a b : Q) (s : S) :
  ~ b == 0 -> py_div a b s = (Ok (a / b), s).
Proof.
  intro Hb. unfold py_div. rewrite (Qeq_bool_false b 0 Hb). reflexivity.
Qed.

(** The three cases of [interpolate] on a strictly increasing list of at
    least two values, by the insertion point [r] of [value]. *)
Lemma interpolate_cases {S} (value : Q) (value_list data_list : list Q) (s : S) :
  StronglySorted Qlt value_list ->
  length value_list = length data_list ->
  (2 <= length value_list)%nat ->
  let n := length value_list in
  let r := bisect_left value_list value in
  let line i j :=
    nth i data_list 0
    + (value - nth i value_list 0) / (nth j value_list 0 - nth i value_list 0)
      * (nth j data_list 0 - nth i data_list 0) in
  exists y,
    interpolate value value_list data_list s = (Ok (Some y), s)
    /\ ((0 < r)%nat -> (r < n)%nat -> y == line (r - 1)%nat r)
    /\ (r = 0%nat -> y == line 0%nat 1%nat)
    /\ (r = n -> y == line (n - 2)%nat (n - 1)%nat).
Proof.
  intros Hs Hlen Hn n r line.
  destruct (bisect_left_spec value_list value Hs) as (Hle & _ & _).
  fold r in Hle. fold n in Hle.
  assert (Hnz : forall i j, (i < j)%nat -> (j < n)%nat ->
                  ~ nth j value_list 0 - nth i value_list 0 == 0).
  { intros i j Hij Hj Heq.
    pose proof (sorted_nth_lt value_list Hs i j Hij Hj) as Hlt. lra. }
  unfold interpolate. rewrite <- Hlen, Nat.eqb_refl. cbn [negb]. fold r. fold n.
  destruct (Nat.ltb_spec 0 r) as [Hpos|Hzero];
    [destruct (Nat.ltb_spec r n) as [Hlt|Hge]|]; cbn [andb].
  - (* in the middle *)
    replace (Z.of_nat r - 1)%Z with (Z.of_nat (r - 1)) by lia.
    unfold bind.
    repeat (first [ rewrite py_getitem_nat by (unfold n in *; lia)
                  | rewrite py_div_run by (apply Hnz; lia) ];
            cbv beta iota).
    eexists. split; [reflexivity|].
    split; [intros _ _; unfold line; ring|].
    split; intro; lia.
  - (* to the right *)
    assert (Hr : r = n) by lia.
    destruct (Nat.eqb_spec r 0) as [Hz|_]; [lia|].
    destruct (Nat.eqb_spec r n) as [_|Hne]; [|contradiction].
    replace (Z.of_nat n - 1 - 1)%Z with (Z.of_nat (n - 2)) by lia.
    replace (Z.of_nat n - 1)%Z with (Z.of_nat (n - 1)) by lia.
    unfold bind.
    repeat (first [ rewrite py_getitem_nat by (unfold n in *; lia)
                  | rewrite py_div_run by (apply Hnz; lia) ];
            cbv beta iota).
    eexists. split; [reflexivity|].
    split; [intros; lia|]. split; [intros; lia|].
    intros _. unfold line.
    set (vn := nth (n - 1) value_list 0). set (vm := nth (n - 2) value_list 0).
    set (dn := nth (n - 1) data_list 0). set (dm := nth (n - 2) data_list 0).
    assert (Hd : ~ vn - vm == 0) by (apply Hnz; lia).
    field. exact Hd.
  - (* to the left *)
    assert (Hr : r = 0%nat) by lia. rewrite Hr. cbn [Nat.eqb].
    unfold bind.
    change 0%Z with (Z.of_nat 0). change 1%Z with (Z.of_nat 1).
    repeat (first [ rewrite py_getitem_nat by (unfold n in *; lia)
                  | rewrite py_div_run by (apply Hnz; lia) ];
            cbv beta iota).
    eexists. split; [reflexivity|].
    split; [intros; lia|]. split; [|intros; lia].
    intros _. unfold line.
    set (v0 := nth 0 value_list 0). set (v1 := nth 1 value_list 0).
    set (d0 := nth 0 data_list 0). set (d1 := nth 1 data_list 0).
    assert (Hd : ~ v1 - v0 == 0) by (apply Hnz; lia).
    field. exact Hd.
Qed.

Lemma nth_map_lt (f : Q -> Q) (l : list Q) (i : nat) :
  (i < length l)%nat -> nth i (map f l) 0 = f (nth i l 0).
Proof.
  revert i. induction l as [|a l IH]; intros i Hi; cbn [length] in Hi; [lia|].
  destruct i as [|i]; [reflexivity|]. cbn [map nth]. apply IH. lia.
Qed.

Lemma sample_values_sorted : StronglySorted Qlt sample_values.
Proof. repeat constructor. Qed.

(** X1. Between two neighbouring values [interpolate] returns the point of
    the chord through the two data points, which lies between them. *)
Theorem interpolate_between_neighbours {St} (value : Q) (value_list data_list : list Q)
    (k : nat) (s : St) :
  StronglySorted Qlt value_list ->
  length value_list = length data_list ->
  (S k < length value_list)%nat ->
  nth k value_list 0 < value -> value <= nth (S k) value_list 0 ->
  let v_l := nth k value_list 0 in
  let v_r := nth (S k) value_list 0 in
  let d_l := nth k data_list 0 in
  let d_r := nth (S k) data_list 0 in
  exists y,
    interpolate value value_list data_list s = (Ok (Some y), s)
    /\ y == d_l + (value - v_l) / (v_r - v_l) * (d_r - d_l)
    /\ Qmin d_l d_r <= y <= Qmax d_l d_r.
Proof.
  intros Hs Hlen Hk Hlo Hhi v_l v_r d_l d_r.
  destruct (interpolate_cases value value_list data_list s Hs Hlen) as (y & Hrun & Hmid & _);
    [lia|].
  rewrite (bisect_left_between value_list value k Hs Hk Hlo Hhi) in Hmid.
  specialize (Hmid ltac:(lia) Hk).
  replace (S k - 1)%nat with k in Hmid by lia.
  fold v_l v_r d_l d_r in Hmid, Hlo, Hhi.
  exists y. split; [exact Hrun|]. split; [exact Hmid|].
  set (p := (value - v_l) / (v_r - v_l)) in *.
  assert (Hpos : 0 < v_r - v_l) by lra.
  assert (Hp0 : 0 <= p).
  { apply Qle_shift_div_l; [exact Hpos|]. lra. }
  assert (Hp1 : p <= 1).
  { apply Qle_shift_div_r; [exact Hpos|]. lra. }
  destruct (Qlt_le_dec d_r d_l) as [Hd|Hd].
  - rewrite (Q.min_r d_l d_r) by lra. rewrite (Q.max_l d_l d_r) by lra.
    rewrite Hmid. split; nra.
  - rewrite (Q.min_l d_l d_r) by exact Hd. rewrite (Q.max_r d_l d_r) by exact Hd.
    rewrite Hmid. split; nra.
Qed.

Lemma interpolate_between_neighbours_witness :
  exists y,
    @interpolate unit (5 # 2) sample_values sample_data tt = (Ok (Some y), tt)
    /\ y == 5 + ((5 # 2) - 2) / (3 - 2) * (11 - 5)
    /\ Qmin 5 11 <= y <= Qmax 5 11.
Proof.
  apply (@interpolate_between_neighbours unit (5 # 2) sample_values sample_data 1 tt).
  - exact sample_values_sorted.
  - reflexivity.
  - cbn. lia.
  - reflexivity.
  - discriminate.
Defined.

(** X2. At a value of the list [interpolate] returns the data recorded for
    it. *)
Theorem interpolate_at_grid_point {St} (value_list data_list : list Q) (k : nat) (s : St) :
  StronglySorted Qlt value_list ->
  length value_list = length data_list ->
  (2 <= length value_list)%nat ->
  (k < length value_list)%nat ->
  exists y,
    interpolate (nth k value_list 0) value_list data_list s = (Ok (Some y), s)
    /\ y == nth k data_list 0.
Proof.
  intros Hs Hlen Hn Hk.
  destruct (interpolate_cases (nth k value_list 0) value_list data_list s Hs Hlen Hn)
    as (y & Hrun & Hmid & Hleft & _).
  exists y. split; [exact Hrun|].
  destruct k as [|k].
  - rewrite Hleft by (apply bisect_left_first; [exact Hs|lia|apply Qle_refl]).
    pose proof (sorted_nth_lt value_list Hs 0 1 ltac:(lia) ltac:(lia)) as Hlt.
    field. lra.
  - pose proof (sorted_nth_lt value_list Hs k (S k) ltac:(lia) Hk) as Hlt.
    rewrite (bisect_left_between value_list _ k Hs Hk Hlt (Qle_refl _)) in Hmid.
    rewrite Hmid by lia. replace (S k - 1)%nat with k by lia.
    field. lra.
Qed.

Lemma interpolate_at_grid_point_witness :
  exists y,
    @interpolate unit (nth 2 sample_values 0) sample_values sample_data tt = (Ok (Some y), tt)
    /\ y == nth 2 sample_data 0.
Proof.
  apply (@interpolate_at_grid_point unit sample_values sample_data 2 tt).
  - exact sample_values_sorted.
  - reflexivity.
  - cbn. lia.
  - cbn. lia.
Defined.

(** X3. Outside the list [interpolate] extends the first or the last
    segment: at or below the first value it follows the line through the
    first two points, above the last value the line through the last two. *)
Theorem interpolate_extrapolates {S} (value : Q) (value_list data_list : list Q) (s : S) :
  StronglySorted Qlt value_list ->
  length value_list = length data_list ->
  (2 <= length value_list)%nat ->
  let n := length value_list in
  let line i j :=
    nth i data_list 0
    + (value - nth i value_list 0) / (nth j value_list 0 - nth i value_list 0)
      * (nth j data_list 0 - nth i data_list 0) in
  exists y,
    interpolate value value_list data_list s = (Ok (Some y), s)
    /\ (value <= nth 0 value_list 0 -> y == line 0%nat 1%nat)
    /\ (nth (n - 1) value_list 0 < value -> y == line (n - 2)%nat (n - 1)%nat).
Proof.
  intros Hs Hlen Hn n line.
  destruct (interpolate_cases value value_list data_list s Hs Hlen Hn)
    as (y & Hrun & _ & Hleft & Hright).
  exists y. split; [exact Hrun|]. split.
  - intro Hv. apply Hleft, bisect_left_first; [exact Hs|lia|exact Hv].
  - intro Hv. apply Hright, bisect_left_last; [exact Hs|lia|exact Hv].
Qed.

Lemma interpolate_extrapolates_witness :
  let line i j :=
    nth i sample_data 0
    + (5 - nth i sample_values 0) / (nth j sample_values 0 - nth i sample_values 0)
      * (nth j sample_data 0 - nth i sample_data 0) in
  exists y,
    @interpolate unit 5 sample_values sample_data tt = (Ok (Some y), tt)
    /\ (5 <= nth 0 sample_values 0 -> y == line 0%nat 1%nat)
    /\ (nth (length sample_values - 1) sample_values 0 < 5 -> y == line 2%nat 3%nat).
Proof.
  apply (@interpolate_extrapolates unit 5 sample_values sample_data tt).
  - exact sample_values_sorted.
  - reflexivity.
  - cbn. lia.
Defined.

(** X4. [interpolate] is exact on data that lie on a line: when every
    data point is [a * value + c], the result at any [value] is
    [a * value + c]. *)
Theorem interpolate_exact_on_lines {S} (a c value : Q) (value_list : list Q) (s : S) :
  StronglySorted Qlt value_list ->
  (2 <= length value_list)%nat ->
  exists y,
    interpolate value value_list (map (fun v => a * v + c) value_list) s = (Ok (Some y), s)
    /\ y == a * value + c.
Proof.
  intros Hs Hn.
  set (f := fun v => a * v + c).
  assert (Hlen : length value_list = length (map f value_list)) by now rewrite length_map.
  destruct (interpolate_cases value value_list (map f value_list) s Hs Hlen Hn)
    as (y & Hrun & Hmid & Hleft & Hright).
  destruct (bisect_left_spec value_list value Hs) as (Hle & _ & _).
  exists y. split; [exact Hrun|].
  assert (Hline : forall i j, (i < j)%nat -> (j < length value_list)%nat ->
            nth i (map f value_list) 0
            + (value - nth i value_list 0) / (nth j value_list 0 - nth i value_list 0)
              * (nth j (map f value_list) 0 - nth i (map f value_list) 0)
            == a * value + c).
  { intros i j Hij Hj. rewrite !nth_map_lt by lia. unfold f.
    pose proof (sorted_nth_lt value_list Hs i j Hij Hj) as Hlt.
    field. lra. }
  destruct (Nat.eq_dec (bisect_left value_list value) 0) as [Hz|Hnz].
  - rewrite (Hleft Hz). apply Hline; lia.
  - destruct (Nat.eq_dec (bisect_left value_list value) (length value_list)) as [He|Hne].
    + rewrite (Hright He). apply Hline; lia.
    + rewrite Hmid by lia. apply Hline; lia.
Qed.

Lemma interpolate_exact_on_lines_witness :
  exists y,
    @interpolate unit (7 # 2) sample_values (map (fun v => 3 * v + 1) sample_values) tt
    = (Ok (Some y), tt)
    /\ y == 3 * (7 # 2) + 1.
Proof.
  apply (@interpolate_exact_on_lines unit 3 1 (7 # 2) sample_values tt).
  - exact sample_values_sorted.
  - cbn. lia.
Defined.

Lemma bisect_loop_bounds (a : list Q) (x : Q) : forall fuel lo hi,
  (lo <= hi)%nat -> (lo <= bisect_loop fuel a x lo hi <= hi)%nat.
Proof.
  induction fuel as [|fuel IH]; intros lo hi Hlh; cbn [bisect_loop]; [lia|].
  destruct (Nat.ltb_spec lo hi) as [Hlt|Hge]; [|lia].
  assert (Hmid : (lo <= (lo + hi) / 2 /\ (lo + hi) / 2 < hi)%nat).
  { split.
    - apply Nat.div_le_lower_bound; lia.
    - apply Nat.Div0.div_lt_upper_bound; lia. }
  destruct (Qltb (nth ((lo + hi) / 2) a 0) x).
  - specialize (IH (S ((lo + hi) / 2)) hi ltac:(lia)). lia.
  - specialize (IH lo ((lo + hi) / 2)%nat ltac:(lia)). lia.
Qed.

Lemma Qeq_bool_self_minus (a : Q) : Qeq_bool (a - a) 0 = true.
Proof. apply Qeq_bool_iff. ring. Qed.

(** X5. Lists that cannot be interpolated: lists of different lengths are
    refused; with no point the first index fails; with a single point the
    call fails on the missing second point when [value] is not above the
    point, and divides by zero when it is, the index [-1] wrapping round to
    the point itself. *)
Theorem interpolate_short_lists {S} (value : Q) (s : S) :
  (forall value_list data_list, length value_list <> length data_list ->
     interpolate value value_list data_list s = (Raise LengthsDiffer, s))
  /\ interpolate value [] [] s = (Raise ListIndexError, s)
  /\ (forall a d, value <= a -> interpolate value [a] [d] s = (Raise ListIndexError, s))
  /\ (forall a d, a < value -> interpolate value [a] [d] s = (Raise DivisionByZero, s)).
Proof.
  split; [|split; [|split]].
  - intros vl dl Hne. unfold interpolate.
    destruct (Nat.eqb_spec (length vl) (length dl)) as [He|_]; [contradiction|reflexivity].
  - reflexivity.
  - intros a d Hle. unfold interpolate, bisect_left. cbn [length Nat.eqb negb bisect_loop].
    change ((0 + 1) / 2)%nat with 0%nat. cbn [Nat.ltb Nat.leb nth].
    destruct (Qltb a value) eqn:E; [apply Qltb_lt in E; lra|].
    cbn [bisect_loop Nat.ltb Nat.leb andb Nat.eqb]. reflexivity.
  - intros a d Hlt. unfold interpolate, bisect_left. cbn [length Nat.eqb negb bisect_loop].
    change ((0 + 1) / 2)%nat with 0%nat. cbn [Nat.ltb Nat.leb nth].
    destruct (Qltb a value) eqn:E; [|apply Qltb_ge in E; lra].
    cbn [bisect_loop Nat.ltb Nat.leb andb Nat.eqb].
    unfold bind, py_getitem, py_div. cbn [length Z.of_nat Z.ltb Z.leb Z.sub Z.add
      Z.compare Z.opp Z.pos_sub Pos.of_succ_nat andb Z.to_nat nth ret]. 
    cbn. rewrite Qeq_bool_self_minus. reflexivity.
Qed.

(** X6. [interpolate] never falls off the end of its three cases: a call
    that returns, returns a number. *)
Theorem interpolate_returns_a_number {S} (value : Q) (value_list data_list : list Q)
    (s : S) :
  fst (interpolate value value_list data_list s) <> Ok None.
Proof.
  unfold interpolate.
  destruct (negb (length value_list =? length data_list)%nat); [discriminate|].
  pose proof (bisect_loop_bounds value_list value (Datatypes.S (length value_list)) 0
                (length value_list) ltac:(lia)) as Hb.
  fold (bisect_left value_list value) in Hb.
  set (r := bisect_left value_list value) in *.
  assert (Hres : forall (m : M util_exn S Q) (k : Q -> M util_exn S (option Q)) s0,
             (forall q s1, fst (k q s1) <> Ok None) -> fst (bind m k s0) <> Ok None).
  { intros m k s0 Hk. unfold bind. destruct (m s0) as [[q|e] s1]; [apply Hk|discriminate]. }
  destruct ((0 <? r)%nat && (r <? length value_list)%nat) eqn:Emid.
  - repeat (apply Hres; intros ? ?). discriminate.
  - destruct (Nat.eqb_spec r 0) as [Hz|Hnz].
    + repeat (apply Hres; intros ? ?). discriminate.
    + destruct (Nat.eqb_spec r (length value_list)) as [He|Hne].
      * repeat (apply Hres; intros ? ?). discriminate.
      * exfalso. apply andb_false_iff in Emid.
        destruct Emid as [E|E]; apply Nat.ltb_ge in E; lia.
Qed.

(** ** The transient drivers: what is recorded *)

Lemma bind_step {E S A B} (P' : S -> Prop) (R : res E B * S -> Prop)
    (m : M E S A) (k : A -> M E S B) (s : S) :
  P' (snd (m s)) ->
  (forall e s1, P' s1 -> R (Raise e, s1)) ->
  (forall a s1, P' s1 -> R (k a s1)) ->
  R (bind m k s).
Proof.
  intros Hm Hraise Hk. unfold bind.
  destruct (m s) as [[a|e] s1]; cbn [snd] in Hm; [apply Hk|apply Hraise]; exact Hm.
Qed.

Lemma sorted_snoc (l : list Q) (x : Q) :
  StronglySorted Qlt l -> Forall (fun y => y < x) l -> StronglySorted Qlt (l ++ [x]).
Proof.
  induction 1 as [|a l Hs IH Hall]; intro Hlt; cbn [app].
  - constructor; constructor.
  - inversion Hlt as [|? ? Ha Hl]; subst.
    constructor; [apply IH, Hl|].
    apply Forall_app. split; [exact Hall|]. constructor; [exact Ha|constructor].
Qed.

Section TransientRecords.
Context {K : Type} `{Backend K}.

(** Recording leaves the clock alone and appends at most the current
    time. *)
Lemma record_sample_stamps (s0 : Circuit K) :
  let s1 := snd (record_sample s0) in
  t s1 = t s0
  /\ (time_stamps s1 = time_stamps s0 \/ time_stamps s1 = time_stamps s0 ++ [t s0]).
Proof.
  cbv zeta.
  set (Q1 := fun s1 : Circuit K =>
               t s1 = t s0
               /\ (time_stamps s1 = time_stamps s0
                   \/ time_stamps s1 = time_stamps s0 ++ [t s0])).
  change (Q1 (snd (record_sample s0))).
  assert (Hsame : Q1 s0) by (split; [reflexivity|left; reflexivity]).
  unfold record_sample, the_linear_system. unfold bind at 1. unfold bind at 1.
  unfold get at 1.
  destruct (linear_system s0) as [ls|]; [|exact Hsame].
  unfold ret at 1. unfold bind at 1. unfold get at 1.
  destruct (Qle_bool (start_record_time s0) (t s0)); cbn [when]; [|exact Hsame].
  unfold bind at 1. unfold modify at 1.
  set (Q0 := fun s : Circuit K =>
               t s = t s0 /\ time_stamps s = time_stamps s0 ++ [t s0]).
  assert (Hcf : clock_frame Q0).
  { split; [|split; [|split]]; intros s v Hs; exact Hs. }
  enough (HQ : Q0 (snd (for_each (seq 0 (length (var_list_index s0)))
                          (fun i =>
                             match nth_error (var_list_index s0) i with
                             | Some var_index =>
                                 v <- x_entry (x ls) var_index ;; results_append i v
                             | None => raise (DriverError IndexError)
                             end)
                          (set_time_stamps s0 (time_stamps s0 ++ [t s0]))))).
  { destruct HQ as [Ht Hts]. split; [exact Ht|right; exact Hts]. }
  apply preserves_for_each; [|split; reflexivity].
  intros i.
  destruct (nth_error (var_list_index s0) i) as [var_index|]; [|apply preserves_raise].
  apply preserves_bind; [apply frame_x_entry|]. intros v.
  apply frame_results_append, Hcf.
Qed.

(** With a positive time step a pass of the loop moves the time forward. *)
Lemma advance_time_forward (end_time dt : Q) (d : AnalysisDescription) (s : Circuit K) :
  0 < dt -> t s < end_time ->
  exists d' t', advance_time end_time dt d s = (Ok d', set_t s t') /\ t s < t'.
Proof.
  intros Hdt Hlt.
  destruct (advance_time_cases end_time dt d s) as (Hnormal & Hfinal & Hhalf).
  destruct (Qlt_le_dec (t s + 2 * dt) end_time) as [Hl|Hge].
  - eexists _, _. split; [apply Hnormal, Hl|]. lra.
  - assert (Hnl : ~ t s + 2 * dt < end_time) by (intro Hl; lra).
    destruct (Qlt_le_dec (t s + dt) end_time) as [Hl1|Hge1].
    + assert (Hnle : ~ end_time <= t s + dt) by (intro Hle; lra).
      eexists _, _. split; [apply Hhalf; assumption|].
      assert (Hmid : (end_time - t s) / 2 == (end_time - t s) * (1 # 2)).
      { unfold Qdiv. change (/ 2) with (1 # 2). reflexivity. }
      rewrite Hmid. lra.
    + eexists _, _. split; [apply Hfinal; assumption|]. exact Hlt.
Qed.

Lemma transient_loop_stamps_increase (end_time dt : Q) (max_iter : nat) :
  0 < dt ->
  forall fuel d (s : Circuit K),
  stamps_increase s ->
  let r := transient_loop fuel end_time dt max_iter d s in
  StronglySorted Qlt (time_stamps (snd r))
  /\ (forall u, fst r = Ok u -> stamps_increase (snd r)).
Proof.
  intros Hdt. induction fuel as [|fuel IH]; intros d s [Hsorted Hbelow]; cbv zeta.
  - assert (Hstep : transient_loop 0 end_time dt max_iter d s
                    = if Qltb (t s) end_time then (Raise OutOfFuel, s) else (Ok tt, s)).
    { cbn [transient_loop]. unfold bind, get. destruct (Qltb (t s) end_time); reflexivity. }
    rewrite Hstep.
    destruct (Qltb (t s) end_time); cbn [snd fst];
      (split; [exact Hsorted|]); intros u Hu; [discriminate Hu|split; assumption].
  - assert (Hstep : transient_loop (S fuel) end_time dt max_iter d s
                    = if Qltb (t s) end_time
                      then (solve d max_iter ;; record_sample ;; update_lc d ;;
                            analysis_description' <- advance_time end_time dt d ;;
                            transient_loop fuel end_time dt max_iter analysis_description') s
                      else (Ok tt, s)).
    { cbn [transient_loop]. unfold bind at 1. unfold get at 1. cbv beta iota.
      destruct (Qltb (t s) end_time); reflexivity. }
    rewrite Hstep. clear Hstep.
    destruct (Qltb (t s) end_time) eqn:Et; cbn [snd fst];
      [|split; [exact Hsorted|intros u _; split; assumption]].
    apply Qltb_lt in Et.
    set (R := fun r : res exn unit * Circuit K =>
                StronglySorted Qlt (time_stamps (snd r))
                /\ (forall u, fst r = Ok u -> stamps_increase (snd r))).
    set (P0 := fun s0 : Circuit K => t s0 = t s /\ time_stamps s0 = time_stamps s).
    set (P1 := fun s0 : Circuit K =>
                 t s0 = t s
                 /\ (time_stamps s0 = time_stamps s
                     \/ time_stamps s0 = time_stamps s ++ [t s])).
    assert (Hcf0 : clock_frame P0).
    { split; [|split; [|split]]; intros s0 v Hs0; exact Hs0. }
    assert (Hcf1 : clock_frame P1).
    { split; [|split; [|split]]; intros s0 v Hs0; exact Hs0. }
    assert (Hsorted1 : forall s0, P1 s0 -> StronglySorted Qlt (time_stamps s0)).
    { intros s0 [_ [-> | ->]]; [exact Hsorted|apply sorted_snoc; assumption]. }
    assert (Hraise1 : forall e s0, P1 s0 -> R (Raise e, s0)).
    { intros e s0 Hs0. split; cbn [fst snd]; [apply Hsorted1, Hs0|discriminate]. }
    assert (H01 : forall s0, P0 s0 -> P1 s0).
    { intros s0 [Ht Hts]. split; [exact Ht|left; exact Hts]. }
    change (R ((solve d max_iter ;; record_sample ;; update_lc d ;;
                analysis_description' <- advance_time end_time dt d ;;
                transient_loop fuel end_time dt max_iter analysis_description') s)).
    apply (bind_step P0).
    { apply frame_solve; [apply clock_frame_driver_frame, Hcf0|split; reflexivity]. }
    { intros e s0 Hs0. apply Hraise1, H01, Hs0. }
    intros _ s1 [Ht1 Hts1].
    apply (bind_step P1); [|exact Hraise1|].
    { destruct (record_sample_stamps s1) as [Ht Hts]. split; [congruence|].
      rewrite Ht1, Hts1 in Hts. exact Hts. }
    intros _ s2 Hs2.
    apply (bind_step P1); [|exact Hraise1|].
    { apply frame_update_lc; [apply clock_frame_driver_frame, Hcf1|exact Hs2]. }
    intros _ s3 Hs3.
    destruct (advance_time_forward end_time dt d s3 Hdt) as (d' & t' & Hadv & Hfwd).
    { destruct Hs3 as [-> _]. exact Et. }
    unfold bind. rewrite Hadv.
    apply IH. split; cbn [time_stamps t set_t].
    + apply Hsorted1, Hs3.
    + destruct Hs3 as [Ht3 Hts3]. rewrite Ht3 in Hfwd. destruct Hts3 as [-> | ->].
      * eapply Forall_impl; [|exact Hbelow]. intros ts Hts. cbn beta in Hts. lra.
      * apply Forall_app. split.
        -- eapply Forall_impl; [|exact Hbelow]. intros ts Hts. cbn beta in Hts. lra.
        -- constructor; [lra|constructor].
Qed.

Lemma stamps_increase_frame : clock_frame (stamps_increase (K:=K)).
Proof. split; [|split; [|split]]; intros s v Hs; exact Hs. Qed.

Lemma continue_stamps_increase (fuel : nat) (run_time dt : Q) (max_iter : nat)
    (s : Circuit K) :
  0 < dt -> stamps_increase s ->
  let r := continue_transient_simulation fuel run_time (Some dt) max_iter s in
  StronglySorted Qlt (time_stamps (snd r))
  /\ (forall out, fst r = Ok out ->
        fst out = time_stamps (snd r) /\ stamps_increase (snd r)).
Proof.
  intros Hdt Hs. cbv zeta.
  set (R := fun r : res exn (list Q * list (list K)) * Circuit K =>
              StronglySorted Qlt (time_stamps (snd r))
              /\ (forall out, fst r = Ok out ->
                    fst out = time_stamps (snd r) /\ stamps_increase (snd r))).
  assert (Hraise : forall e (s0 : Circuit K), stamps_increase s0 -> R (Raise e, s0)).
  { intros e s0 [Hso _]. split; cbn [fst snd]; [exact Hso|discriminate]. }
  change (R (continue_transient_simulation fuel run_time (Some dt) max_iter s)).
  unfold continue_transient_simulation. unfold bind at 1. unfold get at 1. cbv beta iota.
  apply (bind_step stamps_increase); [|exact Hraise|].
  { apply preserves_for_each; [|exact Hs]. intros c.
    apply frame_call_update_linear_system, clock_frame_driver_frame, stamps_increase_frame. }
  intros _ s1 Hs1.
  apply (bind_step stamps_increase); [|exact Hraise|].
  { apply stamps_increase_frame, Hs1. }
  intros _ s2 Hs2.
  destruct (transient_loop_stamps_increase (t s + run_time) dt max_iter Hdt fuel
              (mkAD Transient dt (w AnalysisDescription_init)) s2 Hs2) as [Hso Hok].
  unfold bind.
  destruct (transient_loop fuel (t s + run_time) dt max_iter
              (mkAD Transient dt (w AnalysisDescription_init)) s2) as [[[]|e] s3];
    cbn [fst snd] in *.
  - split; cbn [fst snd]; [exact Hso|].
    intros out Hout. injection Hout as <-. cbn [fst].
    split; [reflexivity|apply (Hok tt eq_refl)].
  - split; cbn [fst snd]; [exact Hso|discriminate].
Qed.

(** X7. The time stamps of a transient run increase strictly. A call of
    [continue_transient_simulation] with a positive time step keeps the
    recorded time stamps strictly increasing, whatever its outcome, and when
    it returns they all lie before the new simulation time, so that the
    next call keeps them increasing too. [transient_simulation] starts
    from an empty record and therefore always leaves one that increases. *)
Theorem transient_time_stamps_increase (fuel : nat) (max_iter : nat) (s : Circuit K)
    (dt : Q) :
  0 < dt ->
  (forall run_time,
     stamps_increase s ->
     let r := continue_transient_simulation fuel run_time (Some dt) max_iter s in
     StronglySorted Qlt (time_stamps (snd r))
     /\ (forall out, fst r = Ok out ->
           fst out = time_stamps (snd r) /\ stamps_increase (snd r)))
  /\ (forall start_record_time end_ var_list time_step options,
        effective_time_step start_record_time end_ time_step == dt ->
        let r := transient_simulation fuel start_record_time end_ var_list time_step
                   options max_iter s in
        StronglySorted Qlt (time_stamps (snd r))
        /\ (forall out, fst r = Ok out ->
              fst out = time_stamps (snd r) /\ stamps_increase (snd r))).
Proof.
  intros Hdt. split.
  - intros run_time Hs. apply continue_stamps_increase; assumption.
  - intros srt end_ var_list time_step options Heff. cbv zeta.
    set (dt' := effective_time_step srt end_ time_step) in *.
    assert (Hdt' : 0 < dt') by (rewrite Heff; exact Hdt).
    set (R := fun r : res exn (list Q * list (list K)) * Circuit K =>
                StronglySorted Qlt (time_stamps (snd r))
                /\ (forall out, fst r = Ok out ->
                      fst out = time_stamps (snd r) /\ stamps_increase (snd r))).
    assert (Hraise : forall e (s0 : Circuit K), stamps_increase s0 -> R (Raise e, s0)).
    { intros e s0 [Hso _]. split; cbn [fst snd]; [exact Hso|discriminate]. }
    pose proof stamps_increase_frame as (Fcc & Fls & Ftr & Fres).
    change (R (transient_simulation fuel srt end_ var_list time_step options max_iter s)).
    unfold transient_simulation. fold (effective_time_step srt end_ time_step). fold dt'.
    apply (bind_step stamps_increase); [|exact Hraise|].
    { cbn. split; constructor. }
    intros _ s1 Hs1. unfold bind at 1. unfold get at 1. cbv beta iota.
    apply (bind_step stamps_increase); [|exact Hraise|].
    { cbn. exact Hs1. }
    intros _ s2 Hs2.
    apply (bind_step stamps_increase); [|exact Hraise|].
    { apply preserves_for_each; [|exact Hs2]. intros v.
      apply preserves_bind.
      - unfold lookup_var. destruct (var_get _ v); [apply preserves_ret|apply preserves_raise].
      - intros i. apply preserves_modify. intros s0 Hs0. exact Hs0. }
    intros _ s3 Hs3.
    apply (bind_step stamps_increase); [|exact Hraise|].
    { cbn. apply Fres, Hs3. }
    intros _ s4 Hs4.
    apply (bind_step stamps_increase); [|exact Hraise|].
    { unfold ILinearSystem_create.
      destruct (String.eqb options "dense"); [exact Hs4|].
      destruct (String.eqb options "sparse"); exact Hs4. }
    intros ls s5 Hs5.
    apply (bind_step stamps_increase); [|exact Hraise|].
    { cbn. apply Fls, Hs5. }
    intros _ s6 Hs6.
    apply (bind_step stamps_increase); [|exact Hraise|].
    { apply frame_init_all; [apply clock_frame_driver_frame, stamps_increase_frame|exact Hs6]. }
    intros _ s7 Hs7.
    apply continue_stamps_increase; assumption.
Qed.

End TransientRecords.

Lemma transient_time_stamps_increase_witness :
  (forall run_time,
     stamps_increase rc_assembled ->
     let r := @continue_transient_simulation Q demo_backend 5 run_time (Some (3 # 10)) 40
                rc_assembled in
     StronglySorted Qlt (time_stamps (snd r))
     /\ (forall out, fst r = Ok out ->
           fst out = time_stamps (snd r) /\ stamps_increase (snd r)))
  /\ (forall start_record_time end_ var_list time_step options,
        effective_time_step start_record_time end_ time_step == 3 # 10 ->
        let r := @transient_simulation Q demo_backend 5 start_record_time end_ var_list
                   time_step options 40 rc_assembled in
        StronglySorted Qlt (time_stamps (snd r))
        /\ (forall out, fst r = Ok out ->
              fst out = time_stamps (snd r) /\ stamps_increase (snd r))).
Proof.
  apply (@transient_time_stamps_increase Q demo_backend 5 40 rc_assembled (3 # 10)).
  reflexivity.
Defined.

(** ** The recorded series *)

Lemma list_set_length {T} (l : list T) : forall i a l',
  list_set l i a = Some l' -> length l' = length l.
Proof.
  induction l as [|b l IH]; intros i a l' Hset; cbn [list_set] in Hset; [discriminate|].
  destruct i as [|i].
  - injection Hset as <-. reflexivity.
  - destruct (list_set l i a) as [l0|] eqn:E; cbn [option_map] in Hset; [|discriminate].
    injection Hset as <-. cbn [length]. f_equal. apply (IH i a l0 E).
Qed.

Lemma list_set_nth_error {T} (l : list T) : forall i a l',
  list_set l i a = Some l' ->
  forall j, nth_error l' j = if (j =? i)%nat then Some a else nth_error l j.
Proof.
  induction l as [|b l IH]; intros i a l' Hset; cbn [list_set] in Hset; [discriminate|].
  destruct i as [|i].
  - injection Hset as <-. intros [|j]; reflexivity.
  - destruct (list_set l i a) as [l0|] eqn:E; cbn [option_map] in Hset; [|discriminate].
    injection Hset as <-. intros [|j]; [reflexivity|].
    cbn [nth_error Nat.eqb]. apply (IH i a l0 E).
Qed.

Section RecordedSeries.
Context {K : Type} `{Backend K}.

Lemma x_entry_state x i (s : Circuit K) : snd (x_entry x i s) = s.
Proof.
  unfold x_entry. destruct x as [l|]; [|reflexivity].
  destruct (nth_error l i); reflexivity.
Qed.

Lemma results_append_recording vli ts (j : nat) (v : K) (s s' : Circuit K) :
  (1 <= length ts)%nat ->
  results_append j v s = (Ok tt, s') ->
  recording vli ts j s -> recording vli ts (S j) s'.
Proof.
  intros Hts Hrun (Hv & Ht & Hlen & Hser).
  unfold results_append in Hrun. unfold bind, get in Hrun.
  destruct (nth_error (results s) j) as [series|] eqn:Ej; [|discriminate].
  destruct (list_set (results s) j (series ++ [v])) as [rs|] eqn:Es; [|discriminate].
  unfold put in Hrun. injection Hrun as <-.
  unfold recording. cbn [var_list_index time_stamps results set_results].
  split; [exact Hv|]. split; [exact Ht|].
  split; [rewrite (list_set_length _ _ _ _ Es); exact Hlen|].
  intros i series' Hi.
  rewrite (list_set_nth_error _ _ _ _ Es) in Hi.
  destruct (Nat.eqb_spec i j) as [->|Hne].
  - injection Hi as <-. rewrite length_app. cbn [length].
    rewrite (Hser j series Ej).
    destruct (Nat.ltb_spec j j) as [Hlt|_]; [lia|].
    destruct (Nat.ltb_spec j (S j)) as [_|Hge]; lia.
  - rewrite (Hser i series' Hi).
    destruct (Nat.ltb_spec i j), (Nat.ltb_spec i (S j)); lia.
Qed.

Lemma record_each_recording (xs : option (list K)) vli ts :
  (1 <= length ts)%nat ->
  forall m a (s s' : Circuit K),
  for_each (seq a m)
    (fun i => match nth_error vli i with
              | Some var_index => v <- x_entry xs var_index ;; results_append i v
              | None => raise (DriverError IndexError)
              end) s = (Ok tt, s') ->
  recording vli ts a s -> recording vli ts (a + m) s'.
Proof.
  intros Hts. induction m as [|m IH]; intros a s s' Hrun Hrec; cbn [seq for_each] in Hrun.
  - injection Hrun as <-. rewrite Nat.add_0_r. exact Hrec.
  - apply bind_Ok_inv in Hrun. destruct Hrun as ([] & s1 & Hbody & Hrest).
    destruct (nth_error vli a) as [var_index|]; [|discriminate].
    apply bind_Ok_inv in Hbody. destruct Hbody as (v & s0 & Hx & Happ).
    pose proof (x_entry_state xs var_index s) as Hs0. rewrite Hx in Hs0. cbn [snd] in Hs0.
    subst s0.
    replace (a + S m)%nat with (S a + m)%nat by lia.
    apply (IH (S a) s1 s' Hrest).
    apply (results_append_recording vli ts a v s s1 Hts Happ Hrec).
Qed.

(** A sample that is recorded completely keeps the series aligned. *)
Lemma record_sample_aligned (s s' : Circuit K) :
  record_sample s = (Ok tt, s') -> aligned s -> aligned s'.
Proof.
  intros Hrun [Hlen Hall].
  unfold record_sample in Hrun.
  apply bind_Ok_inv in Hrun. destruct Hrun as (ls & s0 & Hls & Hrun).
  assert (s0 = s).
  { unfold the_linear_system, bind, get in Hls.
    destruct (linear_system s); [|discriminate]. now injection Hls. }
  subst s0.
  unfold bind at 1 in Hrun. unfold get at 1 in Hrun. cbv beta iota in Hrun.
  destruct (Qle_bool (start_record_time s) (t s)); cbn [when] in Hrun.
  2:{ injection Hrun as <-. split; assumption. }
  unfold bind at 1 in Hrun. unfold modify at 1 in Hrun. cbv beta iota in Hrun.
  set (ts := time_stamps s ++ [t s]) in *.
  assert (Hts : (1 <= length ts)%nat).
  { unfold ts. rewrite length_app. cbn [length]. lia. }
  assert (Hstart : recording (var_list_index s) ts 0 (set_time_stamps s ts)).
  { unfold recording. cbn [var_list_index time_stamps results set_time_stamps].
    split; [reflexivity|]. split; [reflexivity|]. split; [exact Hlen|].
    intros i series Hi. cbn [Nat.ltb Nat.leb].
    rewrite Forall_forall in Hall. rewrite (Hall series (nth_error_In _ _ Hi)).
    unfold ts. rewrite length_app. cbn [length]. lia. }
  pose proof (record_each_recording (x ls) (var_list_index s) ts Hts
                (length (var_list_index s)) 0 (set_time_stamps s ts) s' Hrun Hstart)
    as (Hv & Ht & Hl & Hser).
  cbn [Nat.add] in Hser.
  split; [congruence|].
  apply Forall_forall. intros series Hin.
  apply In_nth_error in Hin. destruct Hin as [i Hi].
  rewrite (Hser i series Hi), Ht.
  assert (Hi' : (i < length (results s'))%nat).
  { apply nth_error_Some. congruence. }
  destruct (Nat.ltb_spec i (length (var_list_index s))); lia.
Qed.

Lemma aligned_frame : driver_frame (aligned (K:=K)).
Proof. split; [|split]; intros s v Hs; exact Hs. Qed.

(** The loop keeps what only the clock and the record could change. *)
Lemma transient_loop_keeps_clock_frame (P : Circuit K -> Prop) :
  clock_frame P ->
  (forall s v, P s -> P (set_t s v)) ->
  (forall s v, P s -> P (set_time_stamps s v)) ->
  forall fuel end_time dt max_iter d (s : Circuit K),
  P s -> P (snd (transient_loop fuel end_time dt max_iter d s)).
Proof.
  intros Hcf Ht Hts. induction fuel as [|fuel IH]; intros end_time dt max_iter d s Hs;
    cbn [transient_loop]; unfold bind at 1; unfold get at 1; cbv beta iota.
  - destruct (Qltb (t s) end_time); exact Hs.
  - destruct (Qltb (t s) end_time); [|exact Hs].
    apply (bind_establishes P); [| | |exact Hs]; [|intros s0 Hs0; exact Hs0|].
    { apply frame_solve, clock_frame_driver_frame, Hcf. }
    intros _. apply (bind_establishes P); [|intros s0 Hs0; exact Hs0|].
    { apply frame_record_sample; [exact Hcf|]. intros s0 Hs0 _. apply Hts, Hs0. }
    intros _. apply (bind_establishes P); [|intros s0 Hs0; exact Hs0|].
    { apply frame_update_lc, clock_frame_driver_frame, Hcf. }
    intros _ s1 Hs1. unfold bind.
    destruct (advance_time_state end_time dt d s1) as [t' Hadv].
    destruct (advance_time end_time dt d s1) as [[d'|e] s2]; cbn [snd] in Hadv;
      subst s2; cbn [snd]; [|apply Ht, Hs1].
    apply IH. apply Ht, Hs1.
Qed.

Lemma transient_loop_aligned (end_time dt : Q) (max_iter : nat) :
  forall fuel d (s s' : Circuit K),
  transient_loop fuel end_time dt max_iter d s = (Ok tt, s') ->
  aligned s -> aligned s'.
Proof.
  induction fuel as [|fuel IH]; intros d s s' Hrun Hs; cbn [transient_loop] in Hrun;
    unfold bind at 1 in Hrun; unfold get at 1 in Hrun; cbv beta iota in Hrun.
  - destruct (Qltb (t s) end_time); [discriminate|]. now injection Hrun as <-.
  - destruct (Qltb (t s) end_time); [|now injection Hrun as <-].
    apply bind_Ok_inv in Hrun. destruct Hrun as ([] & s1 & H1 & Hrun).
    apply bind_Ok_inv in Hrun. destruct Hrun as ([] & s2 & H2 & Hrun).
    apply bind_Ok_inv in Hrun. destruct Hrun as ([] & s3 & H3 & Hrun).
    apply bind_Ok_inv in Hrun. destruct Hrun as (d' & s4 & H4 & Hrun).
    assert (Hs1 : aligned s1).
    { pose proof (frame_solve aligned aligned_frame d max_iter s Hs) as Hp.
      rewrite H1 in Hp. exact Hp. }
    assert (Hs2 : aligned s2) by (apply (record_sample_aligned s1 s2 H2 Hs1)).
    assert (Hs3 : aligned s3).
    { pose proof (frame_update_lc aligned aligned_frame d s2 Hs2) as Hp.
      rewrite H3 in Hp. exact Hp. }
    assert (Hs4 : aligned s4).
    { destruct (advance_time_state end_time dt d s3) as [t' Hadv].
      rewrite H4 in Hadv. cbn [snd] in Hadv. subst s4. exact Hs3. }
    apply (IH d' s4 s' Hrun Hs4).
Qed.

Lemma continue_aligned fuel run_time time_step max_iter (s s' : Circuit K) out :
  continue_transient_simulation fuel run_time time_step max_iter s = (Ok out, s') ->
  aligned s -> aligned s' /\ out = (time_stamps s', results s').
Proof.
  intros Hrun Hs. unfold continue_transient_simulation in Hrun.
  unfold bind at 1 in Hrun. unfold get at 1 in Hrun. cbv beta iota in Hrun.
  apply bind_Ok_inv in Hrun. destruct Hrun as ([] & s1 & H1 & Hrun).
  apply bind_Ok_inv in Hrun. destruct Hrun as ([] & s2 & H2 & Hrun).
  apply bind_Ok_inv in Hrun. destruct Hrun as ([] & s3 & H3 & Hrun).
  unfold bind, get, ret in Hrun. injection Hrun as <- <-.
  assert (Hs1 : aligned s1).
  { eapply (preserves_for_each aligned) in Hs.
    - rewrite H1 in Hs. exact Hs.
    - intros c. apply frame_call_update_linear_system, aligned_frame. }
  assert (Hs2 : aligned s2).
  { unfold modify in H2. injection H2 as <-. exact Hs1. }
  split; [|reflexivity].
  apply (transient_loop_aligned _ _ _ _ _ _ _ H3 Hs2).
Qed.

(** X8. The recorded series stay in step with the time stamps. A call of
    [transient_simulation] that returns leaves one series per requested
    variable, each with exactly one sample per time stamp, and returns
    these lists; a call of [continue_transient_simulation] that returns
    keeps this, and so does [clear_transient_simulation_data], which
    empties the time stamps and every series without dropping a series. *)
Theorem recorded_series_stay_aligned (fuel max_iter : nat) (s : Circuit K) :
  (forall start_record_time end_ var_list time_step options out s',
     transient_simulation fuel start_record_time end_ var_list time_step options max_iter s
     = (Ok out, s') ->
     aligned s' /\ out = (time_stamps s', results s')
     /\ length (snd out) = length var_list)
  /\ (forall run_time time_step out s',
        aligned s ->
        continue_transient_simulation fuel run_time time_step max_iter s = (Ok out, s') ->
        aligned s' /\ out = (time_stamps s', results s'))
  /\ (aligned s ->
      let s' := snd (clear_transient_simulation_data s) in
      aligned s' /\ time_stamps s' = [] /\ length (results s') = length (results s)
      /\ var_list_index s' = var_list_index s /\ t s' = t s).
Proof.
  split; [|split].
  - intros srt end_ var_list time_step options out s' Hrun.
    unfold transient_simulation in Hrun.
    apply bind_Ok_inv in Hrun. destruct Hrun as ([] & s1 & H1 & Hrun).
    unfold modify in H1. injection H1 as <-.
    unfold bind at 1 in Hrun. unfold get at 1 in Hrun. cbv beta iota in Hrun.
    apply bind_Ok_inv in Hrun. destruct Hrun as ([] & s2 & H2 & Hrun).
    unfold modify in H2. injection H2 as <-.
    apply bind_Ok_inv in Hrun. destruct Hrun as ([] & s3 & H3 & Hrun).
    apply bind_Ok_inv in Hrun. destruct Hrun as ([] & s4 & H4 & Hrun).
    unfold modify in H4. injection H4 as <-.
    apply bind_Ok_inv in Hrun. destruct Hrun as (ls & s5 & H5 & Hrun).
    apply bind_Ok_inv in Hrun. destruct Hrun as ([] & s6 & H6 & Hrun).
    unfold modify in H6. injection H6 as <-.
    apply bind_Ok_inv in Hrun. destruct Hrun as ([] & s7 & H7 & Hrun).
    (* the indices of the recorded variables *)
    assert (Hidx : forall (l : list pyname) (sa sb : Circuit K),
               for_each l
                 (fun var_name =>
                    i <- lookup_var (variable_names_dict (circuit_components
                           (set_time_stamps (set_start_record_time (set_t s 0) srt) [])))
                           var_name ;;
                    modify (fun s0 => set_var_list_index s0 (var_list_index s0 ++ [i])))
                 sa = (Ok tt, sb) ->
               time_stamps sb = time_stamps sa
               /\ length (var_list_index sb) = (length (var_list_index sa) + length l)%nat).
    { induction l as [|v l IHl]; intros sa sb Hfe; cbn [for_each] in Hfe.
      - injection Hfe as <-. split; [reflexivity|cbn; lia].
      - apply bind_Ok_inv in Hfe. destruct Hfe as ([] & sc & Hb & Hfe).
        apply bind_Ok_inv in Hb. destruct Hb as (i & sd & Hl & Hm).
        unfold lookup_var in Hl. destruct (var_get _ v); [|discriminate].
        injection Hl as _ <-. unfold modify in Hm. injection Hm as <-.
        destruct (IHl _ _ Hfe) as [Ht Hn].
        cbn [time_stamps var_list_index set_var_list_index] in Ht, Hn.
        rewrite length_app in Hn. cbn [length] in *. split; [exact Ht|lia]. }
    destruct (Hidx _ _ _ H3) as [Hts3 Hn3].
    cbn [time_stamps var_list_index set_var_list_index set_time_stamps] in Hts3, Hn3.
    assert (Hs5 : s5 = set_results s3 (repeat [] (length (var_list_index s3)))).
    { unfold ILinearSystem_create in H5.
      destruct (String.eqb options "dense"); [now injection H5|].
      destruct (String.eqb options "sparse"); [now injection H5|discriminate]. }
    subst s5.
    set (s6 := set_linear_system
                 (set_results s3 (repeat [] (length (var_list_index s3)))) (Some ls)) in *.
    assert (Hs6 : aligned s6).
    { unfold s6. split; cbn [results var_list_index time_stamps set_linear_system set_results].
      - apply repeat_length.
      - rewrite Hts3. apply Forall_forall. intros series Hin.
        apply repeat_spec in Hin. subst series. reflexivity. }
    assert (Hs7 : aligned s7).
    { match type of H7 with
      | init_all ?d _ = _ =>
          pose proof (frame_init_all aligned aligned_frame d s6 Hs6) as Hp
      end.
      rewrite H7 in Hp. exact Hp. }
    assert (Hv7 : var_list_index s7 = var_list_index s3).
    { match type of H7 with
      | init_all ?d _ = _ =>
          pose proof (frame_init_all (fun s0 => var_list_index s0 = var_list_index s3)
                        ltac:(split; [|split]; intros s0 v Hs0; exact Hs0) d s6 eq_refl)
            as Hp
      end.
      rewrite H7 in Hp. exact Hp. }
    destruct (continue_aligned _ _ _ _ _ _ _ Hrun Hs7) as [Hal Hout].
    split; [exact Hal|]. split; [exact Hout|].
    rewrite Hout. cbn [snd]. destruct Hal as [Hlen _]. rewrite Hlen.
    (* the loop does not touch the indices *)
    assert (Hv : var_list_index s' = var_list_index s7).
    { clear - Hrun.
      unfold continue_transient_simulation in Hrun.
      unfold bind at 1 in Hrun. unfold get at 1 in Hrun. cbv beta iota in Hrun.
      set (P := fun s0 : Circuit K => var_list_index s0 = var_list_index s7).
      assert (Hcf : clock_frame P).
      { split; [|split; [|split]]; intros s0 v Hs0; exact Hs0. }
      pose proof (transient_loop_keeps_clock_frame P Hcf
                    ltac:(intros s0 v Hs0; exact Hs0) ltac:(intros s0 v Hs0; exact Hs0))
        as Hloop.
      apply bind_Ok_inv in Hrun. destruct Hrun as ([] & s1 & H1 & Hrun).
      apply bind_Ok_inv in Hrun. destruct Hrun as ([] & s2 & H2 & Hrun).
      apply bind_Ok_inv in Hrun. destruct Hrun as ([] & s3 & H3 & Hrun).
      unfold bind, get, ret in Hrun. injection Hrun as _ <-.
      assert (P1 : P s1).
      { match type of H1 with
        | for_each ?l ?body _ = _ => assert (Hp : preserves P (for_each l body))
        end.
        { apply preserves_for_each. intros c.
          apply frame_call_update_linear_system, clock_frame_driver_frame, Hcf. }
        specialize (Hp s7 eq_refl). rewrite H1 in Hp. exact Hp. }
      unfold modify in H2. injection H2 as <-.
      match type of H3 with
      | transient_loop ?f ?e ?dt ?m ?d ?s0 = _ => specialize (Hloop f e dt m d s0 P1)
      end.
      rewrite H3 in Hloop. exact Hloop. }
    rewrite Hv, Hv7. exact Hn3.
  - intros run_time time_step out s' Hs Hrun. apply (continue_aligned _ _ _ _ _ _ _ Hrun Hs).
  - intros [Hlen Hall]. cbv zeta. unfold clear_transient_simulation_data, modify, aligned.
    cbn [snd results time_stamps var_list_index t set_results set_time_stamps].
    split; [split|].
    + rewrite length_map. exact Hlen.
    + apply Forall_forall. intros series Hin. apply in_map_iff in Hin.
      destruct Hin as (x0 & <- & _). reflexivity.
    + split; [reflexivity|]. split; [apply length_map|]. split; reflexivity.
Qed.

End RecordedSeries.

(** ** Time steps that make no progress *)

Section NoProgress.
Context {K : Type} `{Backend K}.

Lemma transient_loop_without_progress (end_time dt : Q) (max_iter : nat) :
  dt <= 0 ->
  forall fuel d (s : Circuit K),
  t s < end_time ->
  forall u, fst (transient_loop fuel end_time dt max_iter d s) <> Ok u.
Proof.
  intros Hdt. induction fuel as [|fuel IH]; intros d s Hlt.
  - assert (Hstep : transient_loop 0 end_time dt max_iter d s = (Raise OutOfFuel, s)).
    { cbn [transient_loop]. unfold bind, get. apply Qltb_lt in Hlt. rewrite Hlt. reflexivity. }
    rewrite Hstep. discriminate.
  - assert (Hstep : transient_loop (S fuel) end_time dt max_iter d s
                    = (solve d max_iter ;; record_sample ;; update_lc d ;;
                       analysis_description' <- advance_time end_time dt d ;;
                       transient_loop fuel end_time dt max_iter analysis_description') s).
    { cbn [transient_loop]. unfold bind at 1. unfold get at 1. cbv beta iota.
      apply Qltb_lt in Hlt. rewrite Hlt. reflexivity. }
    rewrite Hstep. clear Hstep.
    set (R := fun r : res exn unit * Circuit K => forall u, fst r <> Ok u).
    pose proof (clock_only_frame (K:=K) (t s)) as Hcf.
    assert (Hraise : forall e (s0 : Circuit K), t s0 = t s -> R (Raise e, s0)).
    { intros e s0 _ u. discriminate. }
    change (R ((solve d max_iter ;; record_sample ;; update_lc d ;;
                analysis_description' <- advance_time end_time dt d ;;
                transient_loop fuel end_time dt max_iter analysis_description') s)).
    apply (bind_step (fun s0 => t s0 = t s)); [|exact Hraise|].
    { apply frame_solve; [apply clock_frame_driver_frame, Hcf|reflexivity]. }
    intros _ s1 Hs1.
    apply (bind_step (fun s0 => t s0 = t s)); [|exact Hraise|].
    { apply frame_record_sample; [exact Hcf| |exact Hs1]. intros s0 Hs0 _. exact Hs0. }
    intros _ s2 Hs2.
    apply (bind_step (fun s0 => t s0 = t s)); [|exact Hraise|].
    { apply frame_update_lc; [apply clock_frame_driver_frame, Hcf|exact Hs2]. }
    intros _ s3 Hs3.
    destruct (advance_time_cases end_time dt d s3) as (Hnormal & _ & _).
    rewrite Hs3 in Hnormal.
    unfold R, bind. rewrite Hnormal by lra.
    apply IH. cbn [t set_t]. lra.
Qed.

(** X9. A time step that is not positive makes no progress: with
    [run_time > 0] and [time_step <= 0] the loop of
    [continue_transient_simulation] never ends, so for every bound on the
    number of passes the call has raised or is still in the loop. The same
    holds for [transient_simulation] with [end > 0], in particular with the
    default time step when [start_record_time >= end]. *)
Theorem transient_needs_positive_time_step (fuel max_iter : nat) (s : Circuit K) :
  (forall run_time dt out,
     0 < run_time -> dt <= 0 ->
     fst (continue_transient_simulation fuel run_time (Some dt) max_iter s) <> Ok out)
  /\ (forall start_record_time end_ var_list time_step options out,
        0 < end_ -> effective_time_step start_record_time end_ time_step <= 0 ->
        fst (transient_simulation fuel start_record_time end_ var_list time_step options
               max_iter s) <> Ok out)
  /\ (forall start_record_time end_,
        end_ <= start_record_time -> effective_time_step start_record_time end_ None <= 0).
Proof.
  assert (Hcont : forall run_time dt out (s0 : Circuit K),
             0 < run_time -> dt <= 0 ->
             fst (continue_transient_simulation fuel run_time (Some dt) max_iter s0)
             <> Ok out).
  { intros run_time dt out s0 Hrun Hdt.
    set (R := fun r : res exn (list Q * list (list K)) * Circuit K => fst r <> Ok out).
    pose proof (clock_only_frame (K:=K) (t s0)) as Hcf.
    assert (Hraise : forall e (s1 : Circuit K), t s1 = t s0 -> R (Raise e, s1)).
    { intros e s1 _. discriminate. }
    change (R (continue_transient_simulation fuel run_time (Some dt) max_iter s0)).
    unfold continue_transient_simulation. unfold bind at 1. unfold get at 1. cbv beta iota.
    apply (bind_step (fun s1 => t s1 = t s0)); [|exact Hraise|].
    { apply preserves_for_each; [|reflexivity]. intros c.
      apply frame_call_update_linear_system, clock_frame_driver_frame, Hcf. }
    intros _ s1 Hs1.
    apply (bind_step (fun s2 => t s2 = t s0)); [|exact Hraise|].
    { exact Hs1. }
    intros _ s2 Hs2. unfold R, bind.
    pose proof (transient_loop_without_progress (t s0 + run_time) dt max_iter Hdt fuel
                  (mkAD Transient dt (w AnalysisDescription_init)) s2
                  ltac:(rewrite Hs2; lra)) as Hloop.
    destruct (transient_loop fuel (t s0 + run_time) dt max_iter
                (mkAD Transient dt (w AnalysisDescription_init)) s2) as [[u|e] s3].
    - exfalso. apply (Hloop u). reflexivity.
    - discriminate. }
  split; [|split].
  - intros run_time dt out. apply Hcont.
  - intros srt end_ var_list time_step options out Hend Heff.
    unfold transient_simulation. fold (effective_time_step srt end_ time_step).
    set (dt := effective_time_step srt end_ time_step) in *.
    set (R := fun r : res exn (list Q * list (list K)) * Circuit K => fst r <> Ok out).
    assert (Hraise : forall e (s1 : Circuit K), True -> R (Raise e, s1)).
    { intros e s1 _. discriminate. }
    match goal with |- fst ?m <> _ => change (R m) end.
    apply (bind_step (fun _ => True)); [exact I|exact Hraise|]. intros _ s1 _.
    unfold bind at 1. unfold get at 1. cbv beta iota.
    apply (bind_step (fun _ => True)); [exact I|exact Hraise|]. intros _ s2 _.
    apply (bind_step (fun _ => True)); [exact I|exact Hraise|]. intros _ s3 _.
    apply (bind_step (fun _ => True)); [exact I|exact Hraise|]. intros _ s4 _.
    apply (bind_step (fun _ => True)); [exact I|exact Hraise|]. intros ls s5 _.
    apply (bind_step (fun _ => True)); [exact I|exact Hraise|]. intros _ s6 _.
    apply (bind_step (fun _ => True)); [exact I|exact Hraise|]. intros _ s7 _.
    apply Hcont; [lra|exact Heff].
  - intros srt end_ Hle. unfold effective_time_step.
    apply Qle_shift_div_r; [reflexivity|]. lra.
Qed.

End NoProgress.

(** ** What an AC sweep returns *)

Section SweepResults.
Context {K : Type} `{Backend K}.

Lemma collect_data_grows (xs : option (list K)) : forall rs indices (s s' : Circuit K) rs',
  collect_data xs indices rs s = (Ok rs', s') ->
  Forall2 (fun series series' => length series' = Datatypes.S (length series)) rs rs'.
Proof.
  induction rs as [|series rs IH]; intros indices s s' rs' Hrun;
    cbn [collect_data] in Hrun.
  - destruct indices; injection Hrun as <- _; constructor.
  - destruct indices as [|i indices]; [discriminate|].
    apply bind_Ok_inv in Hrun. destruct Hrun as (v & s1 & Hx & Hrun).
    apply bind_Ok_inv in Hrun. destruct Hrun as (rest & s2 & Hrest & Hrun).
    injection Hrun as <- _.
    constructor; [|apply (IH _ _ _ _ Hrest)].
    rewrite length_app. cbn [length]. lia.
Qed.

Lemma ac_sweep_loop_grows (var_list_index : list nat) (max_iter : nat) :
  forall freq d rs (s s' : Circuit K) rs',
  ac_sweep_loop freq d var_list_index max_iter rs s = (Ok rs', s') ->
  length rs' = length rs
  /\ forall n, Forall (fun series => length series = n) rs ->
               Forall (fun series => length series = (n + length freq)%nat) rs'.
Proof.
  induction freq as [|f freq IH]; intros d rs s s' rs' Hrun;
    cbn [ac_sweep_loop] in Hrun.
  - injection Hrun as <- _. split; [reflexivity|].
    intros n Hall. eapply Forall_impl; [|exact Hall]. intros series Hs. cbn in *. lia.
  - unfold bind at 1 in Hrun. unfold get at 1 in Hrun. cbv beta iota in Hrun.
    apply bind_Ok_inv in Hrun. destruct Hrun as ([] & s1 & _ & Hrun).
    apply bind_Ok_inv in Hrun. destruct Hrun as ([] & s2 & _ & Hrun).
    apply bind_Ok_inv in Hrun. destruct Hrun as (ls & s3 & _ & Hrun).
    apply bind_Ok_inv in Hrun. destruct Hrun as (rs1 & s4 & Hcollect & Hrun).
    apply collect_data_grows in Hcollect.
    destruct (IH _ _ _ _ _ Hrun) as [Hlen Hgrow].
    split.
    + rewrite Hlen. symmetry. apply (Forall2_length Hcollect).
    + intros n Hall.
      replace (n + length (f :: freq))%nat with (Datatypes.S n + length freq)%nat
        by (cbn [length]; lia).
      apply Hgrow. clear - Hcollect Hall.
      induction Hcollect as [|a b la lb Hab Hrest IHc]; [constructor|].
      inversion Hall as [|? ? Ha Hla]; subst.
      constructor; [lia|apply IHc, Hla].
Qed.

Lemma lookup_vars_length vars : forall var_list (s s' : Circuit K) indices,
  lookup_vars vars var_list s = (Ok indices, s') -> length indices = length var_list.
Proof.
  induction var_list as [|v rest IH]; intros s s' indices Hrun; cbn [lookup_vars] in Hrun.
  - injection Hrun as <- _. reflexivity.
  - apply bind_Ok_inv in Hrun. destruct Hrun as (i & s1 & _ & Hrun).
    apply bind_Ok_inv in Hrun. destruct Hrun as (indices' & s2 & Hrest & Hrun).
    injection Hrun as <- _. cbn [length]. f_equal. apply (IH _ _ _ Hrest).
Qed.

(** X10. An AC sweep that returns, returns the frequency grid it was
    given and one series per requested variable, each with exactly one
    entry per frequency of the grid. *)
Theorem ac_sweep_returns_one_entry_per_frequency (var_list : list pyname) (freq : list Q)
    (options : string) (max_iter : nat) (s s' : Circuit K) (out : list Q * list (list K)) :
  ac_sweep var_list freq options max_iter s = (Ok out, s') ->
  fst out = freq
  /\ length (snd out) = length var_list
  /\ Forall (fun series => length series = length freq) (snd out).
Proof.
  intro Hrun. unfold ac_sweep in Hrun.
  unfold bind at 1 in Hrun. unfold get at 1 in Hrun. cbv beta iota in Hrun.
  apply bind_Ok_inv in Hrun. destruct Hrun as (indices & s1 & Hidx & Hrun).
  apply lookup_vars_length in Hidx.
  apply bind_Ok_inv in Hrun. destruct Hrun as (f0 & s2 & _ & Hrun).
  apply bind_Ok_inv in Hrun. destruct Hrun as (ls & s3 & _ & Hrun).
  apply bind_Ok_inv in Hrun. destruct Hrun as ([] & s4 & _ & Hrun).
  apply bind_Ok_inv in Hrun. destruct Hrun as ([] & s5 & _ & Hrun).
  apply bind_Ok_inv in Hrun. destruct Hrun as (rs' & s6 & Hloop & Hrun).
  injection Hrun as <- _. cbn [fst snd].
  destruct (ac_sweep_loop_grows _ _ _ _ _ _ _ _ Hloop) as [Hlen Hgrow].
  split; [reflexivity|]. split.
  - rewrite Hlen, repeat_length. exact Hidx.
  - apply (Hgrow 0%nat). apply Forall_forall. intros series Hin.
    apply repeat_spec in Hin. subst series. reflexivity.
Qed.

End SweepResults.

Lemma ac_sweep_returns_one_entry_per_frequency_witness :
  let r := @ac_sweep Q demo_backend [Some "v_out"%string] [10; 100] "dense" 40
             divider_circuit in
  match fst r with
  | Ok out =>
      fst out = [10; 100]
      /\ length (snd out) = 1%nat
      /\ Forall (fun series => length series = 2%nat) (snd out)
  | Raise _ => False
  end.
Proof.
  cbv zeta.
  destruct (@ac_sweep Q demo_backend [Some "v_out"%string] [10; 100] "dense" 40
              divider_circuit) as [[out|e] s'] eqn:Erun.
  - exact (@ac_sweep_returns_one_entry_per_frequency Q demo_backend
             [Some "v_out"%string] [10; 100] "dense" 40 divider_circuit s' out Erun).
  - exfalso. vm_compute in Erun. discriminate Erun.
Defined.

(** ** Constant propagation through voltage sources *)

Lemma node_eqb_refl (n : node) : node_eqb n n = true.
Proof.
  destruct n as [s|v]; cbn [node_eqb]; [apply String.eqb_refl|].
  apply Qeq_bool_iff. reflexivity.
Qed.

Lemma dict_get_set_same {Key V} (eqb : Key -> Key -> bool) (d : list (Key * V)) k v :
  eqb k k = true -> dict_get eqb (dict_set eqb d k v) k = Some v.
Proof.
  intro Hk. induction d as [|[k' v'] d IH]; cbn [dict_set dict_get].
  - rewrite Hk. reflexivity.
  - destruct (eqb k k') eqn:E; cbn [dict_get]; rewrite E; [reflexivity|exact IH].
Qed.

Lemma consistent_within_tolerance (c v : Q) :
  Qltb tol_1e_6 (Qabs (c - (c - v) - v)) = false
  /\ Qltb tol_1e_6 (Qabs (c + v - c - v)) = false.
Proof.
  split; unfold Qltb; apply negb_false_iff, Qle_bool_iff;
    apply Qabs_Qle_condition; unfold tol_1e_6; split; lra.
Qed.

(** X11. A voltage source with one terminal at a known voltage pins the
    other one. When [node1] is a name found in [voltage_constants],
    [VS.resolve_constants] returns [True], sets the terminals to the
    voltages [c1] and [c1 - value], records the latter under the name of
    [node2] and disables the source; when only [node2] is found, the
    terminals become [c2 + value] and [c2]. Either way the source then
    yields no unknown, stamps nothing, and a further call returns [False]
    and changes nothing. When neither terminal is found the call changes
    nothing. *)
Theorem VS_resolve_constants_propagates (self : VS.t) (vc : constants) (n1 : string) :
  IComponent.node1 (VS.base self) = NName n1 ->
  let node2 := IComponent.node2 (VS.base self) in
  let r := VS.resolve_constants (self, vc) in
  let self' := fst (snd r) in
  let vc' := snd (snd r) in
  let settled :=
    VS.disabled self' = true
    /\ VS.value self' = VS.value self
    /\ VS.get_variable_names self' = []
    /\ VS.resolve_constants (self', vc') = (Ok (Some false), (self', vc'))
    /\ (forall vars d ls,
          VS.init_linear_system self' vars d ls = (Ok tt, ls)
          /\ VS.update_linear_system self' vars d ls = (Ok tt, ls)) in
  (forall c1, const_get vc (NName n1) = Some c1 ->
     fst r = Ok (Some true)
     /\ IComponent.node1 (VS.base self') = NVal c1
     /\ IComponent.node2 (VS.base self') = NVal (c1 - VS.value self)
     /\ vc' = const_set vc node2 (c1 - VS.value self)
     /\ const_get vc' node2 = Some (c1 - VS.value self)
     /\ settled)
  /\ (forall c2, const_get vc (NName n1) = None -> const_get vc node2 = Some c2 ->
        fst r = Ok (Some true)
        /\ IComponent.node1 (VS.base self') = NVal (c2 + VS.value self)
        /\ IComponent.node2 (VS.base self') = NVal c2
        /\ vc' = const_set vc (NName n1) (c2 + VS.value self)
        /\ const_get vc' (NName n1) = Some (c2 + VS.value self)
        /\ settled)
  /\ (const_get vc (NName n1) = None -> const_get vc node2 = None ->
      r = (Ok None, (self, vc))).
Proof.
  destruct self as [[node1 node2 name] value cvn dis]. cbn [VS.base IComponent.node1].
  intros ->. cbv zeta. cbn [VS.base VS.value IComponent.node1 IComponent.node2].
  set (self := VS.mk (IComponent.mk (NName n1) node2 name) value cvn dis).
  assert (Hsettled : forall a b vc1,
            Qltb tol_1e_6 (Qabs (a - b - value)) = false ->
            let self1 := VS.mk (IComponent.mk (NVal a) (NVal b) name) value cvn true in
            VS.disabled self1 = true
            /\ VS.value self1 = value
            /\ VS.get_variable_names self1 = []
            /\ VS.resolve_constants (self1, vc1) = (Ok (Some false), (self1, vc1))
            /\ (forall vars d ls,
                  VS.init_linear_system self1 vars d ls = (Ok tt, ls)
                  /\ VS.update_linear_system self1 vars d ls = (Ok tt, ls))).
  { intros a b vc1 Hab self1. repeat split.
    unfold VS.resolve_constants, bind, get, VS.as_number, ret.
    cbn [self1 fst snd VS.base VS.value IComponent.node1 IComponent.node2 is_str negb andb].
    rewrite Hab. reflexivity. }
  split; [|split].
  - intros c1 Hc1.
    assert (Hr : VS.resolve_constants (self, vc)
                 = (Ok (Some true),
                    (VS.mk (IComponent.mk (NVal c1) (NVal (c1 - value)) name) value cvn true,
                     const_set vc node2 (c1 - value)))).
    { unfold VS.resolve_constants, bind, get.
      cbn [self fst snd VS.base VS.value IComponent.node1 IComponent.node2 IComponent.name
           VS.current_var_name is_str negb andb].
      rewrite Hc1. reflexivity. }
    rewrite Hr. cbn [fst snd VS.base IComponent.node1 IComponent.node2].
    split; [reflexivity|]. split; [reflexivity|]. split; [reflexivity|].
    split; [reflexivity|]. split; [apply dict_get_set_same, node_eqb_refl|].
    apply Hsettled. apply (consistent_within_tolerance c1 value).
  - intros c2 Hn1 Hc2.
    assert (Hr : VS.resolve_constants (self, vc)
                 = (Ok (Some true),
                    (VS.mk (IComponent.mk (NVal (c2 + value)) (NVal c2) name) value cvn true,
                     const_set vc (NName n1) (c2 + value)))).
    { unfold VS.resolve_constants, bind, get.
      cbn [self fst snd VS.base VS.value IComponent.node1 IComponent.node2 IComponent.name
           VS.current_var_name is_str negb andb].
      rewrite Hn1, Hc2. reflexivity. }
    rewrite Hr. cbn [fst snd VS.base IComponent.node1 IComponent.node2].
    split; [reflexivity|]. split; [reflexivity|]. split; [reflexivity|].
    split; [reflexivity|]. split; [apply dict_get_set_same, node_eqb_refl|].
    apply Hsettled. apply (consistent_within_tolerance c2 value).
  - intros Hn1 Hn2.
    unfold VS.resolve_constants, bind, get.
    cbn [self fst snd VS.base VS.value IComponent.node1 IComponent.node2 IComponent.name
         VS.current_var_name is_str negb andb].
    rewrite Hn1, Hn2. reflexivity.
Qed.

Lemma VS_resolve_constants_propagates_witness :
  let r := VS.resolve_constants (live_VS, [(NName "a"%string, 5)]) in
  fst r = Ok (Some true)
  /\ IComponent.node1 (VS.base (fst (snd r))) = NVal 5
  /\ IComponent.node2 (VS.base (fst (snd r))) = NVal (5 - 1)
  /\ const_get (snd (snd r)) (NName "b"%string) = Some (5 - 1).
Proof.
  destruct (VS_resolve_constants_propagates live_VS [(NName "a"%string, 5)] "a" eq_refl)
    as [Hfirst _].
  destruct (Hfirst 5 eq_refl) as (Hr & H1 & H2 & _ & Hget & _).
  repeat split; assumption.
Defined.

(** ** The constant-propagation loop ends *)

Lemma count_store (p : component -> bool) : forall all c o o',
  nth_error all c = Some o ->
  (length (filter p (store all c o')) + (if p o then 1 else 0)
   = length (filter p all) + (if p o' then 1 else 0))%nat.
Proof.
  unfold store. induction all as [|a all IH]; intros c o o' Hn.
  - destruct c; discriminate.
  - destruct c as [|c]; cbn [nth_error] in Hn.
    + injection Hn as ->. cbn [list_set filter].
      destruct (p o), (p o'); cbn [length]; lia.
    + cbn [list_set]. specialize (IH c o o' Hn).
      destruct (list_set all c o') as [l|] eqn:E; cbn [option_map].
      * cbn [filter]. destruct (p a); cbn [length]; lia.
      * exfalso. clear - Hn E. revert c Hn E.
        induction all as [|b all IHa]; intros c Hn E; [destruct c; discriminate|].
        destruct c as [|c]; cbn [list_set] in E; [discriminate|].
        cbn [nth_error] in Hn.
        destruct (list_set all c o') eqn:E'; [discriminate|]. apply (IHa c Hn E').
Qed.

(** A call on a voltage source never makes it unresolved again, and a
    call that reports a change resolves it. *)
Lemma resolve_constants_settles (o : component) (vc : constants) r o' vc' :
  resolve_constants (o, vc) = (r, (o', vc')) ->
  (unresolved_VS o' = true -> unresolved_VS o = true)
  /\ (CircuitComponents_.truthy
        (match r with Ok change => change | Raise _ => None end) = true ->
      unresolved_VS o = true /\ unresolved_VS o' = false).
Proof.
  unfold resolve_constants. unfold bind at 1. unfold get at 1. cbv beta iota. cbn [fst snd].
  destruct o as [r0|v|d|c|l|g].
  2:{ (* a voltage source *)
      destruct (VS.resolve_constants (v, vc)) as [rv [v' vc1]] eqn:Ev.
      intro Hr. injection Hr as <- <- <-.
      destruct v as [[node1 node2 name] value cvn dis].
      unfold VS.resolve_constants, bind, get in Ev.
      cbn [fst snd VS.base VS.value IComponent.node1 IComponent.node2 IComponent.name
           VS.current_var_name] in Ev.
      cbn [unresolved_VS VS.base IComponent.node1].
      destruct node1 as [s1|q1]; cbn [is_str negb andb] in Ev |- *.
      - destruct (const_get vc (NName s1)) as [c1|].
        + cbn in Ev. injection Ev as <- <- <-. cbn. split; [discriminate|]. now split.
        + destruct (const_get vc node2) as [c2|].
          * cbn in Ev. injection Ev as <- <- <-. cbn. split; [discriminate|]. now split.
          * cbn in Ev. injection Ev as <- <- <-. cbn. split; [trivial|discriminate].
      - unfold VS.as_number, ret in Ev. destruct node2 as [s2|q2].
        + cbn in Ev. injection Ev as <- <- <-. cbn. split; [trivial|discriminate].
        + cbn [raise] in Ev.
          destruct (Qltb tol_1e_6 (Qabs (q1 - q2 - value))).
          * destruct name; cbn in Ev; injection Ev as <- <- <-; cbn;
              (split; [trivial|discriminate]).
          * cbn in Ev. injection Ev as <- <- <-. cbn. split; [trivial|discriminate]. }
  all: match goal with
       | |- context [IComponent.resolve_constants ?b ?k] =>
           destruct (IComponent.resolve_constants b k) as [base' rb] eqn:Eb
       end;
       unfold IComponent.resolve_constants in Eb; injection Eb as _ <-;
       unfold bind, put, ret; intro Hr; injection Hr as <- <- <-;
       cbn; split; [discriminate|discriminate].
Qed.

Lemma call_resolve_constants_settles (c : nat) (cc cc' : CircuitComponents) r :
  CircuitComponents_.call_resolve_constants c cc = (r, cc') ->
  (unresolved_count (all_components cc') <= unresolved_count (all_components cc))%nat
  /\ (forall change, r = Ok change -> CircuitComponents_.truthy change = true ->
      (unresolved_count (all_components cc') < unresolved_count (all_components cc))%nat)
  /\ r <> Raise OutOfFuel.
Proof.
  unfold CircuitComponents_.call_resolve_constants.
  unfold bind at 1. unfold get at 1. cbv beta iota.
  unfold bind at 1. unfold deref.
  destruct (nth_error (all_components cc) c) as [o|] eqn:Eo.
  2:{ intro Hr. injection Hr as <- <-. split; [lia|]. split; [discriminate|discriminate]. }
  unfold ret at 1. cbv beta iota.
  destruct (resolve_constants (o, voltage_constants cc)) as [rc [o' vc']] eqn:Erc.
  unfold bind, put. intro Hr. injection Hr as <- <-.
  cbn [all_components set_voltage_constants set_all_components].
  destruct (resolve_constants_settles _ _ _ _ _ Erc) as [Hkeep Hchange].
  pose proof (count_store unresolved_VS (all_components cc) c o o' Eo) as Hcount.
  fold (unresolved_count (store (all_components cc) c o')) in Hcount.
  fold (unresolved_count (all_components cc)) in Hcount.
  split; [|split].
  - destruct (unresolved_VS o') eqn:E'; [rewrite (Hkeep eq_refl) in Hcount|];
      destruct (unresolved_VS o); lia.
  - intros change Hrc Htruthy. destruct rc as [change'|e]; cbn [lift_res] in Hrc;
      [|discriminate]. injection Hrc as <-.
    destruct (Hchange Htruthy) as [E E']. rewrite E, E' in Hcount. lia.
  - destruct rc; cbn [lift_res]; discriminate.
Qed.

Lemma resolve_pass_settles : forall (cs : list nat) (found : bool)
    (cc cc' : CircuitComponents) r,
  CircuitComponents_.resolve_pass cs found cc = (r, cc') ->
  (unresolved_count (all_components cc') <= unresolved_count (all_components cc))%nat
  /\ (r = Ok true -> found = true
      \/ (unresolved_count (all_components cc') < unresolved_count (all_components cc))%nat)
  /\ r <> Raise OutOfFuel.
Proof.
  induction cs as [|c cs IH]; intros found cc cc' r Hrun;
    cbn [CircuitComponents_.resolve_pass] in Hrun.
  - injection Hrun as <- <-. split; [lia|]. split; [|discriminate].
    intro Hr. injection Hr as ->. now left.
  - unfold bind in Hrun.
    destruct (CircuitComponents_.call_resolve_constants c cc) as [rc cc1] eqn:Ec.
    destruct (call_resolve_constants_settles _ _ _ _ Ec) as (Hle & Hlt & Hnf).
    destruct rc as [change|e].
    + destruct (IH _ _ _ _ Hrun) as (Hle' & Hfound & Hnf').
      split; [lia|]. split; [|exact Hnf'].
      intro Hr. destruct (Hfound Hr) as [Hf|Hless]; [|right; lia].
      destruct (CircuitComponents_.truthy change) eqn:Et.
      * right. specialize (Hlt change eq_refl Et). lia.
      * left. exact Hf.
    + injection Hrun as <- <-. split; [exact Hle|]. split; [discriminate|].
      intro Heq. apply Hnf. injection Heq as ->. reflexivity.
Qed.

Lemma resolve_loop_ends : forall (fuel : nat) (cc : CircuitComponents),
  (unresolved_count (all_components cc) < fuel)%nat ->
  fst (CircuitComponents_.resolve_loop fuel cc) <> Raise OutOfFuel.
Proof.
  induction fuel as [|fuel IH]; intros cc Hfuel; [lia|].
  cbn [CircuitComponents_.resolve_loop]. unfold bind at 1. unfold get at 1. cbv beta iota.
  unfold bind.
  destruct (CircuitComponents_.resolve_pass (constant_voltages cc) false cc)
    as [r cc1] eqn:Ep.
  destruct (resolve_pass_settles _ _ _ _ _ Ep) as (Hle & Hfound & Hnf).
  destruct r as [[|]|e]; cbn [fst].
  - apply IH. destruct (Hfound eq_refl) as [Hf|Hless]; [discriminate|lia].
  - discriminate.
  - intro Heq. apply Hnf. injection Heq as ->. reflexivity.
Qed.

Lemma unresolved_count_generate_names : forall (l : list component) (_id : nat),
  (unresolved_count (CircuitComponents_.generate_names l _id)
   <= length (filter is_VS l))%nat.
Proof.
  unfold unresolved_count.
  induction l as [|c l IH]; intros _id; cbn [CircuitComponents_.generate_names];
    [cbn; lia|].
  destruct (generate_name_class c _id) as (Hvs & _ & _).
  destruct (generate_name c _id) as [c' _id'] eqn:Eg. cbn [fst] in Hvs.
  cbn [filter]. specialize (IH _id').
  assert (Himp : unresolved_VS c' = true -> is_VS c = true).
  { rewrite <- Hvs. destruct c'; cbn; congruence. }
  destruct (unresolved_VS c'); [rewrite (Himp eq_refl)|destruct (is_VS c)];
    cbn [length]; lia.
Qed.

(** X12. The constant-propagation loop of [CircuitComponents.__init__]
    ends: every pass that reports a change has resolved at least one more
    voltage source, and a resolved source never reports a change again, so
    the loop makes at most one pass more than there are voltage sources.
    With that many passes allowed the assembly never stops for lack of
    passes. *)
Theorem constant_propagation_ends (fuel : nat) (list_of_components : list component)
    (voltage_constants : constants) :
  (length (filter is_VS list_of_components) < fuel)%nat ->
  fst (CircuitComponents_.init fuel list_of_components voltage_constants)
  <> Raise OutOfFuel.
Proof.
  intro Hfuel. unfold CircuitComponents_.init.
  set (named := CircuitComponents_.generate_names list_of_components 0).
  destruct (CircuitComponents_.names_unique named []); [|discriminate].
  unfold bind at 1. unfold modify at 1. cbv beta iota.
  set (cc1 := set_special_lists _ _ _ _).
  assert (Hcount : (unresolved_count (all_components cc1) < fuel)%nat).
  { unfold cc1. cbn [all_components set_special_lists].
    pose proof (unresolved_count_generate_names list_of_components 0). fold named in H. lia. }
  pose proof (resolve_loop_ends fuel cc1 Hcount) as Hloop.
  unfold bind at 1.
  destruct (CircuitComponents_.resolve_loop fuel cc1) as [[[]|e] cc2]; cbn [fst] in Hloop;
    [|exact Hloop].
  (* nothing after the loop can run out of passes *)
  assert (Hres : never_raises OutOfFuel
                   (CircuitComponents_.for_all_resolve (length named))).
  { unfold CircuitComponents_.for_all_resolve. apply never_for_each. intros c.
    apply never_bind; [|intros _; apply never_ret].
    intros cc0 Hr.
    destruct (CircuitComponents_.call_resolve_constants c cc0) as [r cc0'] eqn:Ec.
    destruct (call_resolve_constants_settles _ _ _ _ Ec) as (_ & _ & Hnf).
    apply Hnf. exact Hr. }
  assert (Hcollect : forall l c idx,
             never_raises OutOfFuel (CircuitComponents_.collect l c idx)).
  { induction l as [|o l IHl]; intros c idx; cbn [CircuitComponents_.collect].
    - apply never_ret.
    - destruct (get_name o) as [name|]; [|apply never_raise_other; discriminate].
      apply never_bind.
      { unfold when. destruct (negb _); [apply never_modify|apply never_ret]. }
      intros _. apply never_bind; [apply never_get|]. intros cc0.
      destruct (CircuitComponents_.add_var_names _ _ _) as [d idx'].
      apply never_bind; [intros s0; discriminate|]. intros _. apply IHl. }
  apply never_bind; [exact Hres|]. intros _.
  apply never_bind; [apply never_get|]. intros cc3.
  apply never_bind; [apply Hcollect|]. intros _.
  apply never_bind; [apply never_get|]. intros cc4.
  destruct (CircuitComponents_.fill_names _ _);
    [intros s0; discriminate|apply never_raise_other; discriminate].
Qed.

Lemma constant_propagation_ends_witness :
  fst (CircuitComponents_.init 3 chained_sources chained_constants) <> Raise OutOfFuel.
Proof.
  apply (constant_propagation_ends 3 chained_sources chained_constants).
  cbn. lia.
Defined.

(** The two chained sources take two passes that change something and a
    third that changes nothing; two passes are not enough. *)
Example chained_sources_passes :
  fst (CircuitComponents_.init 3 chained_sources chained_constants) = Ok tt
  /\ fst (CircuitComponents_.init 2 chained_sources chained_constants) = Raise OutOfFuel.
Proof. split; reflexivity. Qed.

(** ** Component names *)









(** Two resistors named [r1]: the assembly stops at the uniqueness check. *)
Example twice_r1_refused :
  Forall (fun c => init_checks_name (get_name c) = Ok tt) twice_r1
  /\ fst (CircuitComponents_.init 5 twice_r1 [(NName "gnd"%string, 0)])
     = Raise (DriverError AttributeError).
Proof. split; [repeat constructor|reflexivity]. Qed.

(** ** Looking up components by name *)











Section ComponentLookup.
Context {K : Type} `{Backend K}.


End ComponentLookup.


(** The named resistor is found, a generated name is not. *)
Example one_named_lookup :
  let s := snd (@Circuit_init Q 5 one_named [(NName "gnd"%string, 0)]) in
  fst (get_component_for_modification "r1" s) = Ok (Some 1%nat)
  /\ modified (circuit_components (snd (get_component_for_modification "r1" s))) = [1%nat]
  /\ fst (get_component_for_modification "$0" s) = Ok None.
Proof. vm_compute. repeat split; reflexivity. Qed.

(** ** Stamps that keep to the component's own row *)














(** A capacitor between the fixed voltage 5 and the node [a], in DC
    analysis: unlike the inductor, it leaves row 0 of [b] alone. *)
Example anchored_capacitor_keeps_row :
  let r := C.init_linear_system anchored_capacitor anchored_capacitor_vars dc_description
             (create_real 2) in
  fst r = Ok tt /\ b (snd r) 0%nat == 0.
Proof. vm_compute. split; reflexivity. Qed.

(** ** The diode's operating point *)



